(** * Shallow embedding of the bit_stuff repository

    Two source files are embedded:
    - [Bit_stuffing.py]: the HDLC bit-stuffing sender and receiver;
    - [DVA.py]: the synchronous distance-vector routing simulator.

    Python values are modelled as follows.  A [str] is the list of its code
    points ([list N]); a Python [int] is a [Z] (no wrap-around); a [dict]
    whose iteration order is observed is an association list in insertion
    order, a [dict] that is only read and written by key is a [gmap];
    raising an exception is the outcome [Raise]. *)

From Stdlib Require Import ZArith NArith List Lia Ascii String Permutation.
From stdpp Require Import base option list gmap strings fin_maps.

Open Scope Z_scope.

(** ** Outcomes of Python computations *)

Inductive exn : Type :=
| KeyError (key : string)
| ValueError (msg : string).

(** [Timeout] is the only artefact of the embedding: a [while] loop is run
    with a bound on the number of its iterations. *)
Inductive outcome (A : Type) : Type :=
| Ret (a : A)
| Raise (e : exn)
| Timeout.

Arguments Ret {A} a.
Arguments Raise {A} e.
Arguments Timeout {A}.

Definition bind {A B : Type} (m : outcome A) (k : A -> outcome B) : outcome B :=
  match m with
  | Ret a => k a
  | Raise e => Raise e
  | Timeout => Timeout
  end.

Notation "'let*' x := m 'in' k" := (bind m (fun x => k))
  (at level 10, x pattern, m at level 100, k at level 200).

(** [for x in xs: body], where [body] transforms the loop state and may raise. *)
Fixpoint for_each {A S : Type} (xs : list A) (body : A -> S -> outcome S) (s : S)
  : outcome S :=
  match xs with
  | [] => Ret s
  | x :: xs' => let* s' := body x s in for_each xs' body s'
  end.

(** ** Bit_stuffing.py *)

(** A Python string, as the list of its code points. *)
Abbreviation pystr := (list N).

Definition ord_of_string (s : string) : pystr :=
  map N_of_ascii (list_ascii_of_string s).

Definition chr0 : N := 48.   (* '0' *)
Definition chr1 : N := 49.   (* '1' *)

(** [FLAG_BITS = '01111110'] *)
Definition FLAG_BITS : pystr := Eval cbv in ord_of_string "01111110".

(** The digits of [format(n, 'b')], most significant first. *)
Fixpoint pos_bin (p : positive) : pystr :=
  match p with
  | xH => [chr1]
  | xO q => pos_bin q ++ [chr0]
  | xI q => pos_bin q ++ [chr1]
  end.

Definition bin (n : N) : pystr :=
  match n with
  | N0 => [chr0]
  | Npos p => pos_bin p
  end.

(** [f'{n:08b}']: binary digits, padded on the left with '0' to width 8
    (longer when [n >= 256]). *)
Definition format_08b (n : N) : pystr :=
  replicate (8 - length (bin n)) chr0 ++ bin n.

(** [to_bits(s)]: [''.join(f'{ord(c):08b}' for c in s)]. *)
Definition to_bits (s : pystr) : pystr :=
  concat (map format_08b s).

(** [int(byte, 2)] on a string of binary digits.  The empty string and a
    string with any other character raise [ValueError]; the further forms
    Python's [int] accepts (sign, surrounding blanks, underscores, a [0b]
    prefix) are not modelled. *)
Definition int_base2 (byte : pystr) : outcome N :=
  match byte with
  | [] => Raise (ValueError "invalid literal for int() with base 2")
  | _ =>
    for_each byte (fun c acc =>
      if N.eqb c chr0 then Ret (2 * acc)%N
      else if N.eqb c chr1 then Ret (2 * acc + 1)%N
      else Raise (ValueError "invalid literal for int() with base 2")) 0%N
  end.

(** [chr(n)]; a code point above 0x10FFFF raises [ValueError]. *)
Definition chr (n : N) : outcome N :=
  if (n <=? 1114111)%N then Ret n
  else Raise (ValueError "chr() arg not in range(0x110000)").

(** [range(0, stop, step)] for [step > 0]. *)
Definition range_step (stop step : nat) : list nat :=
  map (fun k => (k * step)%nat) (seq 0 ((stop + step - 1) / step)).

(** [b[i:j]] for [0 <= i <= j]. *)
Definition slice {A : Type} (b : list A) (i j : nat) : list A :=
  take (j - i) (drop i b).

(** [''.join(chr(int(byte, 2)) for byte in chars)]: the generator is consumed
    left to right and the first exception stops it. *)
Fixpoint decode_chars (chars : list pystr) : outcome pystr :=
  match chars with
  | [] => Ret []
  | byte :: rest =>
    let* n := int_base2 byte in
    let* c := chr n in
    let* cs := decode_chars rest in
    Ret (c :: cs)
  end.

Definition from_bits (b : pystr) : outcome pystr :=
  if negb (Nat.eqb (length b mod 8) 0)
  then Raise (ValueError "Bit string length must be multiple of 8")
  else
    let chars := map (fun i => slice b i (i + 8)) (range_step (length b) 8) in
    decode_chars chars.

(** One turn of the sender's [for bit in bits] loop; the state is
    [(stuffed_bits, count_ones)]. *)
Definition stuff_step (bit : N) (st : pystr * nat) : pystr * nat :=
  let '(stuffed_bits, count_ones) := st in
  let stuffed_bits := stuffed_bits ++ [bit] in
  if N.eqb bit chr1 then
    let count_ones := (count_ones + 1)%nat in
    if Nat.eqb count_ones 5 then (stuffed_bits ++ [chr0], 0%nat)
    else (stuffed_bits, count_ones)
  else (stuffed_bits, 0%nat).

Definition bit_stuff (data_str : pystr) : pystr :=
  let bits := to_bits data_str in
  let '(stuffed_bits, _) :=
    fold_left (fun st bit => stuff_step bit st) bits ([], 0%nat) in
  FLAG_BITS ++ stuffed_bits ++ FLAG_BITS.

(** [s.startswith(p)] and [s.endswith(p)]. *)
Definition startswith (s p : pystr) : bool :=
  bool_decide (take (length p) s = p).

Definition endswith (s p : pystr) : bool :=
  bool_decide (length p <= length s)%nat
  && bool_decide (drop (length s - length p) s = p).

(** The receiver's [while i < len(inner)] loop; the state is
    [(i, count_ones, out_bits)] and [fuel] bounds the number of turns. *)
Fixpoint unstuff_loop (fuel : nat) (inner : pystr) (i count_ones : nat)
    (out_bits : pystr) : outcome pystr :=
  match fuel with
  | O => Timeout
  | S fuel' =>
    match inner !! i with
    | None => Ret out_bits
    | Some b =>
      let out_bits := out_bits ++ [b] in
      if N.eqb b chr1 then
        let count_ones := (count_ones + 1)%nat in
        if Nat.eqb count_ones 5
        then unstuff_loop fuel' inner (i + 1 + 1) 0 out_bits
        else unstuff_loop fuel' inner (i + 1) count_ones out_bits
      else unstuff_loop fuel' inner (i + 1) 0 out_bits
    end
  end.

(** [bit_unstuff(frame_bits)], the loop being given [fuel] turns.  The
    warning printed when the recovered length is not a multiple of 8 is not
    part of the result: [from_bits] raises right after it. *)
Definition bit_unstuff_fuel (fuel : nat) (frame_bits : pystr) : outcome pystr :=
  if negb (startswith frame_bits FLAG_BITS && endswith frame_bits FLAG_BITS)
  then Raise (ValueError "Frame missing start/end FLAG_BITS")
  else
    let inner :=
      slice frame_bits (length FLAG_BITS) (length frame_bits - length FLAG_BITS) in
    let* out_bits := unstuff_loop fuel inner 0 0 [] in
    from_bits out_bits.

(** The loop index grows by at least one each turn, so [len(frame_bits)]
    turns are always enough (see [unstuff_loop_fuel] below). *)
Definition bit_unstuff (frame_bits : pystr) : outcome pystr :=
  bit_unstuff_fuel (S (length frame_bits)) frame_bits.

(** ** DVA.py *)

Abbreviation node := string.

(** [INF = 10**9] *)
Definition INF : Z := 1000000000.

(** [m[k]] on a dict read by key: a missing key raises [KeyError]. *)
Definition getitem {V : Type} (m : gmap node V) (k : node) : outcome V :=
  match m !! k with
  | Some v => Ret v
  | None => Raise (KeyError k)
  end.

(** [m[u][k]] *)
Definition getitem2 {V : Type} (m : gmap node (gmap node V)) (u k : node)
  : outcome V :=
  let* row := getitem m u in getitem row k.

(** [m[u][k] = x]: the row [m[u]] is looked up (and must exist), then the
    item is stored in it. *)
Definition setitem2 {V : Type} (m : gmap node (gmap node V)) (u k : node) (x : V)
  : outcome (gmap node (gmap node V)) :=
  let* row := getitem m u in Ret (<[u := <[k := x]> row]> m).

(** [d[k] = x] on a dict whose iteration order matters: an existing key
    keeps its position, a new key goes last. *)
Fixpoint dict_set {V : Type} (k : node) (x : V) (d : list (node * V))
  : list (node * V) :=
  match d with
  | [] => [(k, x)]
  | (k', x') :: d' =>
    if decide (k' = k) then (k, x) :: d' else (k', x') :: dict_set k x d'
  end.

(** [{k: f(k) for k in keys}], read by key afterwards. *)
Definition dict_comp {V : Type} (keys : list node) (f : node -> V) : gmap node V :=
  fold_left (fun m k => <[k := f k]> m) keys ∅.

(** The neighbor map: an outer dict read by key, whose rows are iterated with
    [.items()] and so keep their insertion order. *)
Abbreviation neighbors_t := (gmap node (list (node * Z))).
Abbreviation dist_t := (gmap node (gmap node Z)).
(** A next hop is a node name or [None]. *)
Abbreviation next_t := (gmap node (gmap node (option node))).

(** [neighbors[u][v] = c] *)
Definition set_neighbor (u v : node) (c : Z) (neighbors : neighbors_t)
  : outcome neighbors_t :=
  let* row := getitem neighbors u in
  Ret (<[u := dict_set v c row]> neighbors).

(** Lines 26-29 of DVA.py. *)
Definition init_neighbors (nodes : list node) (edges : list (node * node * Z))
  : outcome neighbors_t :=
  for_each edges (fun '(u, v, c) neighbors =>
    let* neighbors := set_neighbor u v c neighbors in
    set_neighbor v u c neighbors)
  (dict_comp nodes (fun _ => [])).

(** Body of the loop of lines 34-39, on the state [(dist, next_hop)]. *)
Definition init_node (neighbors : neighbors_t) (u : node) (st : dist_t * next_t)
  : outcome (dist_t * next_t) :=
  let '(dist, next_hop) := st in
  let* dist := setitem2 dist u u 0 in
  let* next_hop := setitem2 next_hop u u (Some u) in
  let* row := getitem neighbors u in
  for_each row (fun '(v, c) '(dist, next_hop) =>
    let* dist := setitem2 dist u v c in
    let* next_hop := setitem2 next_hop u v (Some v) in
    Ret (dist, next_hop)) (dist, next_hop).

Definition init_tables (nodes : list node) (edges : list (node * node * Z))
  : outcome (neighbors_t * dist_t * next_t) :=
  let* neighbors := init_neighbors nodes edges in
  let dist := dict_comp nodes (fun _ => dict_comp nodes (fun _ => INF)) in
  let next_hop := dict_comp nodes (fun _ => dict_comp nodes (fun _ => None)) in
  let* (dist, next_hop) := for_each nodes (init_node neighbors) (dist, next_hop) in
  Ret (neighbors, dist, next_hop).

(** [send_vector]: both branches of the test on [use_poisoned_reverse] store
    the cost unchanged. *)
Definition send_vector (from_node to_node : node) (dist_from : gmap node Z)
    (use_poisoned_reverse : bool) : gmap node Z :=
  fold_left (fun vec '(dest, cost) =>
      if use_poisoned_reverse then <[dest := cost]> vec
      else <[dest := cost]> vec)
    (map_to_list dist_from) ∅.

(** What the simulator prints when [verbose] is set. *)
Inductive event : Type :=
| PrintIteration (iteration : nat)
| PrintImproved (u dest v : node) (via_v : Z)
| PrintConverged
| PrintStopping.

(** [if verbose: print(...)] *)
Definition print (verbose : bool) (e : event) (stdout : list event) : list event :=
  if verbose then stdout ++ [e] else stdout.

(** The variables a round reads and writes. *)
Record round_state : Type := RoundState {
  st_dist : dist_t;
  st_next : next_t;
  st_updated : bool;
  st_stdout : list event
}.

(** Lines 80-86: the vector [v] advertises to [u], built from the snapshot. *)
Definition advertise (use_poisoned_reverse : bool) (old_dist : dist_t)
    (old_next : next_t) (u v dest : node) : outcome Z :=
  let* adv_cost := getitem2 old_dist v dest in
  if use_poisoned_reverse then
    let* nh := getitem2 old_next v dest in
    if decide (nh = Some u) then Ret INF else Ret adv_cost
  else Ret adv_cost.

Definition build_advertised (nodes : list node) (use_poisoned_reverse : bool)
    (old_dist : dist_t) (old_next : next_t) (u v : node)
  : outcome (gmap node Z) :=
  for_each nodes (fun dest advertised =>
    let* adv_cost := advertise use_poisoned_reverse old_dist old_next u v dest in
    Ret (<[dest := adv_cost]> advertised)) ∅.

(** Line 94: the cost of reaching [dest] from [u] through [v]. *)
Definition candidate (cost_uv adv_cost : Z) : Z := cost_uv + adv_cost.

(** Lines 90-100: body of the loop over [dest] at node [u] for neighbor [v]. *)
Definition relax_dest (verbose : bool) (old_dist : dist_t) (u v : node)
    (cost_uv : Z) (advertised : gmap node Z) (dest : node) (st : round_state)
  : outcome round_state :=
  let* d_uv := getitem2 old_dist u v in
  if (INF <=? d_uv) then Ret st
  else
    let* adv_cost := getitem advertised dest in
    let via_v := candidate cost_uv adv_cost in
    let* cur := getitem2 (st_dist st) u dest in
    if (via_v <? cur) then
      let* dist := setitem2 (st_dist st) u dest via_v in
      let* next_hop := setitem2 (st_next st) u dest (Some v) in
      Ret (RoundState dist next_hop true
             (print verbose (PrintImproved u dest v via_v) (st_stdout st)))
    else Ret st.

(** Lines 77-100: node [u] hears from its neighbor [v]. *)
Definition receive (nodes : list node) (use_poisoned_reverse verbose : bool)
    (old_dist : dist_t) (old_next : next_t) (u : node) (nb : node * Z)
    (st : round_state) : outcome round_state :=
  let '(v, cost_uv) := nb in
  let* advertised :=
    build_advertised nodes use_poisoned_reverse old_dist old_next u v in
  for_each nodes (relax_dest verbose old_dist u v cost_uv advertised) st.

(** Lines 76-100: one round against the snapshot [(old_dist, old_next)]. *)
Definition round (nodes : list node) (neighbors : neighbors_t)
    (use_poisoned_reverse verbose : bool) (old_dist : dist_t) (old_next : next_t)
    (st : round_state) : outcome round_state :=
  for_each nodes (fun u st =>
    let* row := getitem neighbors u in
    for_each row
      (receive nodes use_poisoned_reverse verbose old_dist old_next u) st) st.

(** Which of the two [break] statements left the [while True] loop. *)
Inductive exit_state : Type :=
| Converged
| AbortedOnIterationLimit.

(** The variables of [distance_vector] when the loop is left. *)
Record run : Type := Run {
  run_dist : dist_t;
  run_next : next_t;
  run_iteration : nat;
  run_exit : exit_state;
  run_stdout : list event
}.

(** Lines 65-110; [fuel] bounds the number of turns of [while True]. *)
Fixpoint dv_loop (fuel : nat) (nodes : list node) (neighbors : neighbors_t)
    (use_poisoned_reverse verbose : bool) (iteration : nat)
    (dist : dist_t) (next_hop : next_t) (stdout : list event) : outcome run :=
  match fuel with
  | O => Timeout
  | S fuel' =>
    let iteration := (iteration + 1)%nat in
    let stdout := print verbose (PrintIteration iteration) stdout in
    let old_dist := dist in
    let old_next := next_hop in
    let* st := round nodes neighbors use_poisoned_reverse verbose
                 old_dist old_next (RoundState dist next_hop false stdout) in
    if negb (st_updated st) then
      Ret (Run (st_dist st) (st_next st) iteration Converged
             (print verbose PrintConverged (st_stdout st)))
    else if (50 <? iteration)%nat then
      Ret (Run (st_dist st) (st_next st) iteration AbortedOnIterationLimit
             (print verbose PrintStopping (st_stdout st)))
    else
      dv_loop fuel' nodes neighbors use_poisoned_reverse verbose iteration
        (st_dist st) (st_next st) (st_stdout st)
  end.

(** The whole execution of [distance_vector], with the loop's final state. *)
Definition distance_vector_run (fuel : nat) (nodes : list node)
    (edges : list (node * node * Z)) (use_poisoned_reverse verbose : bool)
  : outcome run :=
  let* (neighbors, dist, next_hop) := init_tables nodes edges in
  dv_loop fuel nodes neighbors use_poisoned_reverse verbose 0 dist next_hop [].

(** Line 112: the value returned is the pair [dist, next_hop]. *)
Definition distance_vector_fuel (fuel : nat) (nodes : list node)
    (edges : list (node * node * Z)) (use_poisoned_reverse verbose : bool)
  : outcome (dist_t * next_t) :=
  let* r := distance_vector_run fuel nodes edges use_poisoned_reverse verbose in
  Ret (run_dist r, run_next r).

(** All a caller observes: the returned value and what was printed. *)
Definition distance_vector_observed (fuel : nat) (nodes : list node)
    (edges : list (node * node * Z)) (use_poisoned_reverse verbose : bool)
  : outcome (dist_t * next_t * list event) :=
  let* r := distance_vector_run fuel nodes edges use_poisoned_reverse verbose in
  Ret (run_dist r, run_next r, run_stdout r).

(** 51 turns are always enough (see [dv_loop_spec] below). *)
Definition distance_vector := distance_vector_fuel 51.

(** ** Recursive readings of the two stuffing loops, used in the proofs *)

(** What the sender's loop appends for [bits] when it starts with
    [count_ones] ones already seen. *)
Fixpoint stuff_rec (bits : pystr) (count_ones : nat) : pystr :=
  match bits with
  | [] => []
  | bit :: rest =>
    if N.eqb bit chr1 then
      if Nat.eqb (count_ones + 1) 5 then bit :: chr0 :: stuff_rec rest 0
      else bit :: stuff_rec rest (count_ones + 1)
    else bit :: stuff_rec rest 0
  end.

(** What the receiver's loop appends for the rest [inner[i:]] of the frame. *)
Fixpoint unstuff_rec (rest : pystr) (count_ones : nat) : pystr :=
  match rest with
  | [] => []
  | b :: rest' =>
    b :: (if N.eqb b chr1 then
            if Nat.eqb (count_ones + 1) 5 then
              match rest' with
              | [] => []
              | _ :: rest'' => unstuff_rec rest'' 0
              end
            else unstuff_rec rest' (count_ones + 1)
          else unstuff_rec rest' 0)
  end.

(** [m[u][k]] as a partial function, for the statements about tables. *)
Definition lookup2 {V : Type} (m : gmap node (gmap node V)) (u k : node)
  : option V :=
  match m !! u with
  | Some row => row !! k
  | None => None
  end.

(** The cost [v] advertises to [u] for [dest], read off the snapshot
    (0 stands for an entry the snapshot lacks; none is lacking after
    [init_tables], see [advertise_cost]). *)
Definition advertised_cost (use_poisoned_reverse : bool) (old_dist : dist_t)
    (old_next : next_t) (u v dest : node) : Z :=
  let adv_cost := default 0 (lookup2 old_dist v dest) in
  if use_poisoned_reverse then
    if decide (default None (lookup2 old_next v dest) = Some u) then INF
    else adv_cost
  else adv_cost.

(** The first endpoint of a link, in the order [init_tables] reads them,
    that is not in the node list. *)
Fixpoint first_unknown (nodes : list node) (edges : list (node * node * Z))
  : option node :=
  match edges with
  | [] => None
  | (u, v, _) :: rest =>
    if decide (u ∈ nodes) then
      if decide (v ∈ nodes) then first_unknown nodes rest else Some v
    else Some u
  end.

(** Tables that have an entry for every pair of nodes. *)
Definition wf_table {V : Type} (nodes : list node) (m : gmap node (gmap node V))
  : Prop :=
  forall u d, u ∈ nodes -> d ∈ nodes -> is_Some (lookup2 m u d).

(** A neighbor map with a row for every node, naming nodes only. *)
Definition wf_neighbors (nodes : list node) (neighbors : neighbors_t) : Prop :=
  forall u, u ∈ nodes ->
    exists row, neighbors !! u = Some row /\ forall v c, (v, c) ∈ row -> v ∈ nodes.

(** The tables after [k] rounds, were the loop not to stop. *)
Fixpoint tables_after (k : nat) (nodes : list node) (neighbors : neighbors_t)
    (use_poisoned_reverse : bool) (dist : dist_t) (next_hop : next_t)
  : outcome round_state :=
  match k with
  | O => Ret (RoundState dist next_hop false [])
  | S k' =>
    let* st := tables_after k' nodes neighbors use_poisoned_reverse dist next_hop in
    round nodes neighbors use_poisoned_reverse false (st_dist st) (st_next st)
      (RoundState (st_dist st) (st_next st) false [])
  end.

(** The neighbor map while the links are read: one row per node, rows
    naming nodes only. *)
Definition neighbors_inv (nodes : list node) (neighbors : neighbors_t) : Prop :=
  (forall u, is_Some (neighbors !! u) <-> u ∈ nodes)
  /\ (forall u row v c, neighbors !! u = Some row -> (v, c) ∈ row -> v ∈ nodes).

(** [m[u][k] = x] when it does not raise. *)
Definition store2 {V : Type} (m : gmap node (gmap node V)) (u k : node) (x : V)
  : gmap node (gmap node V) :=
  match m !! u with
  | Some row => <[u := <[k := x]> row]> m
  | None => m
  end.

(** A route offered to node [o_u] during a round: reach [o_dest] through
    the neighbor [o_v] at cost [o_via]. *)
Record offer : Type := Offer {
  o_u : node;
  o_dest : node;
  o_v : node;
  o_via : Z
}.

(** The update rule of lines 95-100: strict improvement only. *)
Definition take_offer (verbose : bool) (st : round_state) (o : offer)
  : round_state :=
  match lookup2 (st_dist st) (o_u o) (o_dest o) with
  | Some cur =>
    if (o_via o <? cur) then
      RoundState (store2 (st_dist st) (o_u o) (o_dest o) (o_via o))
        (store2 (st_next st) (o_u o) (o_dest o) (Some (o_v o))) true
        (print verbose (PrintImproved (o_u o) (o_dest o) (o_v o) (o_via o))
           (st_stdout st))
    else st
  | None => st
  end.

(** The offers node [u] gets from one neighbor, in the order of the loop
    over [dest]; none when the old cost from [u] to it is not below [INF]. *)
Definition offers_from (nodes : list node) (use_poisoned_reverse : bool)
    (old_dist : dist_t) (old_next : next_t) (u : node) (nb : node * Z)
  : list offer :=
  match lookup2 old_dist u nb.1 with
  | Some d_uv =>
    if (INF <=? d_uv) then []
    else
      map (fun dest =>
             Offer u dest nb.1
               (candidate nb.2
                  (advertised_cost use_poisoned_reverse old_dist old_next
                     u nb.1 dest))) nodes
  | None => []
  end.

(** All the offers of a round, in the order the three nested loops make them. *)
Definition offers (nodes : list node) (neighbors : neighbors_t)
    (use_poisoned_reverse : bool) (old_dist : dist_t) (old_next : next_t)
  : list offer :=
  flat_map (fun u =>
      flat_map (offers_from nodes use_poisoned_reverse old_dist old_next u)
        (default [] (neighbors !! u))) nodes.

(** Tables of a round state that have an entry for every pair of nodes. *)
Definition wf_state (nodes : list node) (st : round_state) : Prop :=
  wf_table nodes (st_dist st) /\ wf_table nodes (st_next st).

(** Round [j] (counted from 1) changes some table. *)
Definition round_changes (nodes : list node) (neighbors : neighbors_t)
    (use_poisoned_reverse : bool) (dist0 : dist_t) (next0 : next_t) (j : nat)
  : Prop :=
  exists st st',
    tables_after (j - 1) nodes neighbors use_poisoned_reverse dist0 next0 = Ret st
    /\ tables_after j nodes neighbors use_poisoned_reverse dist0 next0 = Ret st'
    /\ (st_dist st' <> st_dist st \/ st_next st' <> st_next st).

(** The stores made into the row of [u] while the links are read, in order:
    a link [(a, b, c)] stores [b] in the row of [a], then [a] in the row of
    [b]. *)
Definition incident (u : node) (edges : list (node * node * Z))
  : list (node * Z) :=
  flat_map (fun '(a, b, c) =>
      (if decide (a = u) then [(b, c)] else [])
      ++ (if decide (b = u) then [(a, c)] else [])) edges.

(** A row after a sequence of stores. *)
Definition stores (l : list (node * Z)) (row : list (node * Z))
  : list (node * Z) :=
  fold_left (fun r '(v, c) => dict_set v c r) l row.

(** [d.get(k)] on a dict kept in insertion order. *)
Fixpoint dict_get {V : Type} (k : node) (d : list (node * V)) : option V :=
  match d with
  | [] => None
  | (k', x) :: d' => if decide (k' = k) then Some x else dict_get k d'
  end.

(** The entry of [u] for [d] that [init_tables] builds from the row of [u]:
    the value [g d c] of a neighbor, else [self] for [d = u], else [none]. *)
Definition init_entry {V : Type} (g : node -> Z -> V) (self none : V)
    (row : list (node * Z)) (u d : node) : V :=
  match dict_get d row with
  | Some c => g d c
  | None => if decide (d = u) then self else none
  end.

(** The stores of one turn of the loop of lines 34-39 into one table. *)
Definition init_row {V : Type} (g : node -> Z -> V) (self : node -> V)
    (u : node) (row : list (node * Z)) (m : gmap node (gmap node V))
  : gmap node (gmap node V) :=
  fold_left (fun m '(v, c) => store2 m u v (g v c)) row (store2 m u u (self u)).

(** The whole loop of lines 34-39, for one table. *)
Definition init_rows {V : Type} (g : node -> Z -> V) (self : node -> V)
    (neighbors : neighbors_t) (ns : list node) (m : gmap node (gmap node V))
  : gmap node (gmap node V) :=
  fold_left (fun m u => init_row g self u (default [] (neighbors !! u)) m) ns m.

(** Tables in which no cost is negative and every node reaches itself at
    cost 0 with itself as next hop. *)
Definition self_routes (nodes : list node) (st : round_state) : Prop :=
  (forall u d c, lookup2 (st_dist st) u d = Some c -> 0 <= c)
  /\ (forall u, u ∈ nodes ->
        lookup2 (st_dist st) u u = Some 0
        /\ lookup2 (st_next st) u u = Some (Some u)).

(** The line printed when the loop is left. *)
Definition exit_event (e : exit_state) : event :=
  match e with
  | Converged => PrintConverged
  | AbortedOnIterationLimit => PrintStopping
  end.

Definition is_header (e : event) : bool :=
  match e with
  | PrintIteration _ => true
  | _ => false
  end.

Definition is_improved (e : event) : bool :=
  match e with
  | PrintImproved _ _ _ _ => true
  | _ => false
  end.

(** The cost node [u] holds for [d] once the offers [os] are handled, when
    it held [c] before: the least of [c] and of the offers made to [u] for
    [d]. *)
Fixpoint best (os : list offer) (u d : node) (c : Z) : Z :=
  match os with
  | [] => c
  | o :: os' =>
    best os' u d
      (if decide (o_u o = u /\ o_dest o = d) then Z.min c (o_via o) else c)
  end.


(** The ordered pairs of nodes the links join, both ways.  It has no
    duplicate exactly when no link joins a node to itself and no two links
    join the same unordered pair. *)
Definition pair_keys (edges : list (node * node * Z)) : list (node * node) :=
  flat_map (fun '(u, v, _) => [(u, v); (v, u)]) edges.

(** The next hop of a route is at least as close to the destination as the
    node itself. *)
Definition closer (st : round_state) : Prop :=
  forall v d u cv cu,
    lookup2 (st_next st) v d = Some (Some u) ->
    lookup2 (st_dist st) v d = Some cv ->
    lookup2 (st_dist st) u d = Some cu ->
    cu <= cv.

(** No cost of the tables is above [INF]. *)
Definition bounded (st : round_state) : Prop :=
  forall u d c, lookup2 (st_dist st) u d = Some c -> c <= INF.

(** An offer that cannot improve on the costs of the snapshot. *)
Definition dead (old_dist : dist_t) (o : offer) : Prop :=
  exists c, lookup2 old_dist (o_u o) (o_dest o) = Some c /\ c <= o_via o.

(** An offer through a neighbor costs at least what the neighbor held. *)
Definition through (old_dist : dist_t) (o : offer) : Prop :=
  exists a, lookup2 old_dist (o_v o) (o_dest o) = Some a /\ a <= o_via o.

(** The costs of a state are at most those of the snapshot. *)
Definition below (old_dist : dist_t) (st : round_state) : Prop :=
  forall x d c, lookup2 old_dist x d = Some c ->
    exists c', lookup2 (st_dist st) x d = Some c' /\ c' <= c.

(** ** The triangle of the specification, used as a running example *)

Definition tri_nodes : list node := ["A"; "B"; "C"]%string.

Definition tri_edges : list (node * node * Z) :=
  [("A", "B", 1); ("B", "C", 1); ("A", "C", 4)]%string.

(** The tables of node A once it has learnt to reach C through B. *)
Definition tri_dist : dist_t :=
  {[ "A"%string := {[ "A"%string := 0; "B"%string := 1; "C"%string := 2 ]} ]}.

Definition tri_next : next_t :=
  {[ "A"%string := {[ "A"%string := Some "A"%string;
                      "B"%string := Some "B"%string;
                      "C"%string := Some "B"%string ]} ]}.

(** The two facts about [format_08b] that the round trip needs, as a test
    that is run on all 256 byte values. *)
Definition byte_ok (n : N) : bool :=
  Nat.eqb (length (format_08b n)) 8
  && match int_base2 (format_08b n) with
     | Ret m => N.eqb m n
     | _ => false
     end.

(** The slices [b[0:8], b[8:16], ...] that [from_bits] decodes. *)
Definition chunks (b : pystr) : list pystr :=
  map (fun i => slice b i (i + 8)) (range_step (length b) 8).

(** A round state with what was printed left out. *)
Definition silent (st : round_state) : round_state :=
  RoundState (st_dist st) (st_next st) (st_updated st) [].

(** Case analysis on membership in a list given in full. *)
Ltac in_list H :=
  repeat (apply elem_of_cons in H as [H|H]);
  [.. | by apply elem_of_nil in H].

(** ** Bit_stuffing.py: character (byte) stuffing *)

(** [FLAG = 0x7E], [ESC = 0x7D], [ESC_MASK = 0x20] *)
Definition FLAG : N := 126.
Definition ESC : N := 125.
Definition ESC_MASK : N := 32.

(** A [bytes] value, as the list of its bytes; each is below 256. *)
Abbreviation pybytes := (list N).

(** One turn of the loop of [char_stuff] on the bytearray [out]. *)
Definition char_stuff_step (out : pybytes) (b : N) : pybytes :=
  if N.eqb b FLAG || N.eqb b ESC
  then (out ++ [ESC]) ++ [N.lxor b ESC_MASK]
  else out ++ [b].

Definition char_stuff (data_bytes : pybytes) : pybytes :=
  fold_left char_stuff_step data_bytes [FLAG] ++ [FLAG].

(** The [while i < len(inner)] loop of [char_unstuff]; the state is
    [(i, out)] and [fuel] bounds the number of turns. *)
Fixpoint char_unstuff_loop (fuel : nat) (inner : pybytes) (i : nat)
    (out : pybytes) : outcome pybytes :=
  match fuel with
  | O => Timeout
  | S fuel' =>
    match inner !! i with
    | None => Ret out
    | Some b =>
      if N.eqb b ESC then
        match inner !! (i + 1)%nat with
        | None => Raise (ValueError "Malformed frame: ESC at end")
        | Some e =>
          char_unstuff_loop fuel' inner (i + 2) (out ++ [N.lxor e ESC_MASK])
        end
      else char_unstuff_loop fuel' inner (i + 1) (out ++ [b])
    end
  end.

Definition char_unstuff_fuel (fuel : nat) (frame : pybytes) : outcome pybytes :=
  if (length frame <? 2)%nat
     || negb (bool_decide (frame !! 0%nat = Some FLAG))
     || negb (bool_decide (last frame = Some FLAG))
  then Raise (ValueError "Frame missing start/end FLAG byte")
  else char_unstuff_loop fuel (slice frame 1 (length frame - 1)) 0 [].

(** The index grows at each turn, so [len(frame)] turns are enough (see
    [char_unstuff_loop_rec] below). *)
Definition char_unstuff (frame : pybytes) : outcome pybytes :=
  char_unstuff_fuel (S (length frame)) frame.

(** What [char_stuff] sends for one byte. *)
Definition stuffed_byte (b : N) : pybytes :=
  if N.eqb b FLAG || N.eqb b ESC then [ESC; N.lxor b ESC_MASK] else [b].

(** What the loop of [char_unstuff] makes of the rest [inner[i:]]. *)
Fixpoint char_unstuff_rec (rest : pybytes) : outcome pybytes :=
  match rest with
  | [] => Ret []
  | b :: rest' =>
    if N.eqb b ESC then
      match rest' with
      | [] => Raise (ValueError "Malformed frame: ESC at end")
      | e :: rest'' =>
        let* out := char_unstuff_rec rest'' in Ret (N.lxor e ESC_MASK :: out)
      end
    else let* out := char_unstuff_rec rest' in Ret (b :: out)
  end.

(** ** Bit_stuffing.py: display of a bit string *)

(** [sep.join(parts)] *)
Definition py_join (sep : pystr) (parts : list pystr) : pystr :=
  match parts with
  | [] => []
  | p :: ps => p ++ flat_map (fun q => sep ++ q) ps
  end.

(** [bits_pretty(bits)]: [' '.join(bits[i:i+8] for i in range(0, len(bits), 8))] *)
Definition bits_pretty (bits : pystr) : pystr :=
  py_join [32%N]
    (map (fun i => slice bits i (i + 8)) (range_step (length bits) 8)).

(** No run of six ['1'] in [l], when [run] of them come right before [l]. *)
Fixpoint no_six_ones (l : pystr) (run : nat) : bool :=
  match l with
  | [] => true
  | b :: rest =>
    if N.eqb b chr1 then (run + 1 <? 6)%nat && no_six_ones rest (run + 1)
    else no_six_ones rest 0
  end.

(** ** DVA.py: further notions for the tables *)

(** The cost the stores [l] leave for key [k] in a row that held [acc]. *)
Fixpoint last_cost (k : node) (l : list (node * Z)) (acc : option Z)
  : option Z :=
  match l with
  | [] => acc
  | (v, c) :: l' => last_cost k l' (if decide (v = k) then Some c else acc)
  end.

(** ** Routes and links *)

(** The next hop of an entry is the node itself, for its own entry, or one
    of its neighbors. *)
Definition hops_ok (nb : neighbors_t) (st : round_state) : Prop :=
  forall u d v,
    lookup2 (st_next st) u d = Some (Some v) ->
    (v = u /\ d = u) \/ exists row c, nb !! u = Some row /\ (v, c) ∈ row.

(** An entry without next hop has cost [INF]. *)
Definition no_hop_inf (st : round_state) : Prop :=
  forall u d,
    lookup2 (st_next st) u d = Some None -> lookup2 (st_dist st) u d = Some INF.

(** [walk edges u d w]: some sequence of links, each taken in either
    direction, leads from [u] to [d] at total cost [w]. *)
Inductive walk (edges : list (node * node * Z)) : node -> node -> Z -> Prop :=
| walk_here (u : node) : walk edges u u 0
| walk_link (u v d : node) (c w : Z) :
    (u, v, c) ∈ edges \/ (v, u, c) ∈ edges ->
    walk edges v d w ->
    walk edges u d (c + w).

(** Every cost below [INF] of a table is the cost of a walk. *)
Definition sound (edges : list (node * node * Z)) (dist : dist_t) : Prop :=
  forall u d c, lookup2 dist u d = Some c -> c < INF -> walk edges u d c.

(** The cost of a route is at least the cost of the link to its next hop
    plus the cost the next hop holds. *)
Definition linked (nb : neighbors_t) (st : round_state) : Prop :=
  forall u d v,
    lookup2 (st_next st) u d = Some (Some v) -> u <> d ->
    exists row c cu cv,
      nb !! u = Some row /\ (v, c) ∈ row
      /\ lookup2 (st_dist st) u d = Some cu
      /\ lookup2 (st_dist st) v d = Some cv
      /\ c + cv <= cu.

(** An offer made over a link to another node, at the cost of the link plus
    the cost the neighbor held in the snapshot. *)
Definition hop_offer (nb : neighbors_t) (old_dist : dist_t) (o : offer)
  : Prop :=
  exists row c a,
    nb !! o_u o = Some row /\ (o_v o, c) ∈ row /\ o_u o <> o_v o
    /\ lookup2 old_dist (o_v o) (o_dest o) = Some a
    /\ o_via o = c + a.

(** * Bit stuffing: the receiver undoes the sender *)

Section BitStuffing.

(** Every byte value is among the first 256 naturals. *)
Lemma byte_in_range (n : N) :
  (n < 256)%N -> In n (map N.of_nat (seq 0 256)).
Proof.
  intros Hn. apply in_map_iff. exists (N.to_nat n). split.
  - apply N2Nat.id.
  - apply in_seq. lia.
Qed.

Lemma all_bytes_ok : forallb byte_ok (map N.of_nat (seq 0 256)) = true.
Proof. vm_compute. reflexivity. Qed.

Lemma format_08b_length (n : N) : (n < 256)%N -> length (format_08b n) = 8%nat.
Proof.
  intros Hn. pose proof all_bytes_ok as Hall.
  rewrite forallb_forall in Hall. specialize (Hall n (byte_in_range n Hn)).
  unfold byte_ok in Hall. apply andb_prop in Hall as [Hlen _].
  by apply Nat.eqb_eq.
Qed.

Lemma int_base2_format_08b (n : N) :
  (n < 256)%N -> int_base2 (format_08b n) = Ret n.
Proof.
  intros Hn. pose proof all_bytes_ok as Hall.
  rewrite forallb_forall in Hall. specialize (Hall n (byte_in_range n Hn)).
  unfold byte_ok in Hall. apply andb_prop in Hall as [_ Hint].
  destruct (int_base2 (format_08b n)) as [m| |]; try discriminate.
  apply N.eqb_eq in Hint. by subst.
Qed.

Lemma chr_byte (n : N) : (n < 256)%N -> chr n = Ret n.
Proof.
  intros Hn. unfold chr.
  destruct (N.leb_spec n 1114111) as [_|Hgt]; [done | lia].
Qed.

Lemma to_bits_cons (c : N) (s : pystr) :
  to_bits (c :: s) = format_08b c ++ to_bits s.
Proof. reflexivity. Qed.

Lemma to_bits_length (s : pystr) :
  Forall (fun c => (c < 256)%N) s -> length (to_bits s) = (8 * length s)%nat.
Proof.
  induction 1 as [|c s Hc _ IH]; [done|].
  rewrite to_bits_cons, length_app, format_08b_length, IH by done. simpl. lia.
Qed.

Lemma range_step_8 (n : nat) :
  range_step (8 + n) 8 = 0%nat :: map (fun i => (8 + i)%nat) (range_step n 8).
Proof.
  unfold range_step.
  replace ((8 + n + 8 - 1) / 8)%nat with (S ((n + 8 - 1) / 8)).
  - cbn [seq map]. f_equal. rewrite <- seq_shift, !map_map.
    apply map_ext. intros k. lia.
  - replace (8 + n + 8 - 1)%nat with (1 * 8 + (n + 8 - 1))%nat by lia.
    rewrite Nat.div_add_l by lia. lia.
Qed.

Lemma chunks_app (x rest : pystr) :
  length x = 8%nat -> chunks (x ++ rest) = x :: chunks rest.
Proof.
  intros Hx. unfold chunks. rewrite length_app, Hx, range_step_8.
  cbn [map]. f_equal.
  - unfold slice. rewrite drop_0. replace (0 + 8 - 0)%nat with (length x) by lia.
    by rewrite take_app_length.
  - rewrite map_map. apply map_ext. intros i. unfold slice.
    replace (8 + i)%nat with (length x + i)%nat by lia.
    rewrite drop_app_add. f_equal. lia.
Qed.

Lemma decode_chunks_to_bits (s : pystr) :
  Forall (fun c => (c < 256)%N) s -> decode_chars (chunks (to_bits s)) = Ret s.
Proof.
  induction 1 as [|c s Hc _ IH]; [done|].
  rewrite to_bits_cons, chunks_app by (by apply format_08b_length).
  cbn [decode_chars].
  rewrite int_base2_format_08b by done. cbn [bind].
  rewrite chr_byte by done. cbn [bind].
  by rewrite IH.
Qed.

Lemma from_bits_to_bits (s : pystr) :
  Forall (fun c => (c < 256)%N) s -> from_bits (to_bits s) = Ret s.
Proof.
  intros Hs. unfold from_bits. rewrite to_bits_length by done.
  replace (8 * length s)%nat with (length s * 8)%nat by lia.
  rewrite Nat.Div0.mod_mul. cbn [Nat.eqb negb].
  replace (length s * 8)%nat with (length (to_bits s))
    by (rewrite to_bits_length by done; lia).
  by apply decode_chunks_to_bits.
Qed.

(** The sender's loop, turn by turn, appends [stuff_rec]. *)
Lemma stuff_loop_rec (bits acc : pystr) (count_ones : nat) :
  fst (fold_left (fun st bit => stuff_step bit st) bits (acc, count_ones))
  = acc ++ stuff_rec bits count_ones.
Proof.
  revert acc count_ones.
  induction bits as [|bit rest IH]; intros acc count_ones.
  - cbn. by rewrite app_nil_r.
  - cbn [fold_left stuff_rec]. unfold stuff_step at 2.
    destruct (N.eqb bit chr1).
    + destruct (Nat.eqb (count_ones + 1) 5).
      * rewrite IH, <- !app_assoc. reflexivity.
      * rewrite IH, <- !app_assoc. reflexivity.
    + rewrite IH, <- !app_assoc. reflexivity.
Qed.

Lemma bit_stuff_frame (s : pystr) :
  bit_stuff s = FLAG_BITS ++ stuff_rec (to_bits s) 0 ++ FLAG_BITS.
Proof.
  unfold bit_stuff.
  pose proof (stuff_loop_rec (to_bits s) [] 0) as H.
  destruct (fold_left _ _ _) as [stuffed_bits c]. cbn in H. by subst.
Qed.

(** The receiver's loop, given enough turns, appends [unstuff_rec]. *)
Lemma unstuff_loop_rec (fuel : nat) (inner : pystr) (i count_ones : nat)
    (out_bits : pystr) :
  (length inner - i < fuel)%nat ->
  unstuff_loop fuel inner i count_ones out_bits
  = Ret (out_bits ++ unstuff_rec (drop i inner) count_ones).
Proof.
  revert i count_ones out_bits.
  induction fuel as [|fuel IH]; intros i count_ones out_bits Hfuel.
  - lia.
  - cbn [unstuff_loop].
    destruct (inner !! i) as [b|] eqn:Hb.
    + pose proof (lookup_lt_Some _ _ _ Hb) as Hi.
      rewrite (drop_S _ _ _ Hb). cbn [unstuff_rec].
      destruct (N.eqb b chr1).
      * destruct (Nat.eqb (count_ones + 1) 5).
        -- rewrite IH by lia. rewrite <- app_assoc. cbn. do 3 f_equal.
           destruct (inner !! (i + 1)%nat) as [b'|] eqn:Hb'.
           ++ replace (S i) with (i + 1)%nat by lia.
              rewrite (drop_S _ _ _ Hb'). do 2 f_equal. lia.
           ++ apply lookup_ge_None in Hb'.
              rewrite !drop_ge by lia. reflexivity.
        -- rewrite IH by lia. rewrite <- app_assoc. cbn.
           replace (i + 1)%nat with (S i) by lia. reflexivity.
      * rewrite IH by lia. rewrite <- app_assoc. cbn.
        replace (i + 1)%nat with (S i) by lia. reflexivity.
    + apply lookup_ge_None in Hb. rewrite drop_ge by lia.
      cbn. by rewrite app_nil_r.
Qed.

(** The loop of the receiver never runs out of turns in [bit_unstuff]. *)
Lemma unstuff_loop_fuel (inner : pystr) (fuel : nat) :
  (length inner < fuel)%nat ->
  unstuff_loop fuel inner 0 0 [] = Ret (unstuff_rec inner 0).
Proof.
  intros H. rewrite unstuff_loop_rec by lia. by rewrite drop_0.
Qed.

(** Skipping the bit after five ones removes exactly the stuffed zeros. *)
Lemma unstuff_stuff_rec (bits : pystr) (count_ones : nat) :
  unstuff_rec (stuff_rec bits count_ones) count_ones = bits.
Proof.
  revert count_ones. induction bits as [|bit rest IH]; intros count_ones; [done|].
  cbn [stuff_rec].
  destruct (N.eqb bit chr1) eqn:Hbit.
  - destruct (Nat.eqb (count_ones + 1) 5) eqn:Hc.
    + cbn [unstuff_rec]. rewrite Hbit, Hc. by rewrite IH.
    + cbn [unstuff_rec]. rewrite Hbit, Hc. by rewrite IH.
  - cbn [unstuff_rec]. rewrite Hbit. by rewrite IH.
Qed.

Lemma startswith_frame (x : pystr) :
  startswith (FLAG_BITS ++ x) FLAG_BITS = true.
Proof.
  unfold startswith. apply bool_decide_eq_true. by rewrite take_app_length.
Qed.

Lemma endswith_frame (x : pystr) :
  endswith (x ++ FLAG_BITS) FLAG_BITS = true.
Proof.
  unfold endswith. apply andb_true_intro. split; apply bool_decide_eq_true.
  - rewrite length_app. lia.
  - rewrite length_app.
    replace (length x + length FLAG_BITS - length FLAG_BITS)%nat
      with (length x) by lia.
    by rewrite drop_app_length.
Qed.

Lemma slice_frame (x : pystr) :
  slice (FLAG_BITS ++ x ++ FLAG_BITS) (length FLAG_BITS)
    (length (FLAG_BITS ++ x ++ FLAG_BITS) - length FLAG_BITS) = x.
Proof.
  unfold slice. rewrite drop_app_length, !length_app.
  replace (length FLAG_BITS + (length x + length FLAG_BITS)
           - length FLAG_BITS - length FLAG_BITS)%nat with (length x) by lia.
  by rewrite take_app_length.
Qed.

(** C10.  For every string whose characters all have code points below 256,
    un-stuffing the stuffed frame gives the original message back:
    [bit_unstuff(bit_stuff(s)) = s] (the call returns, and returns [s]). *)
Theorem bit_unstuff_bit_stuff (s : pystr) :
  Forall (fun c => (c < 256)%N) s ->
  bit_unstuff (bit_stuff s) = Ret s.
Proof.
  intros Hs. unfold bit_unstuff, bit_unstuff_fuel.
  rewrite bit_stuff_frame.
  rewrite startswith_frame.
  rewrite (app_assoc FLAG_BITS), endswith_frame, <- app_assoc.
  cbn [andb negb].
  rewrite slice_frame.
  rewrite unstuff_loop_fuel.
  - cbn [bind]. rewrite unstuff_stuff_rec. by apply from_bits_to_bits.
  - rewrite !length_app. lia.
Qed.

Lemma bit_unstuff_bit_stuff_witness :
  Forall (fun c => (c < 256)%N) [65; 125; 66; 255; 255]%N
  /\ bit_unstuff (bit_stuff [65; 125; 66; 255; 255]%N) = Ret [65; 125; 66; 255; 255]%N.
Proof.
  assert (H : Forall (fun c => (c < 256)%N) [65; 125; 66; 255; 255]%N).
  { repeat constructor. }
  split; [exact H | exact (bit_unstuff_bit_stuff _ H)].
Defined.

End BitStuffing.

(** * The distance-vector simulator *)

Section Outcomes.

Context {A S : Type}.

(** A loop whose body keeps an invariant and never raises under it returns,
    and the invariant holds at its end. *)
Lemma for_each_total (P : S -> Prop) (xs : list A) (body : A -> S -> outcome S)
    (s : S) :
  (forall x s, x ∈ xs -> P s -> exists s', body x s = Ret s' /\ P s') ->
  P s ->
  exists s', for_each xs body s = Ret s' /\ P s'.
Proof.
  revert s. induction xs as [|x xs IH]; intros s Hbody Hs.
  - by exists s.
  - destruct (Hbody x s) as (s1 & Hx & Hs1); [by left | done |].
    cbn [for_each]. rewrite Hx. cbn [bind].
    apply IH; [|done]. intros y t Hy. apply Hbody. by right.
Qed.

End Outcomes.

Section Tables.

Context {V : Type}.
Implicit Types (m : gmap node (gmap node V)) (row : gmap node V).

Lemma getitem_Ret {W : Type} (r : gmap node W) (k : node) (x : W) :
  getitem r k = Ret x <-> r !! k = Some x.
Proof.
  unfold getitem. destruct (r !! k); split; intros H; congruence.
Qed.

Lemma getitem_Some {W : Type} (r : gmap node W) (k : node) (x : W) :
  r !! k = Some x -> getitem r k = Ret x.
Proof. apply getitem_Ret. Qed.

Lemma getitem2_lookup2 m u k :
  getitem2 m u k
  = match lookup2 m u k with
    | Some x => Ret x
    | None => Raise (KeyError (if m !! u is Some _ then k else u))
    end.
Proof.
  unfold getitem2, getitem, lookup2.
  destruct (m !! u) as [row|]; cbn [bind]; [|done].
  by destruct (row !! k).
Qed.

Lemma getitem2_Ret m u k x :
  getitem2 m u k = Ret x <-> lookup2 m u k = Some x.
Proof.
  rewrite getitem2_lookup2. destruct (lookup2 m u k); split; congruence.
Qed.

Lemma getitem2_Some m u k x :
  lookup2 m u k = Some x -> getitem2 m u k = Ret x.
Proof. apply getitem2_Ret. Qed.

Lemma setitem2_Ret m m' u k x :
  setitem2 m u k x = Ret m' <->
  exists row, m !! u = Some row /\ m' = <[u := <[k := x]> row]> m.
Proof.
  unfold setitem2, getitem. destruct (m !! u) as [row|]; cbn [bind].
  - split.
    + intros [= <-]. by exists row.
    + intros (row' & [= <-] & ->). done.
  - split; [done|]. by intros (row' & ? & _).
Qed.

Lemma lookup2_insert_row m u row u' k' :
  lookup2 (<[u := row]> m) u' k'
  = if decide (u' = u) then row !! k' else lookup2 m u' k'.
Proof.
  unfold lookup2. destruct (decide (u' = u)) as [->|Hne].
  - by rewrite lookup_insert_eq.
  - by rewrite lookup_insert_ne.
Qed.

(** Reading a table after a store. *)
Lemma lookup2_setitem2 m m' u k x u' k' :
  setitem2 m u k x = Ret m' ->
  lookup2 m' u' k'
  = if decide (u' = u /\ k' = k) then Some x else lookup2 m u' k'.
Proof.
  intros (row & Hrow & ->)%setitem2_Ret.
  rewrite lookup2_insert_row.
  destruct (decide (u' = u)) as [->|Hne].
  - destruct (decide (k' = k)) as [->|Hk].
    + rewrite lookup_insert_eq. by rewrite decide_True.
    + rewrite lookup_insert_ne by done. rewrite decide_False by tauto.
      unfold lookup2. by rewrite Hrow.
  - by rewrite decide_False by tauto.
Qed.

(** A store succeeds as soon as the row exists. *)
Lemma setitem2_defined m u k k0 x :
  is_Some (lookup2 m u k0) -> exists m', setitem2 m u k x = Ret m'.
Proof.
  unfold lookup2. intros [y Hy]. destruct (m !! u) as [row|] eqn:Hrow; [|done].
  eexists. apply setitem2_Ret. by exists row.
Qed.

Lemma dict_comp_fold (keys : list node) (f : node -> V) (acc : gmap node V)
    (k : node) :
  fold_left (fun r k => <[k := f k]> r) keys acc !! k
  = if decide (k ∈ keys) then Some (f k) else acc !! k.
Proof.
  revert acc. induction keys as [|k0 keys IH]; intros acc.
  - cbn. rewrite decide_False; [done | by intros ?%elem_of_nil].
  - cbn [fold_left]. rewrite IH.
    destruct (decide (k ∈ keys)) as [Hin|Hnin].
    + rewrite decide_True; [done | by right].
    + destruct (decide (k = k0)) as [->|Hne].
      * rewrite lookup_insert_eq. rewrite decide_True; [done | by left].
      * rewrite lookup_insert_ne by done.
        rewrite decide_False; [done|]. by intros [?|?]%elem_of_cons.
Qed.

(** [{k: f(k) for k in keys}] holds [f(k)] at the keys and nothing else. *)
Lemma lookup_dict_comp (keys : list node) (f : node -> V) (k : node) :
  dict_comp keys f !! k = if decide (k ∈ keys) then Some (f k) else None.
Proof. unfold dict_comp. by rewrite dict_comp_fold, lookup_empty. Qed.

End Tables.

Lemma lookup2_dict_comp {V : Type} (keys : list node) (f : node -> node -> V)
    (u k : node) :
  lookup2 (dict_comp keys (fun u => dict_comp keys (f u))) u k
  = if decide (u ∈ keys /\ k ∈ keys) then Some (f u k) else None.
Proof.
  unfold lookup2. rewrite lookup_dict_comp.
  destruct (decide (u ∈ keys)) as [Hu|Hu].
  - rewrite lookup_dict_comp. destruct (decide (k ∈ keys)).
    + by rewrite decide_True.
    + by rewrite decide_False by tauto.
  - by rewrite decide_False by tauto.
Qed.

(** ** [send_vector] *)

Lemma fold_insert_list_to_map (l : list (node * Z)) (acc : gmap node Z) :
  NoDup l.*1 ->
  fold_left (fun vec '(dest, cost) => <[dest := cost]> vec) l acc
  = list_to_map l ∪ acc.
Proof.
  revert acc. induction l as [|[k x] l IH]; intros acc Hnd.
  - cbn. by rewrite (left_id_L ∅ (∪)).
  - cbn [fold_left]. rewrite fmap_cons in Hnd.
    apply NoDup_cons in Hnd as [Hk Hnd]. cbn in Hk.
    rewrite IH by done. rewrite list_to_map_cons.
    rewrite <- insert_union_l. symmetry.
    apply insert_union_r. by apply not_elem_of_list_to_map_1.
Qed.

(** C9.  [send_vector] returns a vector equal to the sender's distance map
    for both values of [use_poisoned_reverse]: the flag has no effect, and
    no advertised cost is replaced (by the infinity sentinel or otherwise). *)
Theorem send_vector_identity (from_node to_node : node) (dist_from : gmap node Z)
    (use_poisoned_reverse : bool) :
  send_vector from_node to_node dist_from use_poisoned_reverse = dist_from
  /\ send_vector from_node to_node dist_from true
     = send_vector from_node to_node dist_from false
  /\ forall dest,
       send_vector from_node to_node dist_from use_poisoned_reverse !! dest
       = dist_from !! dest.
Proof.
  assert (Hid : forall b, send_vector from_node to_node dist_from b = dist_from).
  { intros b. unfold send_vector.
    transitivity (fold_left (fun vec '(dest, cost) => <[dest := cost]> vec)
                    (map_to_list dist_from) (∅ : gmap node Z)).
    - destruct b; reflexivity.
    - rewrite fold_insert_list_to_map by apply NoDup_fst_map_to_list.
      rewrite (right_id_L ∅ (∪)). apply list_to_map_to_list. }
  split; [apply Hid|]. split.
  - by rewrite !Hid.
  - intros dest. by rewrite Hid.
Qed.

(** ** The advertised vector *)

Lemma advertise_cost (pr : bool) (old_dist : dist_t) (old_next : next_t)
    (u v dest : node) :
  is_Some (lookup2 old_dist v dest) ->
  is_Some (lookup2 old_next v dest) ->
  advertise pr old_dist old_next u v dest
  = Ret (advertised_cost pr old_dist old_next u v dest).
Proof.
  intros [c Hc] [nh Hnh]. unfold advertise, advertised_cost.
  rewrite (getitem2_Some _ _ _ _ Hc), Hc. cbn [bind from_option id].
  destruct pr; [|done].
  rewrite (getitem2_Some _ _ _ _ Hnh), Hnh. cbn [bind from_option id].
  by destruct (decide (nh = Some u)).
Qed.

Lemma build_advertised_loop (nodes : list node) (pr : bool) (old_dist : dist_t)
    (old_next : next_t) (u v : node) (acc : gmap node Z) :
  (forall d, d ∈ nodes ->
     is_Some (lookup2 old_dist v d) /\ is_Some (lookup2 old_next v d)) ->
  for_each nodes (fun dest advertised =>
    let* adv_cost := advertise pr old_dist old_next u v dest in
    Ret (<[dest := adv_cost]> advertised)) acc
  = Ret (fold_left
           (fun r k => <[k := advertised_cost pr old_dist old_next u v k]> r)
           nodes acc).
Proof.
  revert acc. induction nodes as [|d nodes IH]; intros acc Hdef; [done|].
  cbn [for_each fold_left].
  destruct (Hdef d) as [Hd Hn]; [by left|].
  rewrite advertise_cost by done. cbn [bind].
  apply IH. intros d' Hd'. apply Hdef. by right.
Qed.

Lemma build_advertised_fold (nodes : list node) (pr : bool) (old_dist : dist_t)
    (old_next : next_t) (u v : node) :
  (forall d, d ∈ nodes ->
     is_Some (lookup2 old_dist v d) /\ is_Some (lookup2 old_next v d)) ->
  build_advertised nodes pr old_dist old_next u v
  = Ret (dict_comp nodes (advertised_cost pr old_dist old_next u v)).
Proof. intros Hdef. by apply build_advertised_loop. Qed.


(** ** The candidate cost *)

(** C8, as stated, fails: with link cost 1 and an advertised cost equal to
    the infinity sentinel, the candidate is [INF + 1], not [INF]. *)
Lemma candidate_not_saturating :
  candidate 1 INF = 1000000001 /\ candidate 1 INF <> INF.
Proof. split; [reflexivity | discriminate]. Qed.

(** C8, amended.  When the advertised cost is the infinity sentinel the
    candidate is exactly the link cost plus [INF] (integers are unbounded:
    nothing wraps around, nothing saturates); for a non-negative link cost
    it is at least [INF], and the update rule never adopts it over a current
    cost that is at most [INF]. *)
Theorem candidate_infinity (verbose : bool) (old_dist : dist_t) (u v : node)
    (cost_uv : Z) (advertised : gmap node Z) (dest : node) (st : round_state)
    (cur : Z) :
  0 <= cost_uv ->
  advertised !! dest = Some INF ->
  is_Some (lookup2 old_dist u v) ->
  lookup2 (st_dist st) u dest = Some cur ->
  cur <= INF ->
  candidate cost_uv INF = cost_uv + INF
  /\ INF <= candidate cost_uv INF
  /\ relax_dest verbose old_dist u v cost_uv advertised dest st = Ret st.
Proof.
  intros Hc Hadv [d_uv Hduv] Hcur Hle.
  split; [reflexivity|]. split; [unfold candidate; lia|].
  unfold relax_dest. rewrite (getitem2_Some _ _ _ _ Hduv). cbn [bind].
  destruct (INF <=? d_uv); [done|].
  rewrite (getitem_Some _ _ _ Hadv). cbn [bind].
  rewrite (getitem2_Some _ _ _ _ Hcur). cbn [bind].
  destruct (Z.ltb_spec (candidate cost_uv INF) cur) as [Hlt|_]; [|done].
  unfold candidate in Hlt. lia.
Qed.

(** ** Construction of the tables *)

Lemma wf_table_setitem2 {V : Type} (nodes : list node)
    (m : gmap node (gmap node V)) (u k : node) (x : V) :
  wf_table nodes m -> u ∈ nodes ->
  exists m', setitem2 m u k x = Ret m' /\ wf_table nodes m'.
Proof.
  intros Hwf Hu.
  destruct (setitem2_defined m u k u x (Hwf u u Hu Hu)) as [m' Hm'].
  exists m'. split; [done|]. intros u' d' Hu' Hd'.
  rewrite (lookup2_setitem2 _ _ _ _ _ _ _ Hm').
  destruct (decide (u' = u /\ d' = k)); [by eexists | by apply Hwf].
Qed.

Lemma wf_table_dict_comp {V : Type} (nodes : list node) (f : node -> node -> V) :
  wf_table nodes (dict_comp nodes (fun u => dict_comp nodes (f u))).
Proof.
  intros u d Hu Hd. rewrite lookup2_dict_comp, decide_True by done. by eexists.
Qed.

Lemma elem_of_dict_set {V : Type} (k : node) (x : V) (d : list (node * V))
    (k' : node) (x' : V) :
  (k', x') ∈ dict_set k x d -> (k', x') = (k, x) \/ (k', x') ∈ d.
Proof.
  induction d as [|[k0 x0] d IH]; cbn [dict_set].
  - intros ->%list_elem_of_singleton. by left.
  - destruct (decide (k0 = k)) as [->|Hne].
    + intros [->|Hin]%elem_of_cons; [by left | right; by right].
    + intros [->|Hin]%elem_of_cons; [right; by left|].
      destruct (IH Hin) as [->|?]; [by left | right; by right].
Qed.

Lemma neighbors_inv_wf (nodes : list node) (neighbors : neighbors_t) :
  neighbors_inv nodes neighbors -> wf_neighbors nodes neighbors.
Proof.
  intros [Hdom Hrows] u Hu. apply Hdom in Hu as [row Hrow].
  exists row. split; [done|]. intros v c. by apply (Hrows u row).
Qed.

Lemma neighbors_inv_init (nodes : list node) :
  neighbors_inv nodes (dict_comp nodes (fun _ => [])).
Proof.
  split.
  - intros u. rewrite lookup_dict_comp. destruct (decide (u ∈ nodes)).
    + split; [done | by eexists].
    + split; [by intros [? ?] | done].
  - intros u row v c. rewrite lookup_dict_comp.
    destruct (decide (u ∈ nodes)); [|done].
    intros [= <-]. by intros ?%elem_of_nil.
Qed.

Lemma set_neighbor_known (nodes : list node) (neighbors : neighbors_t)
    (u v : node) (c : Z) :
  neighbors_inv nodes neighbors -> u ∈ nodes -> v ∈ nodes ->
  exists neighbors',
    set_neighbor u v c neighbors = Ret neighbors'
    /\ neighbors_inv nodes neighbors'.
Proof.
  intros [Hdom Hrows] Hu Hv. destruct (proj2 (Hdom u) Hu) as [row Hrow].
  unfold set_neighbor. rewrite (getitem_Some _ _ _ Hrow). cbn [bind].
  eexists. split; [done|]. split.
  - intros u'. destruct (decide (u' = u)) as [->|Hne].
    + rewrite lookup_insert_eq. split; [done | by eexists].
    + rewrite lookup_insert_ne by done. apply Hdom.
  - intros u' row' v' c'. destruct (decide (u' = u)) as [->|Hne].
    + rewrite lookup_insert_eq. intros [= <-] Hin.
      apply elem_of_dict_set in Hin as [[= -> ->]|Hin]; [done|].
      by eapply Hrows.
    + rewrite lookup_insert_ne by done. apply Hrows.
Qed.

Lemma set_neighbor_unknown (nodes : list node) (neighbors : neighbors_t)
    (u v : node) (c : Z) :
  (forall u, is_Some (neighbors !! u) <-> u ∈ nodes) -> u ∉ nodes ->
  set_neighbor u v c neighbors = Raise (KeyError u).
Proof.
  intros Hdom Hu. unfold set_neighbor, getitem.
  destruct (neighbors !! u) as [row|] eqn:Hrow; [|done].
  exfalso. apply Hu, Hdom. by eexists.
Qed.

Lemma init_neighbors_loop (nodes : list node) (edges : list (node * node * Z))
    (neighbors : neighbors_t) :
  neighbors_inv nodes neighbors ->
  match first_unknown nodes edges with
  | Some k =>
    for_each edges (fun '(u, v, c) neighbors =>
      let* neighbors := set_neighbor u v c neighbors in
      set_neighbor v u c neighbors) neighbors = Raise (KeyError k)
  | None =>
    exists neighbors',
      for_each edges (fun '(u, v, c) neighbors =>
        let* neighbors := set_neighbor u v c neighbors in
        set_neighbor v u c neighbors) neighbors = Ret neighbors'
      /\ neighbors_inv nodes neighbors'
  end.
Proof.
  revert neighbors. induction edges as [|[[u v] c] edges IH]; intros nb Hinv.
  - cbn. by exists nb.
  - cbn [first_unknown for_each].
    destruct (decide (u ∈ nodes)) as [Hu|Hu].
    + destruct (decide (v ∈ nodes)) as [Hv|Hv].
      * destruct (set_neighbor_known nodes nb u v c Hinv Hu Hv)
          as (nb1 & -> & Hinv1). cbn [bind].
        destruct (set_neighbor_known nodes nb1 v u c Hinv1 Hv Hu)
          as (nb2 & -> & Hinv2). cbn [bind].
        apply IH, Hinv2.
      * destruct (proj2 (proj1 Hinv u) Hu) as [row Hrow].
        assert (set_neighbor u v c nb = Ret (<[u := dict_set v c row]> nb)) as ->.
        { unfold set_neighbor. by rewrite (getitem_Some _ _ _ Hrow). }
        cbn [bind].
        rewrite (set_neighbor_unknown nodes _ v u c); [done| |done].
        destruct Hinv as [Hdom _].
        intros u'. destruct (decide (u' = u)) as [->|Hne].
        -- rewrite lookup_insert_eq. split; [done | by eexists].
        -- rewrite lookup_insert_ne by done. apply Hdom.
    + rewrite (set_neighbor_unknown nodes _ u v c); [done| |done]. apply Hinv.
Qed.

Lemma init_node_wf (nodes : list node) (neighbors : neighbors_t) (u : node)
    (dist : dist_t) (next_hop : next_t) :
  wf_neighbors nodes neighbors -> u ∈ nodes ->
  wf_table nodes dist -> wf_table nodes next_hop ->
  exists dist' next_hop',
    init_node neighbors u (dist, next_hop) = Ret (dist', next_hop')
    /\ wf_table nodes dist' /\ wf_table nodes next_hop'.
Proof.
  intros Hnb Hu Hd Hn. unfold init_node.
  destruct (wf_table_setitem2 nodes dist u u 0 Hd Hu) as (d1 & -> & Hd1).
  cbn [bind].
  destruct (wf_table_setitem2 nodes next_hop u u (Some u) Hn Hu)
    as (n1 & -> & Hn1).
  cbn [bind].
  destruct (Hnb u Hu) as (row & Hrow & _).
  rewrite (getitem_Some _ _ _ Hrow). cbn [bind].
  destruct (for_each_total
              (fun st : dist_t * next_t =>
                 wf_table nodes st.1 /\ wf_table nodes st.2)
              row
              (fun '(v, c) '(dist, next_hop) =>
                 let* dist := setitem2 dist u v c in
                 let* next_hop := setitem2 next_hop u v (Some v) in
                 Ret (dist, next_hop)) (d1, n1)) as ([d2 n2] & Hrun & Hd2 & Hn2).
  - intros [v c] [d n] _ [Hwd Hwn]. cbn [fst snd] in *.
    destruct (wf_table_setitem2 nodes d u v c Hwd Hu) as (d' & -> & Hd').
    cbn [bind].
    destruct (wf_table_setitem2 nodes n u v (Some v) Hwn Hu) as (n' & -> & Hn').
    cbn [bind]. by exists (d', n').
  - done.
  - by exists d2, n2.
Qed.

(** [init_tables] raises exactly when a link names an unknown node, and
    otherwise returns tables with an entry for every pair of nodes. *)
Lemma init_tables_outcome (nodes : list node) (edges : list (node * node * Z)) :
  match first_unknown nodes edges with
  | Some k => init_tables nodes edges = Raise (KeyError k)
  | None =>
    exists neighbors dist next_hop,
      init_tables nodes edges = Ret (neighbors, dist, next_hop)
      /\ wf_neighbors nodes neighbors
      /\ wf_table nodes dist /\ wf_table nodes next_hop
  end.
Proof.
  pose proof (init_neighbors_loop nodes edges _ (neighbors_inv_init nodes)) as H.
  unfold init_tables, init_neighbors.
  destruct (first_unknown nodes edges) as [k|].
  - by rewrite H.
  - destruct H as (nb & -> & Hnb%neighbors_inv_wf). cbn [bind].
    destruct (for_each_total
                (fun st : dist_t * next_t =>
                   wf_table nodes st.1 /\ wf_table nodes st.2)
                nodes (init_node nb)
                (dict_comp nodes (fun _ => dict_comp nodes (fun _ => INF)),
                 dict_comp nodes (fun _ => dict_comp nodes (fun _ => None))))
      as ([d n] & -> & Hd & Hn).
    + intros u [d n] Hu [Hd Hn]. cbn [fst snd] in *.
      destruct (init_node_wf nodes nb u d n) as (d' & n' & ? & ? & ?);
        [done..|].
      by exists (d', n').
    + split; apply wf_table_dict_comp.
    + cbn [bind]. by exists nb, d, n.
Qed.

Lemma first_unknown_None (nodes : list node) (edges : list (node * node * Z)) :
  first_unknown nodes edges = None <->
  forall u v c, (u, v, c) ∈ edges -> u ∈ nodes /\ v ∈ nodes.
Proof.
  induction edges as [|[[u v] c] edges IH]; cbn [first_unknown].
  - split; [|done]. by intros _ u v c ?%elem_of_nil.
  - destruct (decide (u ∈ nodes)) as [Hu|Hu].
    + destruct (decide (v ∈ nodes)) as [Hv|Hv].
      * rewrite IH. split.
        -- intros H u' v' c' [[= -> -> ->]|Hin]%elem_of_cons; [done|].
           by eapply H.
        -- intros H u' v' c' Hin. eapply H. by right.
      * split; [done|]. intros H. destruct (H u v c); [by left | done].
    + split; [done|]. intros H. destruct (H u v c); [by left | done].
Qed.


(** ** A round, as the list of its offers *)

Section Folding.

Context {A B S : Type}.

(** A loop whose body, under an invariant, is a fold over a list of steps
    is itself a fold over all the steps. *)
Lemma for_each_fold_flat (P : S -> Prop) (xs : list A)
    (body : A -> S -> outcome S) (g : A -> list B) (f : S -> B -> S) (s : S) :
  (forall x s, x ∈ xs -> P s ->
     body x s = Ret (fold_left f (g x) s) /\ P (fold_left f (g x) s)) ->
  P s ->
  for_each xs body s = Ret (fold_left f (flat_map g xs) s)
  /\ P (fold_left f (flat_map g xs) s).
Proof.
  revert s. induction xs as [|x xs IH]; intros s Hbody Hs; [done|].
  cbn [for_each flat_map]. rewrite fold_left_app.
  destruct (Hbody x s) as [-> Hs1]; [by left | done |]. cbn [bind].
  apply IH; [|done]. intros y t Hy. apply Hbody. by right.
Qed.

End Folding.

Lemma setitem2_store2 {V : Type} (m : gmap node (gmap node V)) (u k k0 : node)
    (x : V) :
  is_Some (lookup2 m u k0) -> setitem2 m u k x = Ret (store2 m u k x).
Proof.
  unfold lookup2, setitem2, store2, getitem. intros [y Hy].
  by destruct (m !! u).
Qed.

Lemma lookup2_store2 {V : Type} (m : gmap node (gmap node V)) (u k : node)
    (x : V) (u' k' : node) :
  lookup2 (store2 m u k x) u' k'
  = if decide (u' = u /\ k' = k /\ is_Some (m !! u)) then Some x
    else lookup2 m u' k'.
Proof.
  unfold store2. destruct (m !! u) as [row|] eqn:Hrow.
  - rewrite lookup2_insert_row. destruct (decide (u' = u)) as [->|Hne].
    + destruct (decide (k' = k)) as [->|Hk].
      * rewrite lookup_insert_eq. by rewrite decide_True.
      * rewrite lookup_insert_ne by done. rewrite decide_False by tauto.
        unfold lookup2. by rewrite Hrow.
    + by rewrite decide_False by tauto.
  - rewrite decide_False; [done|]. intros (_ & _ & [? ?]). done.
Qed.

Lemma wf_table_store2 {V : Type} (nodes : list node)
    (m : gmap node (gmap node V)) (u k : node) (x : V) :
  wf_table nodes m -> wf_table nodes (store2 m u k x).
Proof.
  intros Hwf u' d' Hu' Hd'. rewrite lookup2_store2.
  destruct (decide _); [by eexists | by apply Hwf].
Qed.

Lemma wf_state_take_offer (nodes : list node) (verbose : bool)
    (st : round_state) (o : offer) :
  wf_state nodes st -> wf_state nodes (take_offer verbose st o).
Proof.
  intros [Hd Hn]. unfold take_offer.
  destruct (lookup2 (st_dist st) (o_u o) (o_dest o)) as [cur|]; [|done].
  destruct (o_via o <? cur); [|done].
  split; cbn; by apply wf_table_store2.
Qed.

Lemma wf_state_fold_offers (nodes : list node) (verbose : bool)
    (os : list offer) (st : round_state) :
  wf_state nodes st -> wf_state nodes (fold_left (take_offer verbose) os st).
Proof.
  revert st. induction os as [|o os IH]; intros st Hst; [done|].
  cbn [fold_left]. by apply IH, wf_state_take_offer.
Qed.

(** One turn of the loop over [dest] takes one offer. *)
Lemma relax_dest_offer (nodes : list node) (verbose : bool) (old_dist : dist_t)
    (u v : node) (cost_uv : Z) (advertised : gmap node Z) (dest : node)
    (st : round_state) (d_uv a : Z) :
  u ∈ nodes -> dest ∈ nodes -> wf_state nodes st ->
  lookup2 old_dist u v = Some d_uv ->
  advertised !! dest = Some a ->
  relax_dest verbose old_dist u v cost_uv advertised dest st
  = Ret (if (INF <=? d_uv) then st
         else take_offer verbose st (Offer u dest v (candidate cost_uv a))).
Proof.
  intros Hu Hdest [Hd Hn] Hduv Ha. unfold relax_dest.
  rewrite (getitem2_Some _ _ _ _ Hduv). cbn [bind].
  destruct (INF <=? d_uv); [done|].
  rewrite (getitem_Some _ _ _ Ha). cbn [bind].
  destruct (Hd u dest Hu Hdest) as [cur Hcur].
  rewrite (getitem2_Some _ _ _ _ Hcur). cbn [bind].
  unfold take_offer. cbn [o_u o_dest o_v o_via]. rewrite Hcur.
  destruct (candidate cost_uv a <? cur); [|done].
  rewrite (setitem2_store2 _ u dest dest) by (by apply Hd). cbn [bind].
  rewrite (setitem2_store2 _ u dest dest) by (by apply Hn). done.
Qed.

(** Hearing from one neighbor takes its offers in turn. *)
Lemma receive_offers (nodes : list node) (pr verbose : bool) (old_dist : dist_t)
    (old_next : next_t) (u : node) (nb : node * Z) (st : round_state) :
  wf_table nodes old_dist -> wf_table nodes old_next ->
  u ∈ nodes -> nb.1 ∈ nodes -> wf_state nodes st ->
  receive nodes pr verbose old_dist old_next u nb st
  = Ret (fold_left (take_offer verbose)
           (offers_from nodes pr old_dist old_next u nb) st).
Proof.
  intros Hod Hon Hu Hv Hst. destruct nb as [v cost_uv]. cbn [fst] in Hv.
  unfold receive, offers_from. cbn [fst snd].
  rewrite build_advertised_fold by (intros d Hd; split; [apply Hod|apply Hon]; done).
  cbn [bind].
  destruct (Hod u v Hu Hv) as [d_uv Hduv]. rewrite Hduv.
  destruct (INF <=? d_uv) eqn:Hskip.
  - cbn [fold_left].
    destruct (for_each_fold_flat (B := offer) (wf_state nodes) nodes
                (relax_dest verbose old_dist u v cost_uv
                   (dict_comp nodes (advertised_cost pr old_dist old_next u v)))
                (fun _ => []) (take_offer verbose) st) as [-> _]; [|done|].
    + intros dest t Hdest Ht. split; [|done].
      erewrite relax_dest_offer; [|done..|].
      * by rewrite Hskip.
      * by rewrite lookup_dict_comp, decide_True.
    + clear. induction nodes as [|? ? IH]; [done|]. by cbn.
  - destruct (for_each_fold_flat (wf_state nodes) nodes
                (relax_dest verbose old_dist u v cost_uv
                   (dict_comp nodes (advertised_cost pr old_dist old_next u v)))
                (fun dest =>
                   [Offer u dest v
                      (candidate cost_uv
                         (advertised_cost pr old_dist old_next u v dest))])
                (take_offer verbose) st) as [-> _]; [|done|].
    + intros dest t Hdest Ht. cbn [fold_left]. split.
      * erewrite relax_dest_offer; [|done..|].
        -- by rewrite Hskip.
        -- by rewrite lookup_dict_comp, decide_True.
      * by apply wf_state_take_offer.
    + assert (Hfm : forall (h : node -> offer) l,
                flat_map (fun x => [h x]) l = map h l).
      { intros h l. induction l as [|? ? IH]; [done|]. cbn. by rewrite IH. }
      by rewrite Hfm.
Qed.

(** A round takes all its offers in turn, and keeps the tables complete. *)
Lemma round_offers (nodes : list node) (neighbors : neighbors_t)
    (pr verbose : bool) (old_dist : dist_t) (old_next : next_t)
    (st : round_state) :
  wf_neighbors nodes neighbors ->
  wf_table nodes old_dist -> wf_table nodes old_next ->
  wf_state nodes st ->
  round nodes neighbors pr verbose old_dist old_next st
  = Ret (fold_left (take_offer verbose)
           (offers nodes neighbors pr old_dist old_next) st).
Proof.
  intros Hnb Hod Hon Hst. unfold round, offers.
  apply (for_each_fold_flat (wf_state nodes)); [|done].
  intros u t Hu Ht. destruct (Hnb u Hu) as (row & Hrow & Hrows).
  rewrite (getitem_Some _ _ _ Hrow), Hrow. cbn [bind from_option id].
  apply (for_each_fold_flat (wf_state nodes)); [|done].
  intros [v c] t' Hv Ht'. split.
  - apply receive_offers; try done. cbn. by eapply Hrows.
  - by apply wf_state_fold_offers.
Qed.

Lemma round_wf (nodes : list node) (neighbors : neighbors_t)
    (pr verbose : bool) (old_dist : dist_t) (old_next : next_t)
    (st : round_state) :
  wf_neighbors nodes neighbors ->
  wf_table nodes old_dist -> wf_table nodes old_next ->
  wf_state nodes st ->
  exists st',
    round nodes neighbors pr verbose old_dist old_next st = Ret st'
    /\ wf_state nodes st'.
Proof.
  intros Hnb Hod Hon Hst. eexists. split; [by apply round_offers|].
  by apply wf_state_fold_offers.
Qed.

Lemma init_tables_wf (nodes : list node) (edges : list (node * node * Z))
    (neighbors : neighbors_t) (dist : dist_t) (next_hop : next_t) :
  init_tables nodes edges = Ret (neighbors, dist, next_hop) ->
  wf_neighbors nodes neighbors /\ wf_table nodes dist /\ wf_table nodes next_hop.
Proof.
  intros Hinit. pose proof (init_tables_outcome nodes edges) as H.
  destruct (first_unknown nodes edges); [congruence|].
  destruct H as (nb & d & n & H & Hwf). rewrite Hinit in H.
  by injection H as -> -> ->.
Qed.

(** ** The update rule *)

Section UpdateRule.

Variable verbose : bool.
Implicit Types (st : round_state) (o : offer) (os : list offer).

(** Taking an offer never raises a cost. *)
Lemma take_offer_cost st o (u d : node) (c : Z) :
  lookup2 (st_dist st) u d = Some c ->
  exists c', lookup2 (st_dist (take_offer verbose st o)) u d = Some c' /\ c' <= c.
Proof.
  intros Hc. unfold take_offer.
  destruct (lookup2 (st_dist st) (o_u o) (o_dest o)) as [cur|] eqn:Hcur;
    [|by exists c].
  destruct (Z.ltb_spec (o_via o) cur) as [Hlt|Hge]; [|by exists c].
  cbn [st_dist]. rewrite lookup2_store2.
  destruct (decide _) as [(-> & -> & _)|_]; [|by exists c].
  exists (o_via o). split; [done|]. rewrite Hcur in Hc. injection Hc as <-. lia.
Qed.

Lemma fold_offers_cost os st (u d : node) (c : Z) :
  lookup2 (st_dist st) u d = Some c ->
  exists c',
    lookup2 (st_dist (fold_left (take_offer verbose) os st)) u d = Some c'
    /\ c' <= c.
Proof.
  revert st c. induction os as [|o os IH]; intros st c Hc; [by exists c|].
  cbn [fold_left].
  destruct (take_offer_cost st o u d c Hc) as (c1 & Hc1 & Hle1).
  destruct (IH _ _ Hc1) as (c2 & Hc2 & Hle2). exists c2. split; [done | lia].
Qed.

(** The flag [updated], once set, stays set. *)
Lemma take_offer_updated st o :
  st_updated st = true -> st_updated (take_offer verbose st o) = true.
Proof.
  intros H. unfold take_offer.
  destruct (lookup2 _ _ _) as [cur|]; [|done]. by destruct (_ <? _).
Qed.

Lemma fold_offers_updated os st :
  st_updated st = true ->
  st_updated (fold_left (take_offer verbose) os st) = true.
Proof.
  revert st. induction os as [|o os IH]; intros st H; [done|].
  cbn [fold_left]. by apply IH, take_offer_updated.
Qed.

(** A round that leaves the flag unset has changed nothing. *)
Lemma fold_offers_unchanged os st :
  st_updated (fold_left (take_offer verbose) os st) = false ->
  fold_left (take_offer verbose) os st = st.
Proof.
  revert st. induction os as [|o os IH]; intros st H; [done|].
  cbn [fold_left] in *.
  assert (Hst : take_offer verbose st o = st).
  { destruct (st_updated (take_offer verbose st o)) eqn:Hup.
    - by rewrite fold_offers_updated in H.
    - unfold take_offer in *.
      destruct (lookup2 _ _ _) as [cur|]; [|done].
      by destruct (_ <? _). }
  rewrite Hst in *. by apply IH.
Qed.

(** A round that sets the flag has strictly lowered some cost. *)
Lemma fold_offers_changed_entry os st :
  st_updated st = false ->
  st_updated (fold_left (take_offer verbose) os st) = true ->
  exists u d c c',
    lookup2 (st_dist st) u d = Some c
    /\ lookup2 (st_dist (fold_left (take_offer verbose) os st)) u d = Some c'
    /\ c' < c.
Proof.
  revert st. induction os as [|o os IH]; intros st Hno Hup.
  - cbn in Hup. congruence.
  - cbn [fold_left] in *.
    destruct (st_updated (take_offer verbose st o)) eqn:Hfirst.
    + clear IH. unfold take_offer in Hfirst |- *.
      destruct (lookup2 (st_dist st) (o_u o) (o_dest o)) as [cur|] eqn:Hcur;
        [|congruence].
      destruct (Z.ltb_spec (o_via o) cur) as [Hlt|Hge]; [|congruence].
      assert (Hrow : is_Some (st_dist st !! o_u o)).
      { unfold lookup2 in Hcur. by destruct (st_dist st !! o_u o). }
      match goal with
      | |- context [fold_left _ os ?s] =>
        destruct (fold_offers_cost os s (o_u o) (o_dest o) (o_via o))
          as (c' & Hc' & Hle)
      end.
      { cbn [st_dist]. rewrite lookup2_store2. by rewrite decide_True. }
      exists (o_u o), (o_dest o), cur, c'. split; [done|]. split; [done | lia].
    + assert (Hst : take_offer verbose st o = st).
      { unfold take_offer in *. destruct (lookup2 _ _ _) as [cur|]; [|done].
        by destruct (_ <? _). }
      rewrite Hst in *. by apply IH.
Qed.

Lemma fold_offers_changed (nodes : list node) os st :
  wf_state nodes st ->
  st_updated st = false ->
  st_updated (fold_left (take_offer verbose) os st) = true ->
  exists u d c c',
    lookup2 (st_dist st) u d = Some c
    /\ lookup2 (st_dist (fold_left (take_offer verbose) os st)) u d = Some c'
    /\ c' < c.
Proof. intros _. apply fold_offers_changed_entry. Qed.

End UpdateRule.

Lemma take_offer_silent (verbose : bool) (st : round_state) (o : offer) :
  silent (take_offer verbose st o) = take_offer false (silent st) o.
Proof.
  unfold take_offer, silent. cbn [st_dist st_next st_updated st_stdout].
  destruct (lookup2 _ _ _) as [cur|]; [|done]. by destruct (_ <? _).
Qed.

Lemma fold_offers_silent (verbose : bool) (os : list offer) (st : round_state) :
  silent (fold_left (take_offer verbose) os st)
  = fold_left (take_offer false) os (silent st).
Proof.
  revert st. induction os as [|o os IH]; intros st; [done|].
  cbn [fold_left]. by rewrite IH, take_offer_silent.
Qed.

(** ** The round loop *)

Section Driver.

Variables (nodes : list node) (neighbors : neighbors_t).
Variables (use_poisoned_reverse : bool).
Variables (dist0 : dist_t) (next0 : next_t).
Hypothesis Hnb : wf_neighbors nodes neighbors.
Hypothesis Hd0 : wf_table nodes dist0.
Hypothesis Hn0 : wf_table nodes next0.

(** Rounds never raise on complete tables. *)
Lemma tables_after_wf (k : nat) :
  exists st,
    tables_after k nodes neighbors use_poisoned_reverse dist0 next0 = Ret st
    /\ wf_state nodes st.
Proof.
  induction k as [|k (st & Hst & Hwd & Hwn)].
  - eexists. split; [done|]. by split.
  - cbn [tables_after]. rewrite Hst. cbn [bind]. by apply round_wf.
Qed.

Lemma tables_after_step (k : nat) (st : round_state) :
  tables_after k nodes neighbors use_poisoned_reverse dist0 next0 = Ret st ->
  tables_after (S k) nodes neighbors use_poisoned_reverse dist0 next0
  = Ret (fold_left (take_offer false)
           (offers nodes neighbors use_poisoned_reverse (st_dist st) (st_next st))
           (RoundState (st_dist st) (st_next st) false [])).
Proof.
  intros Hst. destruct (tables_after_wf k) as (st' & Hst' & Hwd & Hwn).
  rewrite Hst in Hst'. injection Hst' as <-.
  cbn [tables_after]. rewrite Hst. cbn [bind]. by apply round_offers.
Qed.

(** The loop, entered at iteration [i] with the tables of [i] rounds and
    enough fuel to reach the bound, returns; it stops at the first later
    round that changes nothing, and at round 51 otherwise. *)
Lemma dv_loop_spec (verbose : bool) (fuel i : nat) (st_i : round_state)
    (stdout : list event) :
  tables_after i nodes neighbors use_poisoned_reverse dist0 next0 = Ret st_i ->
  (i <= 50)%nat -> (51 <= i + fuel)%nat ->
  exists r st_r,
    dv_loop fuel nodes neighbors use_poisoned_reverse verbose i
      (st_dist st_i) (st_next st_i) stdout = Ret r
    /\ (i < run_iteration r <= 51)%nat
    /\ tables_after (run_iteration r) nodes neighbors use_poisoned_reverse
         dist0 next0 = Ret st_r
    /\ run_dist r = st_dist st_r /\ run_next r = st_next st_r
    /\ (run_exit r = Converged <-> st_updated st_r = false)
    /\ (run_exit r = AbortedOnIterationLimit -> run_iteration r = 51%nat)
    /\ (forall j st_j, (i < j < run_iteration r)%nat ->
          tables_after j nodes neighbors use_poisoned_reverse dist0 next0
          = Ret st_j ->
          st_updated st_j = true).
Proof.
  revert i st_i stdout.
  induction fuel as [|fuel IH]; intros i st_i stdout Hst Hi Hfuel; [lia|].
  destruct (tables_after_wf i) as (st' & Hst' & Hwd & Hwn).
  rewrite Hst in Hst'. injection Hst' as <-.
  pose proof (tables_after_step i st_i Hst) as Hnext.
  cbn [dv_loop]. rewrite round_offers by done. cbn [bind].
  set (os := offers nodes neighbors use_poisoned_reverse
               (st_dist st_i) (st_next st_i)) in *.
  set (st := fold_left (take_offer verbose) os _).
  assert (Hsil : fold_left (take_offer false) os
                   (RoundState (st_dist st_i) (st_next st_i) false [])
                 = silent st).
  { unfold st. by rewrite fold_offers_silent. }
  rewrite Hsil in Hnext. replace (i + 1)%nat with (S i) by lia.
  destruct (st_updated st) eqn:Hup; cbn [negb].
  - destruct (Nat.ltb_spec 50 (S i)) as [Hlim|Hlim].
    + exists (Run (st_dist st) (st_next st) (S i) AbortedOnIterationLimit
                (print verbose PrintStopping (st_stdout st))), (silent st).
      cbn [run_iteration run_dist run_next run_exit].
      split; [done|]. split; [lia|]. split; [done|].
      split; [done|]. split; [done|]. split.
      * cbn. rewrite Hup. split; discriminate.
      * split; [intros _; lia|]. intros j st_j Hj. lia.
    + destruct (IH (S i) (silent st) (st_stdout st) Hnext)
        as (r & st_r & Hrun & Hit & Hafter & Hrd & Hrn & Hconv & Habort & Hall);
        [lia..|].
      exists r, st_r. split; [exact Hrun|]. split; [lia|].
      split; [done|]. split; [done|]. split; [done|]. split; [done|].
      split; [done|].
      intros j st_j Hj Hstj. destruct (decide (j = S i)) as [->|Hne].
      * rewrite Hnext in Hstj. injection Hstj as <-. exact Hup.
      * apply (Hall j); [lia | done].
  - exists (Run (st_dist st) (st_next st) (S i) Converged
              (print verbose PrintConverged (st_stdout st))), (silent st).
    cbn [run_iteration run_dist run_next run_exit].
    split; [done|]. split; [lia|]. split; [done|].
    split; [done|]. split; [done|]. split.
    + cbn. by rewrite Hup.
    + split; [discriminate|]. intros j st_j Hj. lia.
Qed.

End Driver.

(** More fuel does not change what a run returns. *)
Lemma dv_loop_fuel_mono (fuel : nat) (nodes : list node) (neighbors : neighbors_t)
    (pr verbose : bool) (i : nat) (dist : dist_t) (next_hop : next_t)
    (stdout : list event) (r : run) :
  dv_loop fuel nodes neighbors pr verbose i dist next_hop stdout = Ret r ->
  forall fuel', (fuel <= fuel')%nat ->
    dv_loop fuel' nodes neighbors pr verbose i dist next_hop stdout = Ret r.
Proof.
  revert i dist next_hop stdout.
  induction fuel as [|fuel IH]; intros i dist next_hop stdout Hrun fuel' Hle;
    [discriminate|].
  destruct fuel' as [|fuel']; [lia|].
  cbn [dv_loop] in *.
  destruct (round _ _ _ _ _ _ _) as [st| |]; cbn [bind] in *; try discriminate.
  destruct (negb (st_updated st)); [done|].
  destruct (50 <? i + 1)%nat; [done|].
  apply IH; [done | lia].
Qed.

Section Rounds.

Variables (nodes : list node) (neighbors : neighbors_t).
Variables (use_poisoned_reverse : bool).
Variables (dist0 : dist_t) (next0 : next_t).
Hypothesis Hnb : wf_neighbors nodes neighbors.
Hypothesis Hd0 : wf_table nodes dist0.
Hypothesis Hn0 : wf_table nodes next0.

(** The flag [updated] of a round is set exactly when the round changes a
    table. *)
Lemma updated_iff_changes (j : nat) (st_j : round_state) :
  (1 <= j)%nat ->
  tables_after j nodes neighbors use_poisoned_reverse dist0 next0 = Ret st_j ->
  st_updated st_j = true
  <-> round_changes nodes neighbors use_poisoned_reverse dist0 next0 j.
Proof.
  intros Hj Hstj. destruct j as [|k]; [lia|].
  destruct (tables_after_wf nodes neighbors use_poisoned_reverse dist0 next0
              Hnb Hd0 Hn0 k) as (st & Hst & Hwf).
  pose proof (tables_after_step nodes neighbors use_poisoned_reverse dist0 next0
                Hnb Hd0 Hn0 k st Hst) as Hstep.
  rewrite Hstep in Hstj. injection Hstj as <-.
  unfold round_changes. replace (S k - 1)%nat with k by lia.
  split.
  - intros Hup. eexists _, _. split; [exact Hst|]. split; [exact Hstep|].
    left. intros Heq.
    assert (Hwf0 : wf_state nodes
                     (RoundState (st_dist st) (st_next st) false [])) by exact Hwf.
    destruct (fold_offers_changed false nodes _ _ Hwf0 eq_refl Hup)
      as (u & d & c & c' & Hc & Hc' & Hlt).
    rewrite Heq in Hc'. cbn [st_dist] in Hc. rewrite Hc in Hc'.
    injection Hc' as ->. lia.
  - intros (st1 & st2 & H1 & H2 & Hdiff).
    rewrite Hst in H1. injection H1 as <-.
    rewrite Hstep in H2. injection H2 as <-.
    destruct (st_updated _) eqn:Hup; [done|].
    apply fold_offers_unchanged in Hup. rewrite Hup in Hdiff.
    by destruct Hdiff.
Qed.

(** Costs never go up from one round to a later one. *)
Lemma tables_after_cost_mono (i j : nat) (st_i st_j : round_state)
    (u d : node) (c : Z) :
  (i <= j)%nat ->
  tables_after i nodes neighbors use_poisoned_reverse dist0 next0 = Ret st_i ->
  tables_after j nodes neighbors use_poisoned_reverse dist0 next0 = Ret st_j ->
  lookup2 (st_dist st_i) u d = Some c ->
  exists c', lookup2 (st_dist st_j) u d = Some c' /\ c' <= c.
Proof.
  intros Hij Hi. revert st_j. induction Hij as [|j Hij IH]; intros st_j Hj Hc.
  - rewrite Hi in Hj. injection Hj as <-. by exists c.
  - destruct (tables_after_wf nodes neighbors use_poisoned_reverse dist0 next0
                Hnb Hd0 Hn0 j) as (st & Hst & Hwf).
    destruct (IH st Hst Hc) as (c1 & Hc1 & Hle1).
    rewrite (tables_after_step nodes neighbors use_poisoned_reverse dist0 next0
               Hnb Hd0 Hn0 j st Hst) in Hj.
    injection Hj as <-.
    destruct (fold_offers_cost false
                (offers nodes neighbors use_poisoned_reverse
                   (st_dist st) (st_next st))
                (RoundState (st_dist st) (st_next st) false []) u d c1 Hc1)
      as (c2 & Hc2 & Hle2).
    exists c2. split; [done | lia].
Qed.

End Rounds.

(** C3.  Whatever the node list and the link list, the simulation ends.
    When a link names an unknown node it ends in [init_tables] with a
    [KeyError], before any round.  Otherwise 51 turns of the loop are enough
    for it to return: it stops at the first round that changes no table
    ([Converged]); if rounds 1 to 51 all change a table it stops after
    round 51, the counter then exceeding 50 ([AbortedOnIterationLimit]).  No
    run executes more than 51 rounds. *)
Theorem simulation_terminates (nodes : list node)
    (edges : list (node * node * Z)) (use_poisoned_reverse verbose : bool) :
  (exists k,
     first_unknown nodes edges = Some k
     /\ forall fuel,
          distance_vector_run fuel nodes edges use_poisoned_reverse verbose
          = Raise (KeyError k))
  \/ (exists neighbors dist0 next0 r,
        init_tables nodes edges = Ret (neighbors, dist0, next0)
        /\ (forall fuel, (51 <= fuel)%nat ->
              distance_vector_run fuel nodes edges use_poisoned_reverse verbose
              = Ret r)
        /\ (1 <= run_iteration r <= 51)%nat
        /\ (forall j, (1 <= j < run_iteration r)%nat ->
              round_changes nodes neighbors use_poisoned_reverse dist0 next0 j)
        /\ (run_exit r = Converged <->
            ~ round_changes nodes neighbors use_poisoned_reverse dist0 next0
                (run_iteration r))
        /\ (run_exit r = AbortedOnIterationLimit <->
            run_iteration r = 51%nat
            /\ round_changes nodes neighbors use_poisoned_reverse dist0 next0 51)).
Proof.
  pose proof (init_tables_outcome nodes edges) as Hinit.
  destruct (first_unknown nodes edges) as [k|].
  - left. exists k. split; [done|]. intros fuel.
    unfold distance_vector_run. by rewrite Hinit.
  - right. destruct Hinit as (nb & d0 & n0 & Hinit & Hnb & Hd0 & Hn0).
    destruct (dv_loop_spec nodes nb use_poisoned_reverse d0 n0 Hnb Hd0 Hn0
                verbose 51 0 (RoundState d0 n0 false []) [] eq_refl)
      as (r & st_r & Hrun & Hit & Hafter & _ & _ & Hconv & Habort & Hall);
      [lia..|].
    cbn [st_dist st_next] in Hrun.
    assert (Hflag : st_updated st_r = true <->
                    round_changes nodes nb use_poisoned_reverse d0 n0
                      (run_iteration r)).
    { apply updated_iff_changes; [done..|lia|done]. }
    exists nb, d0, n0, r. split; [done|]. split.
    { intros fuel Hfuel. unfold distance_vector_run. rewrite Hinit. cbn [bind].
      by apply (dv_loop_fuel_mono 51). }
    split; [lia|]. split.
    { intros j Hj.
      destruct (tables_after_wf nodes nb use_poisoned_reverse d0 n0
                  Hnb Hd0 Hn0 j) as (st_j & Hstj & _).
      apply (updated_iff_changes nodes nb use_poisoned_reverse d0 n0
               Hnb Hd0 Hn0 j st_j); [lia | done|].
      apply (Hall j); [lia | done]. }
    split.
    { rewrite Hconv, <- Hflag. by destruct (st_updated st_r). }
    split.
    + intros Hab. split; [by apply Habort|].
      rewrite <- (Habort Hab). apply Hflag.
      destruct (st_updated st_r); [done|].
      destruct Hconv as [_ Hconv]. rewrite Hconv in Hab by done. discriminate.
    + intros [H51 Hch]. rewrite <- H51 in Hch. apply Hflag in Hch.
      destruct (run_exit r) eqn:Hex; [|done].
      destruct Hconv as [Hconv _]. rewrite Hconv in Hch by done. discriminate.
Qed.

(** C5.  After a successful [init_tables], for every node [u] and
    destination [d], the cost [u] records for [d] after a round is at most
    the cost it recorded after any earlier round (round 0 being the initial
    tables): the costs over successive rounds never increase. *)
Theorem cost_nonincreasing (nodes : list node) (edges : list (node * node * Z))
    (use_poisoned_reverse : bool) (neighbors : neighbors_t) (dist0 : dist_t)
    (next0 : next_t) (i j : nat) :
  init_tables nodes edges = Ret (neighbors, dist0, next0) ->
  (i <= j)%nat ->
  exists st_i st_j,
    tables_after i nodes neighbors use_poisoned_reverse dist0 next0 = Ret st_i
    /\ tables_after j nodes neighbors use_poisoned_reverse dist0 next0 = Ret st_j
    /\ forall u d, u ∈ nodes -> d ∈ nodes ->
         exists c_i c_j,
           lookup2 (st_dist st_i) u d = Some c_i
           /\ lookup2 (st_dist st_j) u d = Some c_j
           /\ c_j <= c_i.
Proof.
  intros (Hnb & Hd0 & Hn0)%init_tables_wf Hij.
  destruct (tables_after_wf nodes neighbors use_poisoned_reverse dist0 next0
              Hnb Hd0 Hn0 i) as (st_i & Hi & Hwfi & _).
  destruct (tables_after_wf nodes neighbors use_poisoned_reverse dist0 next0
              Hnb Hd0 Hn0 j) as (st_j & Hj & _).
  exists st_i, st_j. split; [done|]. split; [done|].
  intros u d Hu Hd. destruct (Hwfi u d Hu Hd) as [c_i Hci].
  destruct (tables_after_cost_mono nodes neighbors use_poisoned_reverse
              dist0 next0 Hnb Hd0 Hn0 i j st_i st_j u d c_i Hij Hi Hj Hci)
    as (c_j & Hcj & Hle).
  by exists c_i, c_j.
Qed.



(** ** The neighbor map, row by row *)

Lemma incident_cons (u a b : node) (c : Z) (edges : list (node * node * Z)) :
  incident u ((a, b, c) :: edges)
  = (if decide (a = u) then [(b, c)] else [])
    ++ (if decide (b = u) then [(a, c)] else []) ++ incident u edges.
Proof. unfold incident. cbn [flat_map]. by rewrite <- app_assoc. Qed.

Lemma init_neighbors_loop_rows (edges : list (node * node * Z))
    (nb0 nb : neighbors_t) (u : node) :
  for_each edges (fun '(u, v, c) neighbors =>
    let* neighbors := set_neighbor u v c neighbors in
    set_neighbor v u c neighbors) nb0 = Ret nb ->
  nb !! u = stores (incident u edges) <$> nb0 !! u.
Proof.
  revert nb0. induction edges as [|[[a b] c] edges IH]; intros nb0 Hrun.
  - cbn in Hrun. injection Hrun as <-. cbn. by destruct (nb0 !! u).
  - cbn [for_each] in Hrun.
    unfold set_neighbor at 1 in Hrun. unfold getitem in Hrun.
    destruct (nb0 !! a) as [row_a|] eqn:Ha; [|done]. cbn [bind] in Hrun.
    unfold set_neighbor at 1 in Hrun. unfold getitem in Hrun.
    destruct (<[a:=dict_set b c row_a]> nb0 !! b) as [row_b|] eqn:Hb; [|done].
    cbn [bind] in Hrun. rewrite (IH _ Hrun), incident_cons.
    destruct (decide (b = u)) as [->|Hbu].
    + rewrite lookup_insert_eq.
      destruct (decide (a = u)) as [->|Hau].
      * rewrite lookup_insert_eq in Hb. injection Hb as <-.
        rewrite Ha. reflexivity.
      * rewrite lookup_insert_ne in Hb by done. rewrite Hb.
        reflexivity.
    + rewrite lookup_insert_ne by done.
      destruct (decide (a = u)) as [->|Hau].
      * rewrite lookup_insert_eq, Ha. reflexivity.
      * rewrite lookup_insert_ne by done. by destruct (nb0 !! u).
Qed.

(** The row of a node holds the stores of its incident links, in order. *)
Lemma init_neighbors_rows (nodes : list node) (edges : list (node * node * Z))
    (nb : neighbors_t) (u : node) :
  init_neighbors nodes edges = Ret nb ->
  nb !! u = if decide (u ∈ nodes) then Some (stores (incident u edges) [])
            else None.
Proof.
  intros Hrun. unfold init_neighbors in Hrun.
  rewrite (init_neighbors_loop_rows _ _ _ u Hrun), lookup_dict_comp.
  by destruct (decide (u ∈ nodes)).
Qed.

(** ** The initial tables, entry by entry *)

Lemma dict_set_keys {V : Type} (k : node) (x : V) (d : list (node * V)) :
  (dict_set k x d).*1 = if decide (k ∈ d.*1) then d.*1 else d.*1 ++ [k].
Proof.
  induction d as [|[k0 x0] d IH]; cbn [dict_set].
  - rewrite decide_False; [done | by intros ?%elem_of_nil].
  - destruct (decide (k0 = k)) as [->|Hne].
    + cbn. rewrite decide_True; [done | by left].
    + cbn. rewrite IH. destruct (decide (k ∈ d.*1)) as [Hin|Hnin].
      * rewrite decide_True; [done | by right].
      * rewrite decide_False; [done|].
        intros [?|?]%elem_of_cons; [congruence | done].
Qed.

Lemma dict_set_NoDup {V : Type} (k : node) (x : V) (d : list (node * V)) :
  NoDup d.*1 -> NoDup (dict_set k x d).*1.
Proof.
  intros Hnd. rewrite dict_set_keys. destruct (decide (k ∈ d.*1)); [done|].
  apply NoDup_app. split; [done|]. split.
  - intros k' Hk' ->%list_elem_of_singleton. done.
  - apply NoDup_singleton.
Qed.

Lemma stores_NoDup (l row : list (node * Z)) :
  NoDup row.*1 -> NoDup (stores l row).*1.
Proof.
  revert row. induction l as [|[v c] l IH]; intros row Hnd; [done|].
  cbn. by apply IH, dict_set_NoDup.
Qed.

Lemma dict_get_None {V : Type} (k : node) (d : list (node * V)) :
  dict_get k d = None <-> k ∉ d.*1.
Proof.
  induction d as [|[k0 x0] d IH]; cbn.
  - split; [by intros _ ?%elem_of_nil | done].
  - destruct (decide (k0 = k)) as [->|Hne].
    + split; [done|]. intros H. destruct H. by left.
    + rewrite IH. split.
      * intros H [?|?]%elem_of_cons; [congruence | done].
      * intros H Hin. apply H. by right.
Qed.

Lemma dict_get_Some {V : Type} (k : node) (x : V) (d : list (node * V)) :
  NoDup d.*1 -> dict_get k d = Some x <-> (k, x) ∈ d.
Proof.
  induction d as [|[k0 x0] d IH]; cbn; intros Hnd.
  - split; [done | by intros ?%elem_of_nil].
  - apply NoDup_cons in Hnd as [Hk0 Hnd].
    destruct (decide (k0 = k)) as [->|Hne].
    + split.
      * intros [= ->]. by left.
      * intros [[= ->]|Hin]%elem_of_cons; [done|].
        destruct Hk0. apply list_elem_of_fmap. by exists (k, x).
    + rewrite (IH Hnd). split.
      * intros Hin. by right.
      * intros [[= -> ->]|Hin]%elem_of_cons; [done | done].
Qed.

Lemma store2_row {V : Type} (m : gmap node (gmap node V)) (u k : node) (x : V) :
  is_Some (m !! u) -> is_Some (store2 m u k x !! u).
Proof.
  intros [row Hrow]. unfold store2. rewrite Hrow, lookup_insert_eq. by eexists.
Qed.

(** The stores [m[u][v] = g(v, c)] for the items [(v, c)] of a row. *)
Lemma fold_store2_row {V : Type} (g : node -> Z -> V) (u : node)
    (row : list (node * Z)) (m : gmap node (gmap node V)) (u' d : node) :
  is_Some (m !! u) -> NoDup row.*1 ->
  lookup2 (fold_left (fun m '(v, c) => store2 m u v (g v c)) row m) u' d
  = if decide (u' = u) then
      match dict_get d row with
      | Some c => Some (g d c)
      | None => lookup2 m u d
      end
    else lookup2 m u' d.
Proof.
  revert m. induction row as [|[v c] row IH]; intros m Hm Hnd.
  - cbn. by destruct (decide (u' = u)) as [->|].
  - cbn [fold_left dict_get]. rewrite fmap_cons in Hnd.
    apply NoDup_cons in Hnd as [Hv Hnd]. cbn in Hv.
    rewrite IH by (done || by apply store2_row).
    rewrite !lookup2_store2.
    destruct (decide (u' = u)) as [->|Hne].
    + destruct (decide (v = d)) as [->|Hvd].
      * apply dict_get_None in Hv. rewrite Hv. by rewrite decide_True.
      * destruct (dict_get d row); [done|].
        rewrite decide_False; [done|]. intros (_ & ? & _). congruence.
    + rewrite decide_False; [done|]. tauto.
Qed.

Lemma init_node_stores (nodes : list node) (neighbors : neighbors_t) (u : node)
    (row : list (node * Z)) (dist : dist_t) (next_hop : next_t) :
  u ∈ nodes -> neighbors !! u = Some row ->
  wf_table nodes dist -> wf_table nodes next_hop ->
  init_node neighbors u (dist, next_hop)
  = Ret (fold_left (fun m '(v, c) => store2 m u v c) row (store2 dist u u 0),
         fold_left (fun m '(v, c) => store2 m u v (Some v)) row
           (store2 next_hop u u (Some u))).
Proof.
  intros Hu Hrow Hd Hn. unfold init_node.
  rewrite (setitem2_store2 _ u u u) by (by apply Hd). cbn [bind].
  rewrite (setitem2_store2 _ u u u) by (by apply Hn). cbn [bind].
  rewrite (getitem_Some _ _ _ Hrow). cbn [bind].
  assert (Hd1 : is_Some (store2 dist u u 0 !! u)).
  { apply store2_row. specialize (Hd u u Hu Hu). unfold lookup2 in Hd.
    by destruct (dist !! u). }
  assert (Hn1 : is_Some (store2 next_hop u u (Some u) !! u)).
  { apply store2_row. specialize (Hn u u Hu Hu). unfold lookup2 in Hn.
    by destruct (next_hop !! u). }
  revert Hd1 Hn1.
  generalize (store2 dist u u 0) (store2 next_hop u u (Some u)).
  clear Hrow. induction row as [|[v c] row IH]; intros d n Hd1 Hn1; [done|].
  cbn [for_each fold_left].
  assert (Hsd : setitem2 d u v c = Ret (store2 d u v c)).
  { unfold setitem2, store2, getitem. destruct Hd1 as [r ->]. done. }
  assert (Hsn : setitem2 n u v (Some v) = Ret (store2 n u v (Some v))).
  { unfold setitem2, store2, getitem. destruct Hn1 as [r ->]. done. }
  rewrite Hsd. cbn [bind]. rewrite Hsn. cbn [bind].
  apply IH; by apply store2_row.
Qed.

Section InitRows.

Context {V : Type}.
Variables (g : node -> Z -> V) (self : node -> V).
Implicit Types (m : gmap node (gmap node V)).

Lemma store2_outer m (u k : node) (x : V) (u' : node) :
  is_Some (store2 m u k x !! u') <-> is_Some (m !! u').
Proof.
  unfold store2. destruct (m !! u) as [row|] eqn:Hrow; [|done].
  destruct (decide (u' = u)) as [->|Hne].
  - rewrite lookup_insert_eq, Hrow. split; by eexists.
  - by rewrite lookup_insert_ne.
Qed.

Lemma init_row_outer m (u : node) (row : list (node * Z)) (u' : node) :
  is_Some (init_row g self u row m !! u') <-> is_Some (m !! u').
Proof.
  unfold init_row. rewrite <- (store2_outer m u u (self u) u').
  generalize (store2 m u u (self u)). induction row as [|[v c] row IH]; [done|].
  intros m'. cbn [fold_left]. by rewrite IH, store2_outer.
Qed.

Lemma lookup2_init_row m (u0 : node) (row : list (node * Z)) (u d : node) :
  is_Some (m !! u0) -> NoDup row.*1 ->
  lookup2 (init_row g self u0 row m) u d
  = if decide (u = u0) then
      match dict_get d row with
      | Some c => Some (g d c)
      | None => if decide (d = u0) then Some (self u0) else lookup2 m u0 d
      end
    else lookup2 m u d.
Proof.
  intros Hm Hnd. unfold init_row.
  rewrite fold_store2_row by (done || by apply store2_row).
  rewrite !lookup2_store2.
  destruct (decide (u = u0)) as [->|Hne].
  - destruct (dict_get d row); [done|].
    destruct (decide (d = u0)) as [->|Hd].
    + by rewrite decide_True.
    + rewrite decide_False; [done|]. tauto.
  - rewrite decide_False; [done|]. tauto.
Qed.

Lemma lookup2_init_rows (neighbors : neighbors_t) (ns : list node) m
    (u d : node) :
  (forall u, u ∈ ns -> is_Some (m !! u)) ->
  (forall u row, neighbors !! u = Some row -> NoDup row.*1) ->
  lookup2 (init_rows g self neighbors ns m) u d
  = if decide (u ∈ ns) then
      match dict_get d (default [] (neighbors !! u)) with
      | Some c => Some (g d c)
      | None => if decide (d = u) then Some (self u) else lookup2 m u d
      end
    else lookup2 m u d.
Proof.
  intros Hrows Hnd. revert m Hrows.
  induction ns as [|u0 ns IH]; intros m Hrows.
  - cbn. rewrite decide_False; [done | by intros ?%elem_of_nil].
  - unfold init_rows in *. cbn [fold_left].
    assert (Hnd0 : NoDup (default [] (neighbors !! u0)).*1).
    { destruct (neighbors !! u0) as [row|] eqn:Hrow; cbn.
      - by eapply Hnd.
      - apply NoDup_nil_2. }
    rewrite IH.
    2:{ intros u' Hu'. apply init_row_outer, Hrows. by right. }
    rewrite !lookup2_init_row by (done || apply Hrows; by left).
    destruct (decide (u ∈ ns)) as [Hin|Hnin].
    + rewrite (decide_True (P := u ∈ u0 :: ns)) by (by right).
      destruct (decide (u = u0)) as [->|Hne]; [|done].
      destruct (dict_get d _); [done|]. by destruct (decide (d = u0)).
    + destruct (decide (u = u0)) as [->|Hne].
      * rewrite (decide_True (P := u0 ∈ u0 :: ns)) by (by left). done.
      * rewrite (decide_False (P := u ∈ u0 :: ns)); [done|].
        intros [?|?]%elem_of_cons; done.
Qed.

End InitRows.

Lemma init_loop_rows (nodes ns : list node) (neighbors : neighbors_t)
    (dist : dist_t) (next_hop : next_t) :
  wf_neighbors nodes neighbors -> ns ⊆ nodes ->
  wf_table nodes dist -> wf_table nodes next_hop ->
  for_each ns (init_node neighbors) (dist, next_hop)
  = Ret (init_rows (fun _ c => c) (fun _ => 0) neighbors ns dist,
         init_rows (fun v _ => Some v) Some neighbors ns next_hop).
Proof.
  intros Hnb. revert dist next_hop.
  induction ns as [|u ns IH]; intros dist next_hop Hns Hd Hn; [done|].
  cbn [for_each]. unfold init_rows. cbn [fold_left].
  assert (Hu : u ∈ nodes) by (apply Hns; by left).
  destruct (Hnb u Hu) as (row & Hrow & _).
  rewrite (init_node_stores nodes neighbors u row) by done. cbn [bind].
  rewrite Hrow. cbn [from_option id].
  destruct (init_node_wf nodes neighbors u dist next_hop Hnb Hu Hd Hn)
    as (d' & n' & Hrun & Hd' & Hn').
  rewrite (init_node_stores nodes neighbors u row) in Hrun by done.
  injection Hrun as <- <-.
  apply IH; [|done..]. intros x Hx. apply Hns. by right.
Qed.

(** The tables [init_tables] returns, entry by entry: a neighbor's link
    cost, else 0 to the node itself, else [INF]; the neighbor itself as next
    hop, else the node itself, else [None]. *)
Lemma init_tables_entries (nodes : list node) (edges : list (node * node * Z))
    (neighbors : neighbors_t) (dist0 : dist_t) (next0 : next_t) :
  init_tables nodes edges = Ret (neighbors, dist0, next0) ->
  (forall u, neighbors !! u
             = if decide (u ∈ nodes) then Some (stores (incident u edges) [])
               else None)
  /\ forall u d,
       lookup2 dist0 u d
       = (if decide (u ∈ nodes /\ d ∈ nodes)
          then Some (init_entry (fun _ c => c) 0 INF
                       (stores (incident u edges) []) u d)
          else None)
       /\ lookup2 next0 u d
         = (if decide (u ∈ nodes /\ d ∈ nodes)
            then Some (init_entry (fun v _ => Some v) (Some u) None
                         (stores (incident u edges) []) u d)
            else None).
Proof.
  intros Hinit. pose proof (init_tables_wf _ _ _ _ _ Hinit) as (Hnb & _ & _).
  unfold init_tables in Hinit.
  destruct (init_neighbors nodes edges) as [nb| |] eqn:Hnbs; try discriminate.
  cbn [bind] in Hinit.
  assert (Hrows : forall u, nb !! u
             = if decide (u ∈ nodes) then Some (stores (incident u edges) [])
               else None).
  { intros u. by apply init_neighbors_rows. }
  assert (Hwfnb : wf_neighbors nodes nb).
  { pose proof (init_neighbors_loop nodes edges _ (neighbors_inv_init nodes)) as H.
    unfold init_neighbors in Hnbs. rewrite Hnbs in H.
    destruct (first_unknown nodes edges); [discriminate|].
    destruct H as (nb' & [= <-] & Hinv). by apply neighbors_inv_wf. }
  rewrite (init_loop_rows nodes nodes) in Hinit;
    [|done|done|apply wf_table_dict_comp..].
  cbn [bind] in Hinit. injection Hinit as <- <- <-.
  split; [done|]. intros u d.
  assert (Hnd : forall u row, nb !! u = Some row -> NoDup row.*1).
  { intros u' row. rewrite Hrows. destruct (decide (u' ∈ nodes)); [|done].
    intros [= <-]. apply stores_NoDup, NoDup_nil_2. }
  assert (Hkeys : forall c, u ∈ nodes ->
            dict_get d (stores (incident u edges) []) = Some c -> d ∈ nodes).
  { intros c Hu Hget. destruct (Hwfnb u Hu) as (row & Hrow & Hin).
    rewrite Hrows, decide_True in Hrow by done. injection Hrow as <-.
    apply dict_get_Some in Hget; [by eapply Hin|].
    apply stores_NoDup, NoDup_nil_2. }
  rewrite !lookup2_init_rows; try done.
  2,3: intros u' Hu'; rewrite lookup_dict_comp, decide_True by done; by eexists.
  rewrite !lookup2_dict_comp, Hrows. unfold init_entry.
  destruct (decide (u ∈ nodes)) as [Hu|Hu].
  - cbn [from_option id].
    destruct (dict_get d (stores (incident u edges) [])) as [c|] eqn:Hget.
    + assert (Hd : d ∈ nodes) by (by eapply Hkeys).
      rewrite !decide_True by done. by split.
    + destruct (decide (d = u)) as [->|Hdu].
      * rewrite !decide_True by done. by split.
      * destruct (decide (d ∈ nodes)).
        -- rewrite !decide_True by done. by split.
        -- rewrite !decide_False by tauto. by split.
  - rewrite !decide_False by tauto. by split.
Qed.

(** ** The self route *)

Lemma elem_of_stores (l row : list (node * Z)) (v : node) (c : Z) :
  (v, c) ∈ stores l row -> (v, c) ∈ l \/ (v, c) ∈ row.
Proof.
  revert row. induction l as [|[v0 c0] l IH]; intros row Hin; [by right|].
  cbn in Hin. destruct (IH _ Hin) as [Hl|Hrow]; [left; by right|].
  apply elem_of_dict_set in Hrow as [[= -> ->]|Hrow]; [left; by left | by right].
Qed.

Lemma elem_of_incident (u v : node) (c : Z) (edges : list (node * node * Z)) :
  (v, c) ∈ incident u edges -> (u, v, c) ∈ edges \/ (v, u, c) ∈ edges.
Proof.
  induction edges as [|[[a b] c0] edges IH].
  - by intros ?%elem_of_nil.
  - rewrite incident_cons. intros [Ha|[Hb|Hrest]%elem_of_app]%elem_of_app.
    + destruct (decide (a = u)) as [->|]; [|by apply elem_of_nil in Ha].
      apply list_elem_of_singleton in Ha as [= -> ->]. left. by left.
    + destruct (decide (b = u)) as [->|]; [|by apply elem_of_nil in Hb].
      apply list_elem_of_singleton in Hb as [= -> ->]. right. by left.
    + destruct (IH Hrest); [left | right]; by right.
Qed.

(** Every item of a row of the neighbor map comes from a link. *)
Lemma init_tables_row_link (nodes : list node) (edges : list (node * node * Z))
    (neighbors : neighbors_t) (dist0 : dist_t) (next0 : next_t)
    (u v : node) (c : Z) (row : list (node * Z)) :
  init_tables nodes edges = Ret (neighbors, dist0, next0) ->
  neighbors !! u = Some row -> (v, c) ∈ row ->
  (u, v, c) ∈ edges \/ (v, u, c) ∈ edges.
Proof.
  intros (Hrows & _)%init_tables_entries Hrow Hin.
  rewrite Hrows in Hrow. destruct (decide (u ∈ nodes)); [|done].
  injection Hrow as <-.
  apply elem_of_stores in Hin as [Hin|Hin]; [|by apply elem_of_nil in Hin].
  by apply elem_of_incident.
Qed.

Section SelfRoute.

Variables (nodes : list node) (neighbors : neighbors_t).
Hypothesis Hnb : wf_neighbors nodes neighbors.
(** No link has a negative cost. *)
Hypothesis Hpos :
  forall u row v c, neighbors !! u = Some row -> (v, c) ∈ row -> 0 <= c.

Lemma take_offer_self_routes (verbose : bool) (st : round_state) (o : offer) :
  0 <= o_via o -> self_routes nodes st ->
  self_routes nodes (take_offer verbose st o).
Proof.
  intros Hvia [Hge Hself]. unfold take_offer.
  destruct (lookup2 (st_dist st) (o_u o) (o_dest o)) as [cur|] eqn:Hcur; [|done].
  destruct (Z.ltb_spec (o_via o) cur) as [Hlt|_]; [|done].
  assert (Hrow : is_Some (st_dist st !! o_u o)).
  { unfold lookup2 in Hcur. by destruct (st_dist st !! o_u o). }
  split; cbn [st_dist st_next].
  - intros u d c. rewrite lookup2_store2.
    destruct (decide _); [intros [= <-]; lia | apply Hge].
  - intros u Hu. destruct (Hself u Hu) as [Hd Hn]. rewrite !lookup2_store2.
    destruct (decide (u = o_u o /\ u = o_dest o)) as [[-> Heq]|Hne].
    + rewrite <- Heq in Hcur. rewrite Hd in Hcur. injection Hcur as <-. lia.
    + rewrite !decide_False by tauto. done.
Qed.

Lemma fold_offers_self_routes (verbose : bool) (os : list offer)
    (st : round_state) :
  (forall o, o ∈ os -> 0 <= o_via o) -> self_routes nodes st ->
  self_routes nodes (fold_left (take_offer verbose) os st).
Proof.
  revert st. induction os as [|o os IH]; intros st Hos Hst; [done|].
  cbn [fold_left]. apply IH.
  - intros o' Ho'. apply Hos. by right.
  - apply take_offer_self_routes; [|done]. apply Hos. by left.
Qed.

Lemma advertised_cost_nonneg (pr : bool) (old_dist : dist_t) (old_next : next_t)
    (u v dest : node) :
  (forall u d c, lookup2 old_dist u d = Some c -> 0 <= c) ->
  0 <= advertised_cost pr old_dist old_next u v dest.
Proof.
  intros Hge. unfold advertised_cost.
  assert (0 <= default 0 (lookup2 old_dist v dest)).
  { destruct (lookup2 old_dist v dest) as [c|] eqn:Hc; cbn; [by eapply Hge|lia]. }
  destruct pr; [|done]. destruct (decide _); [by compute | done].
Qed.

(** No offer of a round has a negative cost. *)
Lemma offers_nonneg (pr : bool) (old_dist : dist_t) (old_next : next_t)
    (o : offer) :
  (forall u d c, lookup2 old_dist u d = Some c -> 0 <= c) ->
  o ∈ offers nodes neighbors pr old_dist old_next -> 0 <= o_via o.
Proof.
  intros Hge Ho. unfold offers in Ho.
  apply list_elem_of_In, in_flat_map in Ho as (u & Hu & Ho).
  apply in_flat_map in Ho as ([v c] & Hv & Ho).
  apply list_elem_of_In in Hu, Hv.
  destruct (neighbors !! u) as [row|] eqn:Hrow; [|by apply elem_of_nil in Hv].
  cbn [from_option id] in Hv. pose proof (Hpos u row v c Hrow Hv) as Hc.
  unfold offers_from in Ho. cbn [fst snd] in Ho.
  destruct (lookup2 old_dist u v) as [d_uv|]; [|done].
  destruct (INF <=? d_uv); [done|].
  apply in_map_iff in Ho as (dest & <- & _). cbn [o_via]. unfold candidate.
  pose proof (advertised_cost_nonneg pr old_dist old_next u v dest Hge). lia.
Qed.

End SelfRoute.

(** C4, as stated, fails.  A link from a node to itself overwrites the
    self route when the tables are built, and a link of negative cost makes
    the first round replace it. *)
Lemma self_route_overwritten :
  (exists neighbors dist0 next0,
     init_tables ["A"]%string [("A", "A", 5)]%string
     = Ret (neighbors, dist0, next0)
     /\ lookup2 dist0 "A"%string "A"%string = Some 5)
  /\ (exists neighbors dist0 next0 st,
        init_tables ["A"; "B"]%string [("A", "B", -1)]%string
        = Ret (neighbors, dist0, next0)
        /\ lookup2 dist0 "A"%string "A"%string = Some 0
        /\ tables_after 1 ["A"; "B"]%string neighbors false dist0 next0 = Ret st
        /\ lookup2 (st_dist st) "A"%string "A"%string = Some (-2)
        /\ lookup2 (st_next st) "A"%string "A"%string = Some (Some "B"%string)).
Proof.
  split.
  - eexists _, _, _. split; vm_compute; reflexivity.
  - eexists _, _, _, _. split; [vm_compute; reflexivity|].
    split; [vm_compute; reflexivity|]. split; [vm_compute; reflexivity|].
    split; vm_compute; reflexivity.
Qed.

(** C4, amended.  When every link joins two distinct nodes at a cost that
    is not negative (a positive cost in particular), the entry of every node [u] for destination [u] is
    [(cost = 0, next_hop = u)] in the initial tables and after every round,
    and no update made in the course of a round changes it: it holds after
    any number of the offers of the round have been handled. *)
Theorem self_route_invariant (nodes : list node) (edges : list (node * node * Z))
    (use_poisoned_reverse verbose : bool) (neighbors : neighbors_t)
    (dist0 : dist_t) (next0 : next_t) (k : nat) :
  init_tables nodes edges = Ret (neighbors, dist0, next0) ->
  (forall u v c, (u, v, c) ∈ edges -> u <> v /\ 0 <= c) ->
  exists st,
    tables_after k nodes neighbors use_poisoned_reverse dist0 next0 = Ret st
    /\ (forall u, u ∈ nodes ->
          lookup2 (st_dist st) u u = Some 0
          /\ lookup2 (st_next st) u u = Some (Some u))
    /\ (forall handled rest stdout u,
          offers nodes neighbors use_poisoned_reverse (st_dist st) (st_next st)
          = handled ++ rest ->
          u ∈ nodes ->
          let st' := fold_left (take_offer verbose) handled
                       (RoundState (st_dist st) (st_next st) false stdout) in
          lookup2 (st_dist st') u u = Some 0
          /\ lookup2 (st_next st') u u = Some (Some u)).
Proof.
  intros Hinit Hedges.
  pose proof (init_tables_wf _ _ _ _ _ Hinit) as (Hnb & Hd0 & Hn0).
  pose proof (init_tables_entries _ _ _ _ _ Hinit) as (Hrows & Hentries).
  assert (Hlink : forall u row v c,
            neighbors !! u = Some row -> (v, c) ∈ row -> u <> v /\ 0 <= c).
  { intros u row v c Hrow Hin.
    destruct (init_tables_row_link _ _ _ _ _ _ _ _ _ Hinit Hrow Hin) as [H|H];
      apply Hedges in H as [? ?]; split; congruence. }
  assert (Hpos : forall u row v c,
            neighbors !! u = Some row -> (v, c) ∈ row -> 0 <= c).
  { intros u row v c Hrow Hin. by destruct (Hlink u row v c). }
  assert (Hinv : forall k, exists st,
            tables_after k nodes neighbors use_poisoned_reverse dist0 next0
            = Ret st /\ self_routes nodes st).
  { clear k. intros k. induction k as [|k (st & Hst & Hself)].
    - eexists. split; [reflexivity|]. split; cbn [st_dist st_next].
      + intros u d c. destruct (Hentries u d) as [-> _].
        destruct (decide (u ∈ nodes /\ d ∈ nodes)) as [[Hu Hd]|]; [|done].
        intros [= <-]. unfold init_entry.
        destruct (dict_get d _) as [c|] eqn:Hget.
        * apply dict_get_Some in Hget; [|apply stores_NoDup, NoDup_nil_2].
          pose proof (Hrows u) as Hrow. rewrite decide_True in Hrow by done.
          pose proof (Hpos u _ d c Hrow Hget). lia.
        * destruct (decide (d = u)); [lia | by compute].
      + intros u Hu. destruct (Hentries u u) as [-> ->].
        rewrite !decide_True by done. unfold init_entry.
        destruct (dict_get u _) as [c|] eqn:Hget.
        * apply dict_get_Some in Hget; [|apply stores_NoDup, NoDup_nil_2].
          pose proof (Hrows u) as Hrow. rewrite decide_True in Hrow by done.
          by destruct (Hlink u _ u c Hrow Hget).
        * by rewrite !decide_True.
    - eexists. split.
      + by apply tables_after_step.
      + apply (fold_offers_self_routes nodes).
        * intros o Ho. eapply (offers_nonneg nodes neighbors Hpos); [|done].
          apply Hself.
        * exact Hself. }
  destruct (Hinv k) as (st & Hst & Hself).
  exists st. split; [done|]. split; [apply Hself|].
  intros handled rest stdout u Hsplit Hu st'.
  assert (Hst' : self_routes nodes st').
  { apply (fold_offers_self_routes nodes).
    - intros o Ho. eapply (offers_nonneg nodes neighbors Hpos); [apply Hself|].
      rewrite Hsplit. apply elem_of_app. by left.
    - exact Hself. }
  by apply Hst'.
Qed.

(** ** What a caller gets *)

(** A round prints improvements only, after what was printed before. *)
Lemma fold_offers_stdout (verbose : bool) (os : list offer) (st : round_state) :
  exists imps,
    st_stdout (fold_left (take_offer verbose) os st) = st_stdout st ++ imps
    /\ forallb is_improved imps = true
    /\ (verbose = false -> imps = []).
Proof.
  revert st. induction os as [|o os IH]; intros st.
  - exists []. by rewrite app_nil_r.
  - cbn [fold_left]. destruct (IH (take_offer verbose st o)) as (imps & -> & Himp & Hsil).
    unfold take_offer.
    destruct (lookup2 _ _ _) as [cur|]; [|by exists imps].
    destruct (_ <? _); [|by exists imps].
    cbn [st_stdout]. destruct verbose; cbn [print].
    + eexists (_ :: imps). rewrite <- app_assoc. split; [done|].
      split; [by cbn | done].
    + by exists imps.
Qed.

Lemma dv_loop_stdout (nodes : list node) (neighbors : neighbors_t)
    (pr verbose : bool) (fuel i : nat) (dist : dist_t) (next_hop : next_t)
    (stdout : list event) (r : run) :
  wf_neighbors nodes neighbors ->
  wf_table nodes dist -> wf_table nodes next_hop ->
  dv_loop fuel nodes neighbors pr verbose i dist next_hop stdout = Ret r ->
  (verbose = false -> run_stdout r = stdout)
  /\ (verbose = true ->
      exists body,
        run_stdout r = stdout ++ body ++ [exit_event (run_exit r)]
        /\ List.filter is_header body
           = map PrintIteration (seq (S i) (run_iteration r - i))
        /\ forallb (fun e => is_header e || is_improved e) body = true).
Proof.
  intros Hnb. revert i dist next_hop stdout.
  induction fuel as [|fuel IH]; intros i dist next_hop stdout Hd Hn Hrun;
    [discriminate|].
  cbn [dv_loop] in Hrun.
  rewrite round_offers in Hrun by done. cbn [bind] in Hrun.
  set (os := offers nodes neighbors pr dist next_hop) in *.
  destruct (fold_offers_stdout verbose os
              (RoundState dist next_hop false
                 (print verbose (PrintIteration (i + 1)) stdout)))
    as (imps & Hout & Himp & Hsil).
  assert (Hwf : wf_state nodes
                  (fold_left (take_offer verbose) os
                     (RoundState dist next_hop false
                        (print verbose (PrintIteration (i + 1)) stdout)))).
  { by apply wf_state_fold_offers. }
  set (st := fold_left (take_offer verbose) os _) in *.
  cbn [st_stdout] in Hout.
  assert (Hhead : forall e,
            verbose = true ->
            run_stdout
              (Run (st_dist st) (st_next st) (i + 1) e
                 (print verbose (exit_event e) (st_stdout st)))
            = stdout ++ (PrintIteration (i + 1) :: imps) ++ [exit_event e]).
  { intros e ->. cbn [run_stdout print]. rewrite Hout. cbn [print].
    by rewrite <- !app_assoc. }
  assert (Hfilter : List.filter is_header imps = []).
  { clear -Himp. induction imps as [|e imps IH]; [done|].
    cbn in Himp. apply andb_prop in Himp as [He Himp].
    destruct e; try discriminate. cbn. by apply IH. }
  assert (Hall : forallb (fun e => is_header e || is_improved e) imps = true).
  { clear -Himp. induction imps as [|e imps IH]; [done|].
    cbn in Himp. apply andb_prop in Himp as [He Himp].
    cbn. rewrite He, orb_true_r. by apply IH. }
  destruct (negb (st_updated st)).
  { injection Hrun as <-. split.
    - intros ->. cbn [run_stdout print]. rewrite Hout. cbn [print].
      by rewrite (Hsil eq_refl), app_nil_r.
    - intros Hv. exists (PrintIteration (i + 1) :: imps).
      split; [by apply (Hhead Converged)|]. cbn [run_iteration].
      replace (i + 1 - i)%nat with 1%nat by lia.
      cbn. rewrite Hfilter, Hall. split; [|done]. do 2 f_equal. lia. }
  destruct (50 <? i + 1)%nat.
  { injection Hrun as <-. split.
    - intros ->. cbn [run_stdout print]. rewrite Hout. cbn [print].
      by rewrite (Hsil eq_refl), app_nil_r.
    - intros Hv. exists (PrintIteration (i + 1) :: imps).
      split; [by apply (Hhead AbortedOnIterationLimit)|]. cbn [run_iteration].
      replace (i + 1 - i)%nat with 1%nat by lia.
      cbn. rewrite Hfilter, Hall. split; [|done]. do 2 f_equal. lia. }
  destruct Hwf as [Hwd Hwn].
  destruct (IH _ _ _ _ Hwd Hwn Hrun) as [Hquiet Hloud].
  assert (Hlt : (i + 1 < run_iteration r)%nat).
  { clear -Hrun. revert Hrun. generalize (i + 1)%nat (st_dist st) (st_next st)
      (st_stdout st). clear. induction fuel as [|fuel IH]; [discriminate|].
    intros j d n out. cbn [dv_loop].
    destruct (round _ _ _ _ _ _ _) as [st| |]; cbn [bind]; try discriminate.
    destruct (negb _); [intros [= <-]; cbn; lia|].
    destruct (_ <? _)%nat; [intros [= <-]; cbn; lia|].
    intros H%IH. lia. }
  split.
  - intros ->. rewrite Hquiet, Hout by done. cbn [print].
    by rewrite (Hsil eq_refl), app_nil_r.
  - intros Hv. destruct (Hloud Hv) as (body & Hr & Hheads & Hbody).
    exists ((PrintIteration (i + 1) :: imps) ++ body). split; [|split].
    + rewrite Hr, Hout, Hv. cbn [print]. by rewrite <- !app_assoc.
    + rewrite List.filter_app. cbn [List.filter is_header].
      rewrite Hfilter, Hheads. cbn [app].
      replace (run_iteration r - i)%nat
        with (S (run_iteration r - (i + 1)))%nat by lia.
      cbn [seq map]. do 2 f_equal; [lia|]. f_equal. lia.
    + rewrite forallb_app. cbn. by rewrite Hall, Hbody.
Qed.

(** C7, as stated, fails.  These two runs return the same value and print
    the same (nothing), yet one is stopped by the iteration bound after 51
    rounds and the other converges in its first round: neither the
    iteration count nor the exit state is part of the output. *)
Lemma output_hides_exit_state :
  exists r1 r2,
    distance_vector_run 51 ["A"]%string [("A", "A", -1)]%string false false
    = Ret r1
    /\ distance_vector_run 51 ["A"]%string [("A", "A", -52)]%string true false
       = Ret r2
    /\ distance_vector_observed 51 ["A"]%string [("A", "A", -1)]%string
         false false
       = distance_vector_observed 51 ["A"]%string [("A", "A", -52)]%string
           true false
    /\ run_exit r1 = AbortedOnIterationLimit /\ run_iteration r1 = 51%nat
    /\ run_exit r2 = Converged /\ run_iteration r2 = 1%nat.
Proof.
  eexists _, _. split; [vm_compute; reflexivity|].
  split; [vm_compute; reflexivity|].
  split; [vm_compute; reflexivity|].
  repeat split.
Qed.

(** C7, amended.  On either way out of the loop the value returned is the
    pair of the final tables and nothing more.  The iteration count and the
    exit state reach a caller only through what is printed when [verbose]
    is set: one header per round, numbered from 1 to the iteration count,
    and a last line that tells a converged run from one stopped by the
    iteration bound.  With [verbose] unset nothing is printed. *)
Theorem distance_vector_output (fuel : nat) (nodes : list node)
    (edges : list (node * node * Z)) (use_poisoned_reverse verbose : bool)
    (r : run) :
  distance_vector_run fuel nodes edges use_poisoned_reverse verbose = Ret r ->
  distance_vector_fuel fuel nodes edges use_poisoned_reverse verbose
  = Ret (run_dist r, run_next r)
  /\ distance_vector_observed fuel nodes edges use_poisoned_reverse verbose
     = Ret (run_dist r, run_next r, run_stdout r)
  /\ (verbose = false -> run_stdout r = [])
  /\ (verbose = true ->
      last (run_stdout r) = Some (exit_event (run_exit r))
      /\ List.filter is_header (run_stdout r)
         = map PrintIteration (seq 1 (run_iteration r))).
Proof.
  intros Hrun. unfold distance_vector_fuel, distance_vector_observed.
  rewrite Hrun. cbn [bind]. split; [done|]. split; [done|].
  unfold distance_vector_run in Hrun.
  destruct (init_tables nodes edges) as [[[nb d0] n0]| |] eqn:Hinit;
    try discriminate.
  cbn [bind] in Hrun.
  destruct (init_tables_wf _ _ _ _ _ Hinit) as (Hnb & Hd0 & Hn0).
  destruct (dv_loop_stdout _ _ _ _ _ _ _ _ _ _ Hnb Hd0 Hn0 Hrun)
    as [Hquiet Hloud].
  split; [done|]. intros Hv.
  destruct (Hloud Hv) as (body & Hr & Hheads & Hbody).
  cbn [app] in Hr. rewrite Hr. split.
  - by rewrite last_snoc.
  - rewrite List.filter_app, Hheads, Nat.sub_0_r. cbn.
    destruct (run_exit r); cbn; by rewrite app_nil_r.
Qed.

(** ** The order of the offers *)

Lemma best_le (os : list offer) (u d : node) (c : Z) : best os u d c <= c.
Proof.
  revert c. induction os as [|o os IH]; intros c; cbn [best]; [lia|].
  destruct (decide _); [|apply IH]. etrans; [apply IH | lia].
Qed.


Lemma take_offer_best (verbose : bool) (st : round_state) (o : offer)
    (u d : node) :
  lookup2 (st_dist (take_offer verbose st o)) u d
  = (fun c => if decide (o_u o = u /\ o_dest o = d)
              then Z.min c (o_via o) else c)
    <$> lookup2 (st_dist st) u d.
Proof.
  unfold take_offer.
  destruct (lookup2 (st_dist st) (o_u o) (o_dest o)) as [cur|] eqn:Hcur.
  - assert (Hrow : is_Some (st_dist st !! o_u o)).
    { unfold lookup2 in Hcur. by destruct (st_dist st !! o_u o). }
    destruct (Z.ltb_spec (o_via o) cur) as [Hlt|Hge].
    + cbn [st_dist]. rewrite lookup2_store2.
      destruct (decide (o_u o = u /\ o_dest o = d)) as [[<- <-]|Hne].
      * rewrite decide_True by done. rewrite Hcur. cbn. f_equal. lia.
      * rewrite decide_False by (intros (-> & -> & _); tauto).
        by destruct (lookup2 (st_dist st) u d).
    + destruct (decide (o_u o = u /\ o_dest o = d)) as [[<- <-]|Hne].
      * rewrite Hcur. cbn. f_equal. lia.
      * by destruct (lookup2 (st_dist st) u d).
  - destruct (decide (o_u o = u /\ o_dest o = d)) as [[<- <-]|Hne].
    + by rewrite Hcur.
    + by destruct (lookup2 (st_dist st) u d).
Qed.

(** After a round every cost is the least of the old cost and of the offers. *)
Lemma fold_offers_best (verbose : bool) (os : list offer) (st : round_state)
    (u d : node) :
  lookup2 (st_dist (fold_left (take_offer verbose) os st)) u d
  = best os u d <$> lookup2 (st_dist st) u d.
Proof.
  revert st. induction os as [|o os IH]; intros st; cbn [fold_left best].
  - by destruct (lookup2 (st_dist st) u d).
  - rewrite IH, take_offer_best. by destruct (lookup2 (st_dist st) u d).
Qed.



(** ** Rows of the neighbor map when no pair of nodes is linked twice *)

Lemma dict_set_fresh {V : Type} (k : node) (x : V) (d : list (node * V)) :
  k ∉ d.*1 -> dict_set k x d = d ++ [(k, x)].
Proof.
  induction d as [|[k0 x0] d IH]; intros Hk; [done|].
  cbn [dict_set]. rewrite fmap_cons in Hk. cbn in Hk.
  rewrite decide_False by (intros ->; apply Hk; by left).
  cbn. f_equal. apply IH. intros Hin. apply Hk. by right.
Qed.

Lemma stores_fresh (l row : list (node * Z)) :
  NoDup (row ++ l).*1 -> stores l row = row ++ l.
Proof.
  revert row. induction l as [|[v c] l IH]; intros row Hnd.
  - by rewrite app_nil_r.
  - cbn [stores fold_left]. fold (stores l (dict_set v c row)).
    assert (Hv : v ∉ row.*1).
    { rewrite fmap_app, fmap_cons in Hnd. cbn in Hnd.
      apply NoDup_app in Hnd as (_ & Hdis & _). intros Hin.
      apply (Hdis v Hin). by left. }
    rewrite dict_set_fresh by done.
    rewrite IH; rewrite <- app_assoc; done.
Qed.

Lemma incident_key_pair (u k : node) (edges : list (node * node * Z)) :
  k ∈ (incident u edges).*1 -> (u, k) ∈ pair_keys edges.
Proof.
  induction edges as [|[[a b] c] edges IH].
  - by intros ?%elem_of_nil.
  - rewrite incident_cons, !fmap_app. cbn [pair_keys flat_map app].
    intros [Ha|[Hb|Hrest]%elem_of_app]%elem_of_app.
    + destruct (decide (a = u)) as [->|]; [|by apply elem_of_nil in Ha].
      apply list_elem_of_singleton in Ha as ->. by left.
    + destruct (decide (b = u)) as [->|]; [|by apply elem_of_nil in Hb].
      apply list_elem_of_singleton in Hb as ->. right. by left.
    + right. right. by apply IH.
Qed.

Lemma incident_NoDup (u : node) (edges : list (node * node * Z)) :
  NoDup (pair_keys edges) -> NoDup (incident u edges).*1.
Proof.
  induction edges as [|[[a b] c] edges IH]; intros Hnd.
  - apply NoDup_nil_2.
  - cbn [pair_keys flat_map app] in Hnd.
    apply NoDup_cons in Hnd as [Hab Hnd]. apply NoDup_cons in Hnd as [Hba Hnd].
    rewrite incident_cons, !fmap_app.
    assert (Hrest : NoDup (incident u edges).*1) by (by apply IH).
    destruct (decide (a = u)) as [->|Hau]; destruct (decide (b = u)) as [->|Hbu];
      cbn.
    + destruct Hab. by left.
    + apply NoDup_cons. split; [|done].
      intros Hin%incident_key_pair. apply Hab. by right.
    + apply NoDup_cons. split; [|done].
      intros Hin%incident_key_pair. done.
    + done.
Qed.



(** With no pair linked twice the row of [u] lists its links in order. *)
Lemma stores_incident (u : node) (edges : list (node * node * Z)) :
  NoDup (pair_keys edges) -> stores (incident u edges) [] = incident u edges.
Proof.
  intros Hnd. rewrite stores_fresh; [done|]. cbn. by apply incident_NoDup.
Qed.




(** ** Tables as values *)








(** ** Two runs whose rounds agree *)

Section Agree.

Variables (nodes nodes' : list node) (nb nb' : neighbors_t) (pr pr' : bool).
Variables (d0 d0' : dist_t) (n0 n0' : next_t).
Hypothesis Hnb : wf_neighbors nodes nb.
Hypothesis Hd0 : wf_table nodes d0.
Hypothesis Hn0 : wf_table nodes n0.
Hypothesis Hnb' : wf_neighbors nodes' nb'.
Hypothesis Hd0' : wf_table nodes' d0'.
Hypothesis Hn0' : wf_table nodes' n0'.
(** After every number of rounds the flags agree. *)
Hypothesis Hflags :
  forall k st st',
    tables_after k nodes nb pr d0 n0 = Ret st ->
    tables_after k nodes' nb' pr' d0' n0' = Ret st' ->
    st_updated st = st_updated st'.

(** The two runs stop after the same number of rounds, for the same reason,
    with the tables of that many rounds. *)
Lemma runs_agree (verbose verbose' : bool) :
  exists r r' st st',
    dv_loop 51 nodes nb pr verbose 0 d0 n0 [] = Ret r
    /\ dv_loop 51 nodes' nb' pr' verbose' 0 d0' n0' [] = Ret r'
    /\ run_iteration r = run_iteration r'
    /\ run_exit r = run_exit r'
    /\ tables_after (run_iteration r) nodes nb pr d0 n0 = Ret st
    /\ tables_after (run_iteration r) nodes' nb' pr' d0' n0' = Ret st'
    /\ run_dist r = st_dist st /\ run_next r = st_next st
    /\ run_dist r' = st_dist st' /\ run_next r' = st_next st'.
Proof.
  destruct (dv_loop_spec nodes nb pr d0 n0 Hnb Hd0 Hn0 verbose 51 0
              (RoundState d0 n0 false []) [] eq_refl)
    as (r & st & Hrun & Hit & Hafter & Hrd & Hrn & Hconv & Habort & Hall);
    [lia..|].
  destruct (dv_loop_spec nodes' nb' pr' d0' n0' Hnb' Hd0' Hn0' verbose' 51 0
              (RoundState d0' n0' false []) [] eq_refl)
    as (r' & st' & Hrun' & Hit' & Hafter' & Hrd' & Hrn' & Hconv' & Habort'
        & Hall');
    [lia..|].
  cbn [st_dist st_next] in Hrun, Hrun'.
  assert (Heq : run_iteration r = run_iteration r').
  { destruct (Nat.lt_trichotomy (run_iteration r) (run_iteration r'))
      as [Hlt|[Heq|Hgt]]; [|done|].
    - exfalso.
      destruct (tables_after_wf nodes' nb' pr' d0' n0' Hnb' Hd0' Hn0'
                  (run_iteration r)) as (t' & Ht' & _).
      pose proof (Hall' _ t' (conj (proj1 Hit) Hlt) Ht') as Hup'.
      rewrite <- (Hflags _ _ _ Hafter Ht') in Hup'.
      destruct (run_exit r) eqn:Hex.
      + destruct Hconv as [Hconv _]. rewrite Hconv in Hup' by done. discriminate.
      + specialize (Habort eq_refl). lia.
    - exfalso.
      destruct (tables_after_wf nodes nb pr d0 n0 Hnb Hd0 Hn0
                  (run_iteration r')) as (t & Ht & _).
      pose proof (Hall _ t (conj (proj1 Hit') Hgt) Ht) as Hup.
      rewrite (Hflags _ _ _ Ht Hafter') in Hup.
      destruct (run_exit r') eqn:Hex.
      + destruct Hconv' as [Hconv' _]. rewrite Hconv' in Hup by done.
        discriminate.
      + specialize (Habort' eq_refl). lia. }
  rewrite <- Heq in Hafter'.
  exists r, r', st, st'. split; [done|]. split; [done|]. split; [done|].
  split; [|done].
  pose proof (Hflags _ _ _ Hafter Hafter') as Hf.
  destruct (run_exit r) eqn:Hex, (run_exit r') eqn:Hex'; try done.
  - destruct Hconv as [Hconv _]. specialize (Hconv eq_refl).
    destruct Hconv' as [_ Hconv']. rewrite <- Hf in Hconv'.
    by specialize (Hconv' Hconv).
  - destruct Hconv' as [Hconv' _]. specialize (Hconv' eq_refl).
    destruct Hconv as [_ Hconv]. rewrite Hf in Hconv.
    by specialize (Hconv Hconv').
Qed.

End Agree.

(** ** Permuting the node list and the link list *)




(** ** Poisoned reverse changes no table *)

Lemma take_offer_below (verbose : bool) (old_dist : dist_t) (st : round_state)
    (o : offer) :
  below old_dist st -> below old_dist (take_offer verbose st o).
Proof.
  intros Hb x d c Hc. destruct (Hb x d c Hc) as (c1 & Hc1 & Hle1).
  destruct (take_offer_cost verbose st o x d c1 Hc1) as (c2 & Hc2 & Hle2).
  exists c2. split; [done | lia].
Qed.

(** A dead offer is not taken. *)
Lemma take_offer_dead (verbose : bool) (old_dist : dist_t) (st : round_state)
    (o : offer) :
  below old_dist st -> dead old_dist o -> take_offer verbose st o = st.
Proof.
  intros Hb (c & Hc & Hle). destruct (Hb _ _ _ Hc) as (c' & Hc' & Hle').
  unfold take_offer. rewrite Hc'.
  destruct (Z.ltb_spec (o_via o) c') as [Hlt|_]; [lia | done].
Qed.

(** Two rounds whose offers differ only by dead ones end in the same state. *)
Lemma fold_offers_dead (verbose : bool) (old_dist : dist_t)
    (os os' : list offer) (st : round_state) :
  Forall2 (fun o o' => o = o' \/ (dead old_dist o /\ dead old_dist o')) os os' ->
  below old_dist st ->
  fold_left (take_offer verbose) os st = fold_left (take_offer verbose) os' st.
Proof.
  intros Hos. revert st. induction Hos as [|o o' os os' Ho _ IH]; intros st Hb;
    [done|].
  cbn [fold_left]. destruct Ho as [<-|[Hd Hd']].
  - apply IH. by apply take_offer_below.
  - rewrite !(take_offer_dead verbose old_dist) by done. by apply IH.
Qed.

Lemma lookup2_store2_Some {V : Type} (m : gmap node (gmap node V))
    (u k : node) (x : V) (u' k' : node) (y : V) :
  lookup2 (store2 m u k x) u' k' = Some y ->
  (u' = u /\ k' = k /\ y = x)
  \/ (~ (u' = u /\ k' = k) /\ lookup2 m u' k' = Some y).
Proof.
  rewrite lookup2_store2.
  destruct (decide (u' = u /\ k' = k /\ is_Some (m !! u))) as [(-> & -> & _)|Hne].
  - intros [= <-]. by left.
  - intros Hy. right. split; [|done]. intros [-> ->]. apply Hne.
    split; [done|]. split; [done|]. unfold lookup2 in Hy.
    by destruct (m !! u).
Qed.

Lemma take_offer_closer (verbose : bool) (old_dist : dist_t) (st : round_state)
    (o : offer) :
  below old_dist st -> through old_dist o -> closer st ->
  closer (take_offer verbose st o).
Proof.
  intros Hb (a & Ha & Hle) Hcl. unfold take_offer.
  destruct (lookup2 (st_dist st) (o_u o) (o_dest o)) as [cur|] eqn:Hcur; [|done].
  destruct (Z.ltb_spec (o_via o) cur) as [Hlt|_]; [|done].
  destruct (Hb _ _ _ Ha) as (cn & Hcn & Hlen).
  intros v d u cv cu. cbn [st_dist st_next].
  intros [(-> & -> & [= ->])|[Hvd Hnext]]%lookup2_store2_Some
         [(Hv & Hd & ->)|[Hvd' Hcv]]%lookup2_store2_Some
         [(Hu & Hd' & ->)|[Hud Hcu]]%lookup2_store2_Some;
    try tauto; try lia.
  - rewrite Hcn in Hcu. injection Hcu as <-. lia.
  - subst. pose proof (Hcl _ _ _ _ _ Hnext Hcv Hcur). lia.
  - by eapply Hcl.
Qed.

Lemma fold_offers_closer (verbose : bool) (old_dist : dist_t)
    (os : list offer) (st : round_state) :
  (forall o, o ∈ os -> through old_dist o) ->
  below old_dist st -> closer st ->
  closer (fold_left (take_offer verbose) os st).
Proof.
  revert st. induction os as [|o os IH]; intros st Hos Hb Hcl; [done|].
  cbn [fold_left]. apply IH.
  - intros o' Ho'. apply Hos. by right.
  - by apply take_offer_below.
  - apply (take_offer_closer verbose old_dist); [done| |done].
    apply Hos. by left.
Qed.

Lemma Forall2_flat_map_ext {A B C : Type} (R : B -> C -> Prop)
    (f : A -> list B) (g : A -> list C) (l : list A) :
  (forall x, x ∈ l -> Forall2 R (f x) (g x)) ->
  Forall2 R (flat_map f l) (flat_map g l).
Proof.
  induction l as [|x l IH]; intros Hfg; [constructor|].
  cbn [flat_map]. apply Forall2_app.
  - apply Hfg. by left.
  - apply IH. intros y Hy. apply Hfg. by right.
Qed.

Lemma Forall2_map_ext {A B C : Type} (R : B -> C -> Prop)
    (f : A -> B) (g : A -> C) (l : list A) :
  (forall x, x ∈ l -> R (f x) (g x)) -> Forall2 R (map f l) (map g l).
Proof.
  induction l as [|x l IH]; intros Hfg; [constructor|].
  cbn [map]. constructor.
  - apply Hfg. by left.
  - apply IH. intros y Hy. apply Hfg. by right.
Qed.

Section Poison.

Variables (nodes : list node) (neighbors : neighbors_t).
Hypothesis Hnb : wf_neighbors nodes neighbors.
Hypothesis Hcost :
  forall u row v c, neighbors !! u = Some row -> (v, c) ∈ row -> 0 <= c.

(** Without poisoned reverse every offer costs at least what the
    neighbor held. *)
Lemma offers_through (old_dist : dist_t) (old_next : next_t) (o : offer) :
  wf_table nodes old_dist ->
  o ∈ offers nodes neighbors false old_dist old_next -> through old_dist o.
Proof.
  intros Hod Ho. unfold offers in Ho.
  apply list_elem_of_In, in_flat_map in Ho as (u & Hu & Ho).
  apply in_flat_map in Ho as ([v c] & Hv & Ho).
  apply list_elem_of_In in Hu, Hv.
  destruct (Hnb u Hu) as (row & Hrow & Hrows). rewrite Hrow in Hv.
  cbn [from_option id] in Hv. pose proof (Hcost u row v c Hrow Hv) as Hc.
  pose proof (Hrows v c Hv) as Hvn.
  unfold offers_from in Ho. cbn [fst snd] in Ho.
  destruct (lookup2 old_dist u v) as [d_uv|]; [|done].
  destruct (INF <=? d_uv); [done|].
  apply in_map_iff in Ho as (dest & <- & Hdest%list_elem_of_In).
  unfold through. cbn [o_v o_dest o_via].
  destruct (Hod v dest Hvn Hdest) as [a Ha]. exists a. split; [done|].
  unfold candidate, advertised_cost. rewrite Ha. cbn. lia.
Qed.

(** From a snapshot in which costs are between 0 and [INF] and next hops
    are closer, the offers with and without poisoned reverse differ only by
    dead ones. *)
Lemma offers_poison (old_dist : dist_t) (old_next : next_t) :
  wf_table nodes old_dist -> wf_table nodes old_next ->
  (forall u d c, lookup2 old_dist u d = Some c -> c <= INF) ->
  closer (RoundState old_dist old_next false []) ->
  Forall2 (fun o o' => o = o' \/ (dead old_dist o /\ dead old_dist o'))
    (offers nodes neighbors true old_dist old_next)
    (offers nodes neighbors false old_dist old_next).
Proof.
  intros Hod Hon Hinf Hcl. unfold offers.
  apply Forall2_flat_map_ext. intros u Hu.
  destruct (Hnb u Hu) as (row & Hrow & Hrows). rewrite Hrow.
  cbn [from_option id].
  apply Forall2_flat_map_ext. intros [v c] Hv.
  pose proof (Hcost u row v c Hrow Hv) as Hc.
  pose proof (Hrows v c Hv) as Hvn.
  unfold offers_from. cbn [fst snd].
  destruct (lookup2 old_dist u v) as [d_uv|]; [|constructor].
  destruct (INF <=? d_uv); [constructor|].
  apply Forall2_map_ext. intros dest Hdest.
  unfold advertised_cost.
  destruct (Hod v dest Hvn Hdest) as [cv Hcv].
  destruct (Hon v dest Hvn Hdest) as [nh Hnh].
  destruct (Hod u dest Hu Hdest) as [cu Hcu].
  rewrite Hcv, Hnh. cbn [from_option id].
  destruct (decide (nh = Some u)) as [->|Hne]; [|by left].
  right. unfold dead, candidate. cbn [o_u o_dest o_via].
  split; exists cu; (split; [done|]).
  - pose proof (Hinf _ _ _ Hcu). lia.
  - pose proof (Hcl v dest u cv cu Hnh Hcv Hcu). lia.
Qed.

End Poison.

Lemma below_refl (st : round_state) : below (st_dist st) st.
Proof. intros x d c Hc. exists c. split; [done | lia]. Qed.

Section Valid.

Variables (nodes : list node) (edges : list (node * node * Z)).
Variables (nb : neighbors_t) (d0 : dist_t) (n0 : next_t).
Hypothesis Hinit : init_tables nodes edges = Ret (nb, d0, n0).
(** Links join two distinct nodes at a cost between 0 and [INF]. *)
Hypothesis Hvalid :
  forall u v c, (u, v, c) ∈ edges -> u <> v /\ 0 <= c <= INF.

Lemma valid_rows (u : node) (row : list (node * Z)) (v : node) (c : Z) :
  nb !! u = Some row -> (v, c) ∈ row -> u <> v /\ 0 <= c <= INF.
Proof.
  intros Hrow Hin.
  destruct (init_tables_row_link _ _ _ _ _ _ _ _ _ Hinit Hrow Hin) as [H|H];
    apply Hvalid in H as [? ?]; split; congruence || lia.
Qed.

Lemma valid_cost (u : node) (row : list (node * Z)) (v : node) (c : Z) :
  nb !! u = Some row -> (v, c) ∈ row -> 0 <= c.
Proof. intros Hrow Hin. destruct (valid_rows u row v c Hrow Hin). lia. Qed.

(** The initial tables: no negative cost, the self routes, no cost above
    [INF], and next hops that are closer. *)
Lemma init_tables_good :
  self_routes nodes (RoundState d0 n0 false [])
  /\ bounded (RoundState d0 n0 false [])
  /\ closer (RoundState d0 n0 false []).
Proof.
  pose proof (init_tables_entries _ _ _ _ _ Hinit) as (Hrows & Hentries).
  assert (Hget : forall u d c, u ∈ nodes ->
            dict_get d (stores (incident u edges) []) = Some c ->
            u <> d /\ 0 <= c <= INF).
  { intros u d c Hu Hg.
    apply dict_get_Some in Hg; [|apply stores_NoDup, NoDup_nil_2].
    pose proof (Hrows u) as Hrow. rewrite decide_True in Hrow by done.
    by apply (valid_rows u _ d c Hrow). }
  assert (Hself : self_routes nodes (RoundState d0 n0 false [])).
  { split; cbn [st_dist st_next].
    - intros u d c. destruct (Hentries u d) as [-> _].
      destruct (decide (u ∈ nodes /\ d ∈ nodes)) as [[Hu Hd]|]; [|done].
      intros [= <-]. unfold init_entry.
      destruct (dict_get d _) as [c|] eqn:Hg.
      + destruct (Hget u d c Hu Hg). lia.
      + destruct (decide (d = u)); [lia | by compute].
    - intros u Hu. destruct (Hentries u u) as [-> ->].
      rewrite !decide_True by done. unfold init_entry.
      destruct (dict_get u _) as [c|] eqn:Hg.
      + by destruct (Hget u u c Hu Hg).
      + by rewrite !decide_True. }
  split; [done|]. split.
  - intros u d c. cbn [st_dist]. destruct (Hentries u d) as [-> _].
    destruct (decide (u ∈ nodes /\ d ∈ nodes)) as [[Hu Hd]|]; [|done].
    intros [= <-]. unfold init_entry.
    destruct (dict_get d _) as [c|] eqn:Hg.
    + destruct (Hget u d c Hu Hg). lia.
    + destruct (decide (d = u)); by compute.
  - intros v d u cv cu. cbn [st_dist st_next]. intros Hnext Hcv Hcu.
    destruct (Hentries v d) as [_ Hn]. rewrite Hn in Hnext.
    destruct (decide (v ∈ nodes /\ d ∈ nodes)) as [[Hv Hd]|]; [|done].
    injection Hnext as Hnext. unfold init_entry in Hnext.
    destruct Hself as [Hge Hzero]. cbn [st_dist st_next] in Hge, Hzero.
    destruct (dict_get d _) as [c|] eqn:Hg.
    + injection Hnext as <-. destruct (Hzero d Hd) as [Hdd _].
      rewrite Hdd in Hcu. injection Hcu as <-. by eapply Hge.
    + destruct (decide (d = v)) as [->|]; [|done].
      injection Hnext as <-. rewrite Hcv in Hcu. injection Hcu as <-. lia.
Qed.

(** These properties hold after every round run without poisoned reverse. *)
Lemma tables_after_good (k : nat) :
  exists st,
    tables_after k nodes nb false d0 n0 = Ret st
    /\ wf_state nodes st
    /\ self_routes nodes st /\ bounded st /\ closer st.
Proof.
  destruct (init_tables_wf _ _ _ _ _ Hinit) as (Hnb & Hd0 & Hn0).
  induction k as [|k (st & Hst & Hwf & Hself & Hbound & Hcl)].
  - eexists. split; [reflexivity|]. split; [by split|]. apply init_tables_good.
  - eexists. split; [by apply tables_after_step|].
    set (os := offers nodes nb false (st_dist st) (st_next st)).
    set (st1 := RoundState (st_dist st) (st_next st) false []).
    assert (Hb : below (st_dist st) st1) by apply (below_refl st1).
    split; [by apply wf_state_fold_offers|]. split; [|split].
    + apply (fold_offers_self_routes nodes); [|exact Hself].
      intros o Ho. eapply (offers_nonneg nodes nb valid_cost); [|exact Ho].
      apply Hself.
    + intros u d c. rewrite fold_offers_best. unfold st1. cbn [st_dist].
      destruct (lookup2 (st_dist st) u d) as [c0|] eqn:Hc0; cbn;
        [|discriminate].
      intros [= <-]. pose proof (best_le os u d c0).
      pose proof (Hbound u d c0 Hc0). lia.
    + apply (fold_offers_closer false (st_dist st)); [|done|exact Hcl].
      intros o Ho. apply (offers_through nodes nb Hnb valid_cost _ (st_next st));
        [apply Hwf | exact Ho].
Qed.

(** Poisoned reverse changes the tables of no round. *)
Lemma tables_after_poison (k : nat) :
  tables_after k nodes nb true d0 n0 = tables_after k nodes nb false d0 n0.
Proof.
  destruct (init_tables_wf _ _ _ _ _ Hinit) as (Hnb & Hd0 & Hn0).
  induction k as [|k IH]; [done|].
  destruct (tables_after_good k) as (st & Hst & Hwf & Hself & Hbound & Hcl).
  rewrite (tables_after_step nodes nb false d0 n0 Hnb Hd0 Hn0 k st Hst).
  rewrite Hst in IH.
  rewrite (tables_after_step nodes nb true d0 n0 Hnb Hd0 Hn0 k st IH).
  f_equal. apply (fold_offers_dead false (st_dist st)).
  - apply (offers_poison nodes nb Hnb valid_cost); [apply Hwf..|exact Hbound|].
    exact Hcl.
  - apply (below_refl (RoundState (st_dist st) (st_next st) false [])).
Qed.

End Valid.

Lemma pair_keys_distinct (edges : list (node * node * Z)) (u v : node) (c : Z) :
  NoDup (pair_keys edges) -> (u, v, c) ∈ edges -> u <> v.
Proof.
  induction edges as [|[[a b] c0] edges IH]; intros Hnd Hin.
  - by apply elem_of_nil in Hin.
  - cbn [pair_keys flat_map app] in Hnd.
    apply NoDup_cons in Hnd as [Hab Hnd]. apply NoDup_cons in Hnd as [_ Hnd].
    apply elem_of_cons in Hin as [[= -> -> ->]|Hin]; [|by apply IH].
    intros ->. apply Hab. by left.
Qed.

(** On links of cost between 0 and [INF] that join distinct nodes, a run
    with poisoned reverse ends as the run without it: same tables, same
    number of rounds, same way out. *)
Lemma run_poison (nodes : list node) (edges : list (node * node * Z))
    (nb : neighbors_t) (d0 : dist_t) (n0 : next_t) (verbose : bool) :
  init_tables nodes edges = Ret (nb, d0, n0) ->
  (forall u v c, (u, v, c) ∈ edges -> u <> v /\ 0 <= c <= INF) ->
  exists r rf,
    dv_loop 51 nodes nb true verbose 0 d0 n0 [] = Ret r
    /\ dv_loop 51 nodes nb false verbose 0 d0 n0 [] = Ret rf
    /\ run_dist r = run_dist rf /\ run_next r = run_next rf
    /\ run_iteration r = run_iteration rf /\ run_exit r = run_exit rf.
Proof.
  intros Hinit Hvalid.
  destruct (init_tables_wf _ _ _ _ _ Hinit) as (Hnb & Hd0 & Hn0).
  destruct (runs_agree nodes nodes nb nb true false d0 d0 n0 n0
              Hnb Hd0 Hn0 Hnb Hd0 Hn0) with (verbose := verbose)
              (verbose' := verbose)
    as (r & rf & st & st' & Hr & Hrf & Hit & Hex & Hst & Hst' & Hd & Hn
        & Hd' & Hn').
  { intros k st st' Hst Hst'.
    rewrite (tables_after_poison nodes edges nb d0 n0 Hinit Hvalid) in Hst.
    rewrite Hst in Hst'. by injection Hst' as <-. }
  rewrite (tables_after_poison nodes edges nb d0 n0 Hinit Hvalid) in Hst.
  rewrite Hst in Hst'. injection Hst' as <-.
  exists r, rf. split; [done|]. split; [done|].
  split; [congruence|]. split; [congruence|]. done.
Qed.




(** * The theorems at work on the triangle *)


Lemma candidate_infinity_witness :
  candidate 1 INF = 1 + INF
  /\ INF <= candidate 1 INF
  /\ relax_dest false tri_dist "A"%string "B"%string 1
       {[ "C"%string := INF ]} "C"%string
       (RoundState tri_dist tri_next false [])
     = Ret (RoundState tri_dist tri_next false []).
Proof.
  apply (candidate_infinity false tri_dist "A"%string "B"%string 1
           {[ "C"%string := INF ]} "C"%string
           (RoundState tri_dist tri_next false []) 2).
  - lia.
  - vm_compute. reflexivity.
  - vm_compute. eexists. reflexivity.
  - vm_compute. reflexivity.
  - vm_compute. discriminate.
Defined.

Lemma tri_edges_valid :
  forall u v c, (u, v, c) ∈ tri_edges -> u <> v /\ 0 <= c.
Proof.
  intros u v c Hin. in_list Hin; injection Hin as -> -> ->;
    (split; [discriminate | lia]).
Defined.

Lemma self_route_invariant_witness :
  exists neighbors dist0 next0,
    init_tables tri_nodes tri_edges = Ret (neighbors, dist0, next0)
    /\ exists st,
         tables_after 2 tri_nodes neighbors true dist0 next0 = Ret st
         /\ forall u, u ∈ tri_nodes ->
              lookup2 (st_dist st) u u = Some 0
              /\ lookup2 (st_next st) u u = Some (Some u).
Proof.
  eexists _, _, _. split; [vm_compute; reflexivity|].
  destruct (self_route_invariant tri_nodes tri_edges true false _ _ _ 2
              ltac:(vm_compute; reflexivity) tri_edges_valid)
    as (st & Hst & Hself & _).
  exists st. split; [exact Hst | exact Hself].
Defined.

Lemma cost_nonincreasing_witness :
  exists neighbors dist0 next0,
    init_tables tri_nodes tri_edges = Ret (neighbors, dist0, next0)
    /\ (1 <= 2)%nat
    /\ exists st_i st_j,
         tables_after 1 tri_nodes neighbors true dist0 next0 = Ret st_i
         /\ tables_after 2 tri_nodes neighbors true dist0 next0 = Ret st_j
         /\ forall u d, u ∈ tri_nodes -> d ∈ tri_nodes ->
              exists c_i c_j,
                lookup2 (st_dist st_i) u d = Some c_i
                /\ lookup2 (st_dist st_j) u d = Some c_j
                /\ c_j <= c_i.
Proof.
  eexists _, _, _. split; [vm_compute; reflexivity|]. split; [lia|].
  apply (cost_nonincreasing tri_nodes tri_edges true _ _ _ 1 2);
    [vm_compute; reflexivity | lia].
Defined.

Lemma distance_vector_output_witness :
  exists r,
    distance_vector_run 51 tri_nodes tri_edges true true = Ret r
    /\ distance_vector_fuel 51 tri_nodes tri_edges true true
       = Ret (run_dist r, run_next r)
    /\ distance_vector_observed 51 tri_nodes tri_edges true true
       = Ret (run_dist r, run_next r, run_stdout r)
    /\ (true = false -> run_stdout r = [])
    /\ (true = true ->
        last (run_stdout r) = Some (exit_event (run_exit r))
        /\ List.filter is_header (run_stdout r)
           = map PrintIteration (seq 1 (run_iteration r))).
Proof.
  eexists. split; [vm_compute; reflexivity|].
  apply (distance_vector_output 51 tri_nodes tri_edges true true).
  vm_compute. reflexivity.
Defined.


(** * Character stuffing *)

Lemma char_stuff_loop (data out : pybytes) :
  fold_left char_stuff_step data out = out ++ flat_map stuffed_byte data.
Proof.
  revert out. induction data as [|b data IH]; intros out.
  - cbn. by rewrite app_nil_r.
  - cbn [fold_left flat_map]. rewrite IH. unfold char_stuff_step, stuffed_byte.
    destruct (N.eqb b FLAG || N.eqb b ESC); by rewrite <- !app_assoc.
Qed.

Lemma char_stuff_frame (data : pybytes) :
  char_stuff data = FLAG :: flat_map stuffed_byte data ++ [FLAG].
Proof. unfold char_stuff. by rewrite char_stuff_loop. Qed.

(** The loop of the receiver, given enough turns, follows [char_unstuff_rec]. *)
Lemma char_unstuff_loop_rec (fuel : nat) (inner : pybytes) (i : nat)
    (out : pybytes) :
  (length inner - i < fuel)%nat ->
  char_unstuff_loop fuel inner i out
  = let* rest := char_unstuff_rec (drop i inner) in Ret (out ++ rest).
Proof.
  revert i out. induction fuel as [|fuel IH]; intros i out Hfuel; [lia|].
  cbn [char_unstuff_loop].
  destruct (inner !! i) as [b|] eqn:Hb.
  - pose proof (lookup_lt_Some _ _ _ Hb) as Hi.
    rewrite (drop_S _ _ _ Hb). cbn [char_unstuff_rec].
    destruct (N.eqb b ESC).
    + replace (S i) with (i + 1)%nat by lia.
      destruct (inner !! (i + 1)%nat) as [e|] eqn:He.
      * rewrite (drop_S _ _ _ He). rewrite IH by lia.
        replace (S (i + 1)) with (i + 2)%nat by lia.
        destruct (char_unstuff_rec (drop (i + 2) inner)); cbn [bind]; [|done..].
        by rewrite <- app_assoc.
      * apply lookup_ge_None in He. by rewrite drop_ge by lia.
    + rewrite IH by lia. replace (i + 1)%nat with (S i) by lia.
      destruct (char_unstuff_rec (drop (S i) inner)); cbn [bind]; [|done..].
      by rewrite <- app_assoc.
  - apply lookup_ge_None in Hb. rewrite drop_ge by lia. cbn.
    by rewrite app_nil_r.
Qed.

Lemma char_unstuff_rec_cons2 (b e : N) (rest : pybytes) :
  char_unstuff_rec (b :: e :: rest)
  = if N.eqb b ESC
    then let* out := char_unstuff_rec rest in Ret (N.lxor e ESC_MASK :: out)
    else let* out := char_unstuff_rec (e :: rest) in Ret (b :: out).
Proof. reflexivity. Qed.

Lemma char_unstuff_rec_total (rest : pybytes) :
  char_unstuff_rec rest <> Timeout.
Proof.
  induction rest as [rest IH] using (induction_ltof1 _ (@length N)).
  unfold ltof in IH. destruct rest as [|b [|e rest]].
  - done.
  - cbn. destruct (N.eqb b ESC); done.
  - rewrite char_unstuff_rec_cons2. destruct (N.eqb b ESC).
    + specialize (IH rest ltac:(cbn; lia)).
      destruct (char_unstuff_rec rest); done.
    + specialize (IH (e :: rest) ltac:(cbn; lia)).
      destruct (char_unstuff_rec (e :: rest)); done.
Qed.

Lemma char_unstuff_rec_stuffed (data : pybytes) :
  char_unstuff_rec (flat_map stuffed_byte data) = Ret data.
Proof.
  induction data as [|b data IH]; [done|].
  cbn [flat_map]. unfold stuffed_byte at 1.
  destruct (N.eqb b FLAG || N.eqb b ESC) eqn:Hesc.
  - cbn [app char_unstuff_rec]. rewrite N.eqb_refl, IH. cbn [bind].
    by rewrite N.lxor_assoc, N.lxor_nilpotent, N.lxor_0_r.
  - cbn [app char_unstuff_rec]. apply orb_false_elim in Hesc as [_ ->].
    by rewrite IH.
Qed.

Lemma char_unstuff_framed (inner : pybytes) :
  char_unstuff (FLAG :: inner ++ [FLAG]) = char_unstuff_rec inner.
Proof.
  unfold char_unstuff, char_unstuff_fuel.
  assert (Hlen : length (FLAG :: inner ++ [FLAG]) = S (S (length inner))).
  { cbn. rewrite length_app. cbn. lia. }
  rewrite Hlen. cbn [Nat.ltb Nat.leb orb].
  assert (Hlast : last (FLAG :: inner ++ [FLAG]) = Some FLAG).
  { by rewrite app_comm_cons, last_snoc. }
  rewrite Hlast. cbn [lookup list_lookup].
  rewrite !bool_decide_eq_true_2 by done. cbn [negb orb].
  assert (Hslice : slice (FLAG :: inner ++ [FLAG]) 1 (S (S (length inner)) - 1)
                   = inner).
  { unfold slice. cbn [drop]. rewrite drop_0.
    replace (S (S (length inner)) - 1 - 1)%nat with (length inner) by lia.
    by rewrite take_app_length. }
  rewrite Hslice, char_unstuff_loop_rec by (cbn; lia).
  rewrite drop_0. destruct (char_unstuff_rec inner); done.
Qed.

(** X1.  Un-stuffing a stuffed frame gives the bytes back:
    [char_unstuff(char_stuff(data)) = data], for every [data]. *)
Theorem char_unstuff_char_stuff (data : pybytes) :
  char_unstuff (char_stuff data) = Ret data.
Proof.
  rewrite char_stuff_frame, char_unstuff_framed.
  apply char_unstuff_rec_stuffed.
Qed.

Lemma stuffed_byte_no_flag (b : N) : Forall (fun x => x <> FLAG) (stuffed_byte b).
Proof.
  unfold stuffed_byte.
  destruct (N.eqb_spec b FLAG) as [->|Hf]; cbn [orb].
  - repeat constructor; by compute.
  - destruct (N.eqb_spec b ESC) as [->|He].
    + repeat constructor; by compute.
    + by repeat constructor.
Qed.

Lemma stuffed_byte_length (b : N) :
  (1 <= length (stuffed_byte b) <= 2)%nat.
Proof. unfold stuffed_byte. destruct (_ || _); cbn; lia. Qed.

(** X2.  A frame built by [char_stuff] starts and ends with the flag byte
    and has no flag byte in between; it has between [len(data) + 2] and
    [2 * len(data) + 2] bytes. *)
Theorem char_stuff_transparent (data : pybytes) :
  exists inner,
    char_stuff data = FLAG :: inner ++ [FLAG]
    /\ Forall (fun x => x <> FLAG) inner
    /\ (length data + 2 <= length (char_stuff data) <= 2 * length data + 2)%nat.
Proof.
  exists (flat_map stuffed_byte data). split; [apply char_stuff_frame|]. split.
  - induction data as [|b data IH]; [constructor|].
    cbn [flat_map]. apply Forall_app. split; [apply stuffed_byte_no_flag | done].
  - rewrite char_stuff_frame. cbn [length]. rewrite length_app. cbn [length].
    induction data as [|b data IH]; [cbn; lia|].
    cbn [flat_map length]. rewrite length_app.
    pose proof (stuffed_byte_length b). lia.
Qed.

(** X3.  [char_unstuff] always ends: it returns or raises on every frame.
    It raises the flag error on a frame shorter than two bytes, and on a
    frame whose first or last byte is not the flag. *)
Theorem char_unstuff_rejects (frame : pybytes) :
  char_unstuff frame <> Timeout
  /\ ((length frame < 2)%nat \/ frame !! 0%nat <> Some FLAG
      \/ last frame <> Some FLAG ->
      char_unstuff frame
      = Raise (ValueError "Frame missing start/end FLAG byte")).
Proof.
  split.
  - unfold char_unstuff, char_unstuff_fuel.
    destruct (_ || _ || _); [done|].
    rewrite char_unstuff_loop_rec.
    + pose proof (char_unstuff_rec_total
                    (drop 0 (slice frame 1 (length frame - 1)))) as Htot.
      destruct (char_unstuff_rec _); done.
    + unfold slice. rewrite length_take, length_drop. lia.
  - intros Hbad. unfold char_unstuff, char_unstuff_fuel.
    destruct (Nat.ltb_spec (length frame) 2) as [_|Hlen]; [done|].
    cbn [orb].
    destruct Hbad as [Hbad|[Hbad|Hbad]]; [lia| |].
    + by rewrite (bool_decide_eq_false_2 _ Hbad).
    + rewrite (bool_decide_eq_false_2 _ Hbad). cbn [negb].
      by rewrite orb_true_r.
Qed.

Lemma char_unstuff_rec_app (l1 l2 out : pybytes) :
  char_unstuff_rec l1 = Ret out ->
  char_unstuff_rec (l1 ++ l2)
  = let* rest := char_unstuff_rec l2 in Ret (out ++ rest).
Proof.
  revert out. induction l1 as [l1 IH] using (induction_ltof1 _ (@length N)).
  unfold ltof in IH. intros out Hout.
  destruct l1 as [|b [|e l1]].
  - cbn in Hout. injection Hout as <-. cbn. by destruct (char_unstuff_rec l2).
  - cbn in Hout. destruct (N.eqb b ESC) eqn:Hb; [done|].
    injection Hout as <-. cbn [app]. destruct l2 as [|x l2].
    + cbn. by rewrite Hb.
    + rewrite char_unstuff_rec_cons2, Hb.
      by destruct (char_unstuff_rec (x :: l2)).
  - rewrite char_unstuff_rec_cons2 in Hout. cbn [app].
    rewrite char_unstuff_rec_cons2.
    destruct (N.eqb b ESC).
    + destruct (char_unstuff_rec l1) as [o| |] eqn:Ho; try discriminate.
      injection Hout as <-.
      rewrite (IH l1 ltac:(cbn; lia) o Ho).
      by destruct (char_unstuff_rec l2).
    + destruct (char_unstuff_rec (e :: l1)) as [o| |] eqn:Ho; try discriminate.
      injection Hout as <-.
      change (e :: l1 ++ l2) with ((e :: l1) ++ l2).
      rewrite (IH (e :: l1) ltac:(cbn; lia) o Ho).
      by destruct (char_unstuff_rec l2).
Qed.

(** X4.  An escape byte with nothing after it but the closing flag makes
    [char_unstuff] raise: when a frame is accepted, the same frame with an
    [ESC] put right before its closing flag is refused as malformed. *)
Theorem char_unstuff_esc_at_end (inner out : pybytes) :
  char_unstuff (FLAG :: inner ++ [FLAG]) = Ret out ->
  char_unstuff (FLAG :: (inner ++ [ESC]) ++ [FLAG])
  = Raise (ValueError "Malformed frame: ESC at end").
Proof.
  rewrite !char_unstuff_framed. intros Hout.
  by rewrite (char_unstuff_rec_app inner [ESC] out Hout).
Qed.

Lemma char_unstuff_esc_at_end_witness :
  char_unstuff (FLAG :: [65; ESC; 94]%N ++ [FLAG]) = Ret [65; 126]%N
  /\ char_unstuff (FLAG :: ([65; ESC; 94]%N ++ [ESC]) ++ [FLAG])
     = Raise (ValueError "Malformed frame: ESC at end").
Proof.
  assert (H : char_unstuff (FLAG :: [65; ESC; 94]%N ++ [FLAG]) = Ret [65; 126]%N)
    by (vm_compute; reflexivity).
  split; [exact H | exact (char_unstuff_esc_at_end _ _ H)].
Defined.

(** * Bit stuffing: the frame *)

Lemma stuff_rec_no_six (bits : pystr) (count_ones : nat) :
  (count_ones < 5)%nat ->
  no_six_ones (stuff_rec bits count_ones) count_ones = true.
Proof.
  revert count_ones. induction bits as [|bit rest IH]; intros c Hc; [done|].
  cbn [stuff_rec]. destruct (N.eqb bit chr1) eqn:Hbit.
  - destruct (Nat.eqb_spec (c + 1) 5) as [H5|H5].
    + cbn [no_six_ones]. rewrite Hbit. cbn [N.eqb chr0 chr1 Pos.eqb].
      rewrite IH by lia. rewrite andb_true_r. apply Nat.ltb_lt. lia.
    + cbn [no_six_ones]. rewrite Hbit, IH by lia. rewrite andb_true_r.
      apply Nat.ltb_lt. lia.
  - cbn [no_six_ones]. rewrite Hbit. apply IH. lia.
Qed.

Lemma no_six_ones_suffix (l1 l2 : pystr) (run : nat) :
  no_six_ones (l1 ++ l2) run = true -> exists run', no_six_ones l2 run' = true.
Proof.
  revert run. induction l1 as [|b l1 IH]; intros run H; [by exists run|].
  cbn [app no_six_ones] in H. destruct (N.eqb b chr1).
  - apply andb_prop in H as [_ H]. by eapply IH.
  - by eapply IH.
Qed.

Lemma no_six_ones_run (k : nat) (l : pystr) (run : nat) :
  no_six_ones (replicate k chr1 ++ l) run = true -> (k = 0 \/ run + k < 6)%nat.
Proof.
  revert run. induction k as [|k IH]; intros run H; [by left|]. right.
  cbn [replicate app no_six_ones] in H. rewrite N.eqb_refl in H.
  apply andb_prop in H as [Hlt H]. apply Nat.ltb_lt in Hlt.
  destruct (IH _ H) as [->|Hk]; lia.
Qed.

(** X5.  Transparency of bit stuffing: between its two flags a frame built
    by [bit_stuff] never has six ['1'] in a row, whatever the message; so the
    flag pattern, which has six, cannot show up inside the stuffed bits. *)
Theorem bit_stuff_no_six_ones (s : pystr) :
  exists inner,
    bit_stuff s = FLAG_BITS ++ inner ++ FLAG_BITS
    /\ (forall l1 l2, inner <> l1 ++ replicate 6 chr1 ++ l2)
    /\ (forall l1 l2, inner <> l1 ++ FLAG_BITS ++ l2).
Proof.
  exists (stuff_rec (to_bits s) 0). split; [apply bit_stuff_frame|].
  assert (Hsix : forall l1 l2,
            stuff_rec (to_bits s) 0 <> l1 ++ replicate 6 chr1 ++ l2).
  { intros l1 l2 Heq.
    pose proof (stuff_rec_no_six (to_bits s) 0 ltac:(lia)) as Hno.
    rewrite Heq in Hno. apply no_six_ones_suffix in Hno as [run Hno].
    apply no_six_ones_run in Hno. lia. }
  split; [done|]. intros l1 l2 Heq.
  apply (Hsix (l1 ++ [chr0]) (chr0 :: l2)). rewrite Heq.
  by rewrite <- app_assoc.
Qed.

Lemma stuff_rec_length (bits : pystr) (count_ones : nat) :
  (length bits <= length (stuff_rec bits count_ones))%nat
  /\ (5 * length (stuff_rec bits count_ones)
      <= 6 * length bits + count_ones)%nat.
Proof.
  revert count_ones. induction bits as [|bit rest IH]; intros c; [cbn; lia|].
  cbn [stuff_rec]. destruct (N.eqb bit chr1).
  - destruct (Nat.eqb_spec (c + 1) 5) as [H5|H5].
    + destruct (IH 0%nat). cbn [length]. lia.
    + destruct (IH (c + 1)%nat). cbn [length]. lia.
  - destruct (IH 0%nat). cbn [length]. lia.
Qed.

(** X6.  Size of a frame: the two flags, the eight bits of every character
    and at most one stuffed bit for every five of those bits. *)
Theorem bit_stuff_length (s : pystr) :
  Forall (fun c => (c < 256)%N) s ->
  (16 + 8 * length s <= length (bit_stuff s))%nat
  /\ (5 * (length (bit_stuff s) - 16 - 8 * length s) <= 8 * length s)%nat.
Proof.
  intros Hs. rewrite bit_stuff_frame, !length_app.
  pose proof (stuff_rec_length (to_bits s) 0) as [Hlo Hhi].
  rewrite to_bits_length in Hlo, Hhi by done.
  change (length FLAG_BITS) with 8%nat. lia.
Qed.

Lemma bit_stuff_length_witness :
  Forall (fun c => (c < 256)%N) [255; 255]%N
  /\ (16 + 8 * length [255; 255]%N <= length (bit_stuff [255; 255]%N))%nat
  /\ (5 * (length (bit_stuff [255; 255]%N) - 16 - 8 * length [255; 255]%N)
      <= 8 * length [255; 255]%N)%nat.
Proof.
  assert (H : Forall (fun c => (c < 256)%N) [255; 255]%N) by (repeat constructor).
  split; [exact H | exact (bit_stuff_length _ H)].
Defined.

(** The receiver undoes the stuffing of every message, also of one that
    [to_bits] does not encode on eight bits a character. *)
Lemma bit_unstuff_bit_stuff_bits (s : pystr) :
  bit_unstuff (bit_stuff s) = from_bits (to_bits s).
Proof.
  unfold bit_unstuff, bit_unstuff_fuel.
  rewrite bit_stuff_frame, startswith_frame.
  rewrite (app_assoc FLAG_BITS), endswith_frame, <- app_assoc.
  cbn [andb negb]. rewrite slice_frame, unstuff_loop_fuel.
  - cbn [bind]. by rewrite unstuff_stuff_rec.
  - rewrite !length_app. lia.
Qed.

Lemma pos_bin_bound (p : positive) :
  (N.pos p < 2 ^ N.of_nat (length (pos_bin p)))%N.
Proof.
  induction p as [q IH|q IH|]; cbn [pos_bin].
  - rewrite length_app. cbn [length]. rewrite Nat.add_1_r, Nat2N.inj_succ.
    rewrite N.pow_succ_r'. lia.
  - rewrite length_app. cbn [length]. rewrite Nat.add_1_r, Nat2N.inj_succ.
    rewrite N.pow_succ_r'. lia.
  - by compute.
Qed.

Lemma format_08b_long (n : N) :
  (8 <= length (format_08b n))%nat
  /\ ((256 <= n)%N -> (9 <= length (format_08b n))%nat).
Proof.
  unfold format_08b. rewrite length_app, length_replicate. split; [lia|].
  intros Hn. destruct n as [|p]; [lia|]. cbn [bin].
  pose proof (pos_bin_bound p) as Hb.
  destruct (Nat.le_gt_cases 9 (length (pos_bin p))) as [Hlen|Hlen]; [lia|].
  exfalso.
  assert (Hpow : (2 ^ N.of_nat (length (pos_bin p)) <= 2 ^ 8)%N).
  { apply N.pow_le_mono_r; lia. }
  change (2 ^ 8)%N with 256%N in Hpow. lia.
Qed.

Lemma to_bits_long (s : pystr) :
  (8 * length s <= length (to_bits s))%nat
  /\ (Exists (fun c => (256 <= c)%N) s ->
      (8 * length s < length (to_bits s))%nat).
Proof.
  induction s as [|c s [IHlo IHhi]]; [split; [cbn; lia|by intros ?%Exists_nil]|].
  rewrite to_bits_cons, length_app. cbn [length].
  destruct (format_08b_long c) as [H8 H9]. split; [lia|].
  intros [Hc|Hs]%Exists_cons; [specialize (H9 Hc); lia|].
  specialize (IHhi Hs). lia.
Qed.

Lemma decode_chars_length (chars : list pystr) (out : pystr) :
  decode_chars chars = Ret out -> length out = length chars.
Proof.
  revert out. induction chars as [|byte chars IH]; intros out.
  - intros [= <-]. done.
  - cbn [decode_chars]. destruct (int_base2 byte); cbn [bind]; try done.
    destruct (chr a); cbn [bind]; try done.
    destruct (decode_chars chars) as [cs| |]; cbn [bind]; try done.
    intros [= <-]. cbn. f_equal. by apply IH.
Qed.

(** What [from_bits] returns has one character for every eight bits. *)
Lemma from_bits_length (b out : pystr) :
  from_bits b = Ret out -> length b = (8 * length out)%nat.
Proof.
  unfold from_bits. destruct (Nat.eqb_spec (length b mod 8) 0) as [Hmod|Hmod];
    cbn [negb]; [|done].
  intros Hout%decode_chars_length.
  rewrite length_map in Hout. unfold range_step in Hout.
  rewrite length_map, length_seq in Hout. rewrite Hout.
  pose proof (Nat.div_mod_eq (length b) 8) as Hdiv.
  replace ((length b + 8 - 1) / 8)%nat with (length b / 8)%nat; [lia|].
  apply (Nat.div_unique _ 8 _ 7); lia.
Qed.

(** X7.  The bound on the code points is needed for the round trip: a
    message with a character of code point 256 or more does not come back
    from [bit_unstuff(bit_stuff(s))]. *)
Theorem bit_round_trip_needs_bytes (s : pystr) :
  Exists (fun c => (256 <= c)%N) s ->
  bit_unstuff (bit_stuff s) <> Ret s.
Proof.
  intros Hs. rewrite bit_unstuff_bit_stuff_bits. intros Hout.
  apply from_bits_length in Hout.
  destruct (to_bits_long s) as [_ Hlong]. specialize (Hlong Hs). lia.
Qed.

Lemma bit_round_trip_needs_bytes_witness :
  Exists (fun c => (256 <= c)%N) [65; 960]%N
  /\ bit_unstuff (bit_stuff [65; 960]%N) <> Ret [65; 960]%N.
Proof.
  assert (H : Exists (fun c => (256 <= c)%N) [65; 960]%N).
  { apply Exists_cons_tl, Exists_cons_hd. by compute. }
  split; [exact H | exact (bit_round_trip_needs_bytes _ H)].
Defined.

(** X8.  [to_bits] writes eight bits for each character of code point below
    256, and [from_bits] reads them back. *)
Theorem to_bits_round_trip (s : pystr) :
  Forall (fun c => (c < 256)%N) s ->
  length (to_bits s) = (8 * length s)%nat
  /\ Forall (fun b => b = chr0 \/ b = chr1) (to_bits s)
  /\ from_bits (to_bits s) = Ret s.
Proof.
  intros Hs. split; [by apply to_bits_length|]. split; [|by apply from_bits_to_bits].
  clear Hs. induction s as [|c s IH]; [constructor|].
  rewrite to_bits_cons. apply Forall_app. split; [|done].
  unfold format_08b. apply Forall_app. split.
  - apply Forall_replicate. by left.
  - destruct c as [|p]; cbn [bin]; [apply Forall_singleton; by left|].
    induction p as [q IHq|q IHq|]; cbn [pos_bin].
    + apply Forall_app. split; [done|]. apply Forall_singleton. by right.
    + apply Forall_app. split; [done|]. apply Forall_singleton. by left.
    + apply Forall_singleton. by right.
Qed.

Lemma to_bits_round_trip_witness :
  Forall (fun c => (c < 256)%N) [72; 105; 0; 255]%N
  /\ length (to_bits [72; 105; 0; 255]%N) = (8 * length [72; 105; 0; 255]%N)%nat
  /\ Forall (fun b => b = chr0 \/ b = chr1) (to_bits [72; 105; 0; 255]%N)
  /\ from_bits (to_bits [72; 105; 0; 255]%N) = Ret [72; 105; 0; 255]%N.
Proof.
  assert (H : Forall (fun c => (c < 256)%N) [72; 105; 0; 255]%N)
    by (repeat constructor).
  split; [exact H | exact (to_bits_round_trip _ H)].
Defined.

Lemma int_base2_total (byte : pystr) : int_base2 byte <> Timeout.
Proof.
  unfold int_base2. destruct byte as [|c byte]; [done|].
  generalize (c :: byte) 0%N. clear. intros l.
  induction l as [|x l IH]; intros acc; [done|].
  cbn [for_each]. destruct (N.eqb x chr0); cbn [bind]; [apply IH|].
  destruct (N.eqb x chr1); cbn [bind]; [apply IH | done].
Qed.

Lemma decode_chars_total (chars : list pystr) : decode_chars chars <> Timeout.
Proof.
  induction chars as [|byte chars IH]; [done|].
  cbn [decode_chars]. pose proof (int_base2_total byte).
  destruct (int_base2 byte) as [n| |]; cbn [bind]; try done.
  unfold chr. destruct (n <=? 1114111)%N; cbn [bind]; [|done].
  destruct (decode_chars chars); done.
Qed.

Lemma from_bits_total (b : pystr) : from_bits b <> Timeout.
Proof.
  unfold from_bits. destruct (negb _); [done | apply decode_chars_total].
Qed.

(** X9.  [bit_unstuff] always ends: it returns or raises on every string.
    It raises the flag error on every string that does not both start and
    end with the flag pattern. *)
Theorem bit_unstuff_rejects (frame_bits : pystr) :
  bit_unstuff frame_bits <> Timeout
  /\ ((~ exists rest, frame_bits = FLAG_BITS ++ rest)
      \/ (~ exists start, frame_bits = start ++ FLAG_BITS) ->
      bit_unstuff frame_bits
      = Raise (ValueError "Frame missing start/end FLAG_BITS")).
Proof.
  split.
  - unfold bit_unstuff, bit_unstuff_fuel. destruct (negb _); [done|].
    rewrite unstuff_loop_fuel.
    + cbn [bind]. apply from_bits_total.
    + unfold slice. rewrite length_take, length_drop. lia.
  - intros Hbad. unfold bit_unstuff, bit_unstuff_fuel.
    destruct (startswith frame_bits FLAG_BITS) eqn:Hstart; [|done].
    destruct (endswith frame_bits FLAG_BITS) eqn:Hend; [|done].
    exfalso. unfold startswith in Hstart. unfold endswith in Hend.
    apply bool_decide_eq_true in Hstart.
    apply andb_prop in Hend as [_ Hend]. apply bool_decide_eq_true in Hend.
    destruct Hbad as [Hbad|Hbad]; apply Hbad.
    + exists (drop (length FLAG_BITS) frame_bits).
      by rewrite <- Hstart at 1; rewrite take_drop.
    + exists (take (length frame_bits - length FLAG_BITS) frame_bits).
      by rewrite <- Hend at 2; rewrite take_drop.
Qed.

(** * Display of a bit string *)

Lemma chunks_short (b : pystr) :
  (0 < length b <= 8)%nat -> chunks b = [b].
Proof.
  intros Hlen. unfold chunks, range_step.
  replace ((length b + 8 - 1) / 8)%nat with 1%nat.
  - cbn. unfold slice. rewrite drop_0. f_equal. apply take_ge. lia.
  - apply (Nat.div_unique _ 8 _ (length b - 1)); lia.
Qed.

Lemma chunks_nil : chunks [] = [].
Proof. reflexivity. Qed.

(** The groups of [bits_pretty], put end to end, are the bit string. *)
Lemma chunks_concat (b : pystr) :
  concat (chunks b) = b /\ Forall (fun g => (length g <= 8)%nat) (chunks b).
Proof.
  induction b as [b IH] using (induction_ltof1 _ (@length N)).
  unfold ltof in IH.
  destruct (Nat.le_gt_cases (length b) 8) as [Hle|Hgt].
  - destruct b as [|c b]; [by split|].
    rewrite chunks_short by (cbn [length] in *; lia). cbn. rewrite app_nil_r.
    split; [done|]. by apply Forall_singleton.
  - destruct (IH (drop 8 b)) as [Hcat Hall]; [rewrite length_drop; lia|].
    assert (Hch : chunks b = take 8 b :: chunks (drop 8 b)).
    { rewrite <- (take_drop 8 b) at 1.
      apply chunks_app. rewrite length_take. lia. }
    rewrite Hch. cbn [concat]. rewrite Hcat, take_drop. split; [done|].
    apply Forall_cons. split; [rewrite length_take; lia | done].
Qed.

Lemma filter_join_space (parts : list pystr) :
  Forall (Forall (fun c => c <> 32%N)) parts ->
  filter (fun c => c <> 32%N) (py_join [32%N] parts) = concat parts.
Proof.
  destruct parts as [|p ps]; [done|].
  intros [Hp Hps]%Forall_cons. cbn [py_join concat]. rewrite filter_app.
  f_equal.
  - clear -Hp. induction Hp as [|c p Hc _ IH]; [done|].
    by rewrite filter_cons_True, IH.
  - clear -Hps. induction Hps as [|q ps Hq _ IH]; [done|].
    cbn [flat_map concat]. rewrite !filter_app, IH. f_equal.
    rewrite filter_cons_False by (intros H; by apply H).
    rewrite filter_nil. cbn [app].
    clear -Hq. induction Hq as [|c q Hc _ IH]; [done|].
    by rewrite filter_cons_True, IH.
Qed.

(** X10.  [bits_pretty] only puts separators in: the groups it shows have
    at most eight characters each and, with the blanks taken out, its result
    is the bit string it was given. *)
Theorem bits_pretty_groups (bits : pystr) :
  Forall (fun c => c <> 32%N) bits ->
  (exists groups,
     bits_pretty bits = py_join [32%N] groups
     /\ concat groups = bits
     /\ Forall (fun g => (length g <= 8)%nat) groups)
  /\ filter (fun c => c <> 32%N) (bits_pretty bits) = bits.
Proof.
  intros Hbits. unfold bits_pretty. fold (chunks bits).
  destruct (chunks_concat bits) as [Hcat Hlen].
  split; [by exists (chunks bits)|].
  rewrite filter_join_space; [done|].
  apply Forall_forall. intros g Hg. apply Forall_forall. intros c Hc.
  rewrite Forall_forall in Hbits. apply Hbits. rewrite <- Hcat.
  apply list_elem_of_In, in_concat. exists g.
  split; by apply list_elem_of_In.
Qed.

Lemma bits_pretty_groups_witness :
  Forall (fun c => c <> 32%N) (to_bits [65; 66]%N)
  /\ filter (fun c => c <> 32%N) (bits_pretty (to_bits [65; 66]%N))
     = to_bits [65; 66]%N.
Proof.
  assert (H : Forall (fun c => c <> 32%N) (to_bits [65; 66]%N)).
  { apply (bool_decide_unpack _). vm_compute. exact I. }
  split; [exact H | exact (proj2 (bits_pretty_groups _ H))].
Defined.

(** * The tables [init_tables] builds *)

Lemma dict_get_dict_set {V : Type} (k k' : node) (x : V) (d : list (node * V)) :
  dict_get k (dict_set k' x d) = if decide (k' = k) then Some x else dict_get k d.
Proof.
  induction d as [|[k0 x0] d IH]; cbn [dict_set dict_get].
  - by destruct (decide (k' = k)).
  - destruct (decide (k0 = k')) as [->|Hne]; cbn [dict_get].
    + by destruct (decide (k' = k)).
    + rewrite IH. destruct (decide (k0 = k)) as [->|Hk]; [|done].
      by rewrite decide_False by congruence.
Qed.

Lemma dict_get_stores (k : node) (l row : list (node * Z)) :
  dict_get k (stores l row) = last_cost k l (dict_get k row).
Proof.
  revert row. induction l as [|[v c] l IH]; intros row; [done|].
  cbn [stores fold_left last_cost]. fold (stores l (dict_set v c row)).
  by rewrite IH, dict_get_dict_set.
Qed.

Lemma last_cost_app (k : node) (l1 l2 : list (node * Z)) (acc : option Z) :
  last_cost k (l1 ++ l2) acc = last_cost k l2 (last_cost k l1 acc).
Proof.
  revert acc. induction l1 as [|[v c] l1 IH]; intros acc; [done|].
  cbn [app last_cost]. apply IH.
Qed.

Lemma last_cost_incident_sym (u v : node) (edges : list (node * node * Z))
    (acc : option Z) :
  last_cost v (incident u edges) acc = last_cost u (incident v edges) acc.
Proof.
  revert acc. induction edges as [|[[a b] c] edges IH]; intros acc; [done|].
  rewrite !incident_cons, !last_cost_app, IH. f_equal.
  repeat (case_decide; cbn [last_cost app]); congruence.
Qed.

Lemma init_tables_known (nodes : list node) (edges : list (node * node * Z))
    (nb : neighbors_t) (d0 : dist_t) (n0 : next_t) :
  init_tables nodes edges = Ret (nb, d0, n0) ->
  forall u v c, (u, v, c) ∈ edges -> u ∈ nodes /\ v ∈ nodes.
Proof.
  intros Hinit. apply first_unknown_None.
  pose proof (init_tables_outcome nodes edges) as H.
  destruct (first_unknown nodes edges); [congruence | done].
Qed.

(** X11.  The tables [init_tables] returns are symmetric, whatever the
    links: the cost of [v] in the row of [u] of the neighbor map is the cost
    of [u] in the row of [v], and [dist[u][v] = dist[v][u]]. *)
Theorem init_tables_symmetric (nodes : list node)
    (edges : list (node * node * Z)) (nb : neighbors_t) (d0 : dist_t)
    (n0 : next_t) (u v : node) :
  init_tables nodes edges = Ret (nb, d0, n0) ->
  dict_get v (default [] (nb !! u)) = dict_get u (default [] (nb !! v))
  /\ lookup2 d0 u v = lookup2 d0 v u.
Proof.
  intros Hinit.
  pose proof (init_tables_entries _ _ _ _ _ Hinit) as (Hrows & Hent).
  pose proof (init_tables_known _ _ _ _ _ Hinit) as Hknown.
  assert (Hkey : forall x y c,
            dict_get y (stores (incident x edges) []) = Some c -> y ∈ nodes).
  { intros x y c Hget.
    apply dict_get_Some in Hget; [|apply stores_NoDup, NoDup_nil_2].
    apply elem_of_stores in Hget as [Hget|Hget]; [|by apply elem_of_nil in Hget].
    apply elem_of_incident in Hget as [Hget|Hget];
      by destruct (Hknown _ _ _ Hget). }
  assert (Hsym : dict_get v (stores (incident u edges) [])
                 = dict_get u (stores (incident v edges) [])).
  { rewrite !dict_get_stores. apply last_cost_incident_sym. }
  split.
  - rewrite !Hrows.
    destruct (decide (u ∈ nodes)) as [Hu|Hu], (decide (v ∈ nodes)) as [Hv|Hv];
      cbn [from_option id dict_get]; try done.
    + destruct (dict_get v _) as [c|] eqn:Hget; [|done].
      by apply Hkey in Hget.
    + destruct (dict_get u _) as [c|] eqn:Hget; [|done].
      by apply Hkey in Hget.
  - destruct (Hent u v) as [-> _]. destruct (Hent v u) as [-> _].
    destruct (decide (u ∈ nodes /\ v ∈ nodes)) as [[Hu Hv]|Hne].
    + rewrite decide_True by done. f_equal. unfold init_entry. rewrite Hsym.
      destruct (dict_get u _); [done|].
      destruct (decide (v = u)) as [->|Hvu].
      * by rewrite decide_True.
      * by rewrite decide_False by congruence.
    + by rewrite decide_False by tauto.
Qed.

Lemma init_tables_symmetric_witness :
  exists nb d0 n0,
    init_tables tri_nodes tri_edges = Ret (nb, d0, n0)
    /\ dict_get "C"%string (default [] (nb !! "A"%string))
       = dict_get "A"%string (default [] (nb !! "C"%string))
    /\ lookup2 d0 "A"%string "C"%string = lookup2 d0 "C"%string "A"%string.
Proof.
  eexists _, _, _. split; [vm_compute; reflexivity|].
  eapply (init_tables_symmetric tri_nodes tri_edges). vm_compute. reflexivity.
Defined.

Lemma incident_elem_of (u v : node) (c : Z) (edges : list (node * node * Z)) :
  (u, v, c) ∈ edges ->
  (v, c) ∈ incident u edges /\ (u, c) ∈ incident v edges.
Proof.
  induction edges as [|[[a b] c0] edges IH].
  - by intros ?%elem_of_nil.
  - rewrite !incident_cons.
    intros [[= -> -> ->]|Hin]%elem_of_cons.
    + rewrite (decide_True (P := a = a)), (decide_True (P := b = b)) by done.
      split.
      * apply elem_of_app. left. by left.
      * apply elem_of_app. right. apply elem_of_app. left. by left.
    + destruct (IH Hin). split; apply elem_of_app; right; apply elem_of_app;
        by right.
Qed.

(** X12.  When no link joins a node to itself and no two links join the
    same pair, the initial tables are those of the links: a link of cost [c]
    between [u] and [v] gives [u] the entry [(c, v)] for [v] and [v] the entry
    [(c, u)] for [u]; every node has [(0, itself)]; any other pair of nodes
    has [(INF, None)]. *)
Theorem init_tables_links (nodes : list node) (edges : list (node * node * Z))
    (nb : neighbors_t) (d0 : dist_t) (n0 : next_t) :
  init_tables nodes edges = Ret (nb, d0, n0) ->
  NoDup (pair_keys edges) ->
  (forall u v c, (u, v, c) ∈ edges ->
     lookup2 d0 u v = Some c /\ lookup2 n0 u v = Some (Some v)
     /\ lookup2 d0 v u = Some c /\ lookup2 n0 v u = Some (Some u))
  /\ (forall u, u ∈ nodes ->
        lookup2 d0 u u = Some 0 /\ lookup2 n0 u u = Some (Some u))
  /\ (forall u d, u ∈ nodes -> d ∈ nodes -> u <> d ->
        (forall c, ((u, d, c) ∉ edges) /\ ((d, u, c) ∉ edges)) ->
        lookup2 d0 u d = Some INF /\ lookup2 n0 u d = Some None).
Proof.
  intros Hinit Hnd.
  pose proof (init_tables_entries _ _ _ _ _ Hinit) as (Hrows & Hent).
  pose proof (init_tables_known _ _ _ _ _ Hinit) as Hknown.
  assert (Hget : forall u d c,
            dict_get d (stores (incident u edges) []) = Some c
            <-> (d, c) ∈ incident u edges).
  { intros u d c. rewrite stores_incident by done.
    apply dict_get_Some. by apply incident_NoDup. }
  assert (Hentry : forall u d c, u ∈ nodes -> d ∈ nodes ->
            (d, c) ∈ incident u edges ->
            lookup2 d0 u d = Some c /\ lookup2 n0 u d = Some (Some d)).
  { intros u d c Hu Hd Hin%Hget. destruct (Hent u d) as [-> ->].
    rewrite !decide_True by done. unfold init_entry. by rewrite Hin. }
  split; [|split].
  - intros u v c Hin. destruct (Hknown _ _ _ Hin) as [Hu Hv].
    destruct (incident_elem_of _ _ _ _ Hin) as [Huv Hvu].
    destruct (Hentry u v c Hu Hv Huv). destruct (Hentry v u c Hv Hu Hvu). done.
  - intros u Hu. destruct (Hent u u) as [-> ->].
    rewrite !decide_True by done. unfold init_entry.
    destruct (dict_get u _) as [c|] eqn:Hg.
    + apply Hget, elem_of_incident in Hg.
      exfalso. destruct Hg as [Hg|Hg];
        by apply (pair_keys_distinct edges u u c Hnd Hg).
    + by rewrite !decide_True.
  - intros u d Hu Hd Hne Hno. destruct (Hent u d) as [-> ->].
    rewrite !decide_True by done. unfold init_entry.
    destruct (dict_get d _) as [c|] eqn:Hg.
    + apply Hget, elem_of_incident in Hg. destruct (Hno c). by destruct Hg.
    + by rewrite !decide_False by congruence.
Qed.

Lemma init_tables_links_witness :
  exists nb d0 n0,
    init_tables tri_nodes tri_edges = Ret (nb, d0, n0)
    /\ NoDup (pair_keys tri_edges)
    /\ forall u v c, (u, v, c) ∈ tri_edges ->
         lookup2 d0 u v = Some c /\ lookup2 n0 u v = Some (Some v)
         /\ lookup2 d0 v u = Some c /\ lookup2 n0 v u = Some (Some u).
Proof.
  assert (Hnd : NoDup (pair_keys tri_edges)).
  { apply (bool_decide_unpack _). vm_compute. exact I. }
  eexists _, _, _. split; [vm_compute; reflexivity|]. split; [exact Hnd|].
  exact (proj1 (init_tables_links tri_nodes tri_edges _ _ _
                  ltac:(vm_compute; reflexivity) Hnd)).
Defined.

(** * Next hops *)

Lemma offers_elem (nodes : list node) (nb : neighbors_t) (pr : bool)
    (od : dist_t) (on : next_t) (o : offer) :
  o ∈ offers nodes nb pr od on <->
  exists row c d_uv,
    o_u o ∈ nodes /\ o_dest o ∈ nodes
    /\ nb !! o_u o = Some row /\ (o_v o, c) ∈ row
    /\ lookup2 od (o_u o) (o_v o) = Some d_uv /\ d_uv < INF
    /\ o_via o = candidate c (advertised_cost pr od on (o_u o) (o_v o) (o_dest o)).
Proof.
  unfold offers. rewrite list_elem_of_In, in_flat_map. split.
  - intros (u & Hu & Ho). apply in_flat_map in Ho as ([v c] & Hv & Ho).
    apply list_elem_of_In in Hu, Hv.
    destruct (nb !! u) as [row|] eqn:Hrow; [|by apply elem_of_nil in Hv].
    cbn [from_option id] in Hv. unfold offers_from in Ho. cbn [fst snd] in Ho.
    destruct (lookup2 od u v) as [d_uv|] eqn:Hduv; [|done].
    destruct (Z.leb_spec INF d_uv) as [|Hlt]; [done|].
    apply in_map_iff in Ho as (dest & <- & Hdest%list_elem_of_In).
    cbn [o_u o_dest o_v o_via]. by exists row, c, d_uv.
  - intros (row & c & d_uv & Hu & Hdest & Hrow & Hv & Hduv & Hlt & Hvia).
    exists (o_u o). split; [by apply list_elem_of_In|].
    apply in_flat_map. exists (o_v o, c). rewrite Hrow. cbn [from_option id].
    split; [by apply list_elem_of_In|].
    unfold offers_from. cbn [fst snd]. rewrite Hduv.
    destruct (Z.leb_spec INF d_uv) as [|_]; [lia|].
    apply in_map_iff. exists (o_dest o). split; [|by apply list_elem_of_In].
    rewrite <- Hvia. by destruct o.
Qed.

Section NextHops.

Variables (nodes : list node) (nb : neighbors_t).

Lemma take_offer_hops (verbose : bool) (st : round_state) (o : offer) :
  (exists row c, nb !! o_u o = Some row /\ (o_v o, c) ∈ row) ->
  hops_ok nb st /\ no_hop_inf st ->
  hops_ok nb (take_offer verbose st o) /\ no_hop_inf (take_offer verbose st o).
Proof.
  intros Hnbr [Hok Hinf]. unfold take_offer.
  destruct (lookup2 (st_dist st) (o_u o) (o_dest o)) as [cur|] eqn:Hcur; [|done].
  destruct (o_via o <? cur); [|done]. split.
  - intros u d v. cbn [st_next].
    intros [(-> & -> & [= ->])|[_ Hnext]]%lookup2_store2_Some; [by right|].
    by apply Hok.
  - intros u d. cbn [st_next st_dist].
    intros [(-> & -> & [=])|[Hne Hnext]]%lookup2_store2_Some.
    rewrite lookup2_store2, decide_False by tauto. by apply Hinf.
Qed.

Lemma fold_offers_hops (verbose : bool) (os : list offer) (st : round_state) :
  (forall o, o ∈ os ->
     exists row c, nb !! o_u o = Some row /\ (o_v o, c) ∈ row) ->
  hops_ok nb st /\ no_hop_inf st ->
  hops_ok nb (fold_left (take_offer verbose) os st)
  /\ no_hop_inf (fold_left (take_offer verbose) os st).
Proof.
  revert st. induction os as [|o os IH]; intros st Hos Hst; [done|].
  cbn [fold_left]. apply IH.
  - intros o' Ho'. apply Hos. by right.
  - apply take_offer_hops; [|done]. apply Hos. by left.
Qed.

End NextHops.

(** X13.  After [init_tables] and after every round, with or without
    poisoned reverse: the next hop recorded by [u] for [d] is a neighbor of
    [u] (or [u] itself, for [d = u]), and an entry that has no next hop has
    cost [INF]. *)
Theorem next_hop_invariant (nodes : list node) (edges : list (node * node * Z))
    (use_poisoned_reverse : bool) (nb : neighbors_t) (d0 : dist_t)
    (n0 : next_t) (k : nat) :
  init_tables nodes edges = Ret (nb, d0, n0) ->
  exists st,
    tables_after k nodes nb use_poisoned_reverse d0 n0 = Ret st
    /\ (forall u d v,
          lookup2 (st_next st) u d = Some (Some v) ->
          (v = u /\ d = u)
          \/ exists row c, nb !! u = Some row /\ (v, c) ∈ row)
    /\ (forall u d,
          lookup2 (st_next st) u d = Some None ->
          lookup2 (st_dist st) u d = Some INF).
Proof.
  intros Hinit.
  destruct (init_tables_wf _ _ _ _ _ Hinit) as (Hnb & Hd0 & Hn0).
  pose proof (init_tables_entries _ _ _ _ _ Hinit) as (Hrows & Hent).
  induction k as [|k (st & Hst & Hok & Hinf)].
  - eexists. split; [reflexivity|]. cbn [st_dist st_next]. split.
    + intros u d v Hnext. destruct (Hent u d) as [_ Hn]. rewrite Hn in Hnext.
      destruct (decide (u ∈ nodes /\ d ∈ nodes)) as [[Hu Hd]|]; [|done].
      injection Hnext as Hnext. unfold init_entry in Hnext.
      destruct (dict_get d _) as [c|] eqn:Hg.
      * injection Hnext as <-. right.
        apply dict_get_Some in Hg; [|apply stores_NoDup, NoDup_nil_2].
        eexists _, c. split; [|exact Hg]. by rewrite Hrows, decide_True.
      * destruct (decide (d = u)) as [->|]; [|done].
        injection Hnext as <-. by left.
    + intros u d Hnext. destruct (Hent u d) as [Hd Hn]. rewrite Hn in Hnext.
      rewrite Hd.
      destruct (decide (u ∈ nodes /\ d ∈ nodes)) as [[Hu Hdn]|]; [|done].
      injection Hnext as Hnext. unfold init_entry in *.
      destruct (dict_get d _) as [c|]; [done|].
      by destruct (decide (d = u)).
  - eexists. split; [by apply tables_after_step|].
    apply (fold_offers_hops nb); [|by split].
    intros o (row & c & _ & _ & _ & Hrow & Hv & _)%offers_elem.
    by exists row, c.
Qed.

Lemma next_hop_invariant_witness :
  exists nb d0 n0,
    init_tables tri_nodes tri_edges = Ret (nb, d0, n0)
    /\ exists st,
         tables_after 2 tri_nodes nb true d0 n0 = Ret st
         /\ (forall u d v,
               lookup2 (st_next st) u d = Some (Some v) ->
               (v = u /\ d = u)
               \/ exists row c, nb !! u = Some row /\ (v, c) ∈ row)
         /\ (forall u d,
               lookup2 (st_next st) u d = Some None ->
               lookup2 (st_dist st) u d = Some INF).
Proof.
  eexists _, _, _. split; [vm_compute; reflexivity|].
  apply (next_hop_invariant tri_nodes tri_edges true _ _ _ 2).
  vm_compute. reflexivity.
Defined.

(** * A converged run *)

(** The tables a converged run returns are those of the round before its
    last one, and the offers made from them change nothing. *)
Lemma converged_last_round (nodes : list node) (edges : list (node * node * Z))
    (pr verbose : bool) (nb : neighbors_t) (d0 : dist_t) (n0 : next_t)
    (r : run) :
  init_tables nodes edges = Ret (nb, d0, n0) ->
  distance_vector_run 51 nodes edges pr verbose = Ret r ->
  run_exit r = Converged ->
  exists m st,
    tables_after m nodes nb pr d0 n0 = Ret st
    /\ st_dist st = run_dist r /\ st_next st = run_next r
    /\ wf_state nodes st
    /\ forall verbose' stdout,
         fold_left (take_offer verbose')
           (offers nodes nb pr (run_dist r) (run_next r))
           (RoundState (run_dist r) (run_next r) false stdout)
         = RoundState (run_dist r) (run_next r) false stdout.
Proof.
  intros Hinit Hrun Hconv.
  destruct (init_tables_wf _ _ _ _ _ Hinit) as (Hnb & Hd0 & Hn0).
  unfold distance_vector_run in Hrun. rewrite Hinit in Hrun. cbn [bind] in Hrun.
  destruct (dv_loop_spec nodes nb pr d0 n0 Hnb Hd0 Hn0 verbose 51 0
              (RoundState d0 n0 false []) [] eq_refl)
    as (r' & st_r & Hrun' & Hit & Hafter & Hrd & Hrn & Hflag & _); [lia..|].
  cbn [st_dist st_next] in Hrun'. rewrite Hrun in Hrun'. injection Hrun' as <-.
  apply Hflag in Hconv.
  destruct (run_iteration r) as [|m]; [lia|].
  destruct (tables_after_wf nodes nb pr d0 n0 Hnb Hd0 Hn0 m)
    as (st & Hst & Hwf).
  rewrite (tables_after_step nodes nb pr d0 n0 Hnb Hd0 Hn0 m st Hst) in Hafter.
  injection Hafter as <-.
  pose proof (fold_offers_unchanged false _ _ Hconv) as Hsame.
  rewrite Hsame in Hrd, Hrn, Hconv. cbn [st_dist st_next] in Hrd, Hrn.
  exists m, st. split; [done|]. split; [done|]. split; [done|]. split; [done|].
  intros verbose' stdout. rewrite Hrd, Hrn.
  apply fold_offers_unchanged.
  pose proof (fold_offers_silent verbose'
                (offers nodes nb pr (st_dist st) (st_next st))
                (RoundState (st_dist st) (st_next st) false stdout)) as Hsil.
  unfold silent at 2 in Hsil. cbn [st_dist st_next st_updated] in Hsil.
  rewrite Hsame in Hsil.
  apply (f_equal st_updated) in Hsil. by cbn in Hsil.
Qed.

(** X14.  A converged run has reached a fixed point of the round: one more
    round from the tables it returns stores nothing, sets no flag and
    prints nothing. *)
Theorem converged_fixed_point (nodes : list node)
    (edges : list (node * node * Z)) (use_poisoned_reverse verbose : bool)
    (nb : neighbors_t) (d0 : dist_t) (n0 : next_t) (r : run)
    (verbose' : bool) (stdout : list event) :
  init_tables nodes edges = Ret (nb, d0, n0) ->
  distance_vector_run 51 nodes edges use_poisoned_reverse verbose = Ret r ->
  run_exit r = Converged ->
  round nodes nb use_poisoned_reverse verbose' (run_dist r) (run_next r)
    (RoundState (run_dist r) (run_next r) false stdout)
  = Ret (RoundState (run_dist r) (run_next r) false stdout).
Proof.
  intros Hinit Hrun Hconv.
  destruct (init_tables_wf _ _ _ _ _ Hinit) as (Hnb & _ & _).
  destruct (converged_last_round _ _ _ _ _ _ _ _ Hinit Hrun Hconv)
    as (m & st & _ & Hd & Hn & [Hwd Hwn] & Hfix).
  rewrite <- Hd, <- Hn in *.
  rewrite round_offers by done. by rewrite Hfix.
Qed.

Lemma converged_fixed_point_witness :
  exists nb d0 n0 r,
    init_tables tri_nodes tri_edges = Ret (nb, d0, n0)
    /\ distance_vector_run 51 tri_nodes tri_edges false false = Ret r
    /\ run_exit r = Converged
    /\ round tri_nodes nb false true (run_dist r) (run_next r)
         (RoundState (run_dist r) (run_next r) false [])
       = Ret (RoundState (run_dist r) (run_next r) false []).
Proof.
  eexists _, _, _, _. split; [vm_compute; reflexivity|].
  split; [vm_compute; reflexivity|]. split; [reflexivity|].
  eapply (converged_fixed_point tri_nodes tri_edges false false _ _ _ _ true []);
    [vm_compute; reflexivity | vm_compute; reflexivity | reflexivity].
Defined.

Lemma best_le_offer (os : list offer) (o : offer) (c : Z) :
  o ∈ os -> best os (o_u o) (o_dest o) c <= o_via o.
Proof.
  revert c. induction os as [|o' os IH]; intros c Hin.
  - by apply elem_of_nil in Hin.
  - cbn [best]. apply elem_of_cons in Hin as [<-|Hin]; [|by apply IH].
    rewrite decide_True by done. etrans; [apply best_le|]. lia.
Qed.

(** X15.  At convergence the costs satisfy the Bellman-Ford inequalities:
    for every neighbor [v] of [u] that [u] reaches at a cost below [INF] and
    every destination [d], the cost of [u] to [d] is at most the link cost
    plus what [v] advertises to [u] for [d]; without poisoned reverse this
    is the link cost plus the cost of [v] to [d]. *)
Theorem converged_bellman (nodes : list node) (edges : list (node * node * Z))
    (use_poisoned_reverse verbose : bool) (nb : neighbors_t) (d0 : dist_t)
    (n0 : next_t) (r : run) (u v d : node) (row : list (node * Z))
    (c d_uv : Z) :
  init_tables nodes edges = Ret (nb, d0, n0) ->
  distance_vector_run 51 nodes edges use_poisoned_reverse verbose = Ret r ->
  run_exit r = Converged ->
  u ∈ nodes -> d ∈ nodes -> nb !! u = Some row -> (v, c) ∈ row ->
  lookup2 (run_dist r) u v = Some d_uv -> d_uv < INF ->
  exists c_u c_v,
    lookup2 (run_dist r) u d = Some c_u
    /\ lookup2 (run_dist r) v d = Some c_v
    /\ c_u <= c + advertised_cost use_poisoned_reverse (run_dist r) (run_next r)
                    u v d
    /\ (use_poisoned_reverse = false -> c_u <= c + c_v).
Proof.
  intros Hinit Hrun Hconv Hu Hd Hrow Hv Hduv Hlt.
  destruct (init_tables_wf _ _ _ _ _ Hinit) as (Hnb & _ & _).
  destruct (converged_last_round _ _ _ _ _ _ _ _ Hinit Hrun Hconv)
    as (m & st & _ & Hsd & Hsn & [Hwd Hwn] & Hfix).
  rewrite Hsd in Hwd.
  destruct (Hnb u Hu) as (row' & Hrow' & Hrows). rewrite Hrow in Hrow'.
  injection Hrow' as <-. pose proof (Hrows v c Hv) as Hvn.
  destruct (Hwd u d Hu Hd) as [c_u Hcu]. destruct (Hwd v d Hvn Hd) as [c_v Hcv].
  exists c_u, c_v. split; [done|]. split; [done|].
  set (o := Offer u d v
              (candidate c (advertised_cost use_poisoned_reverse
                              (run_dist r) (run_next r) u v d))).
  assert (Ho : o ∈ offers nodes nb use_poisoned_reverse (run_dist r) (run_next r)).
  { apply offers_elem. by exists row, c, d_uv. }
  pose proof (fold_offers_best false
                (offers nodes nb use_poisoned_reverse (run_dist r) (run_next r))
                (RoundState (run_dist r) (run_next r) false []) u d) as Hbest.
  rewrite (Hfix false []) in Hbest. cbn [st_dist] in Hbest.
  rewrite Hcu in Hbest. cbn in Hbest. injection Hbest as Hbest.
  pose proof (best_le_offer _ o c_u Ho) as Hle. cbn [o o_u o_dest o_via] in Hle.
  rewrite <- Hbest in Hle. unfold candidate in Hle. split; [done|].
  intros ->. unfold advertised_cost in Hle. rewrite Hcv in Hle. by cbn in Hle.
Qed.

Lemma converged_bellman_witness :
  exists nb d0 n0 r row,
    init_tables tri_nodes tri_edges = Ret (nb, d0, n0)
    /\ distance_vector_run 51 tri_nodes tri_edges false false = Ret r
    /\ nb !! "A"%string = Some row
    /\ exists c_u c_v,
         lookup2 (run_dist r) "A"%string "C"%string = Some c_u
         /\ lookup2 (run_dist r) "B"%string "C"%string = Some c_v
         /\ c_u <= 1 + advertised_cost false (run_dist r) (run_next r)
                         "A"%string "B"%string "C"%string
         /\ (false = false -> c_u <= 1 + c_v).
Proof.
  eexists _, _, _, _, _. split; [vm_compute; reflexivity|].
  split; [vm_compute; reflexivity|]. split; [vm_compute; reflexivity|].
  eapply (converged_bellman tri_nodes tri_edges false false _ _ _ _
           "A"%string "B"%string "C"%string _ 1 1);
    try (vm_compute; reflexivity).
  - apply list_elem_of_In. cbn. tauto.
  - apply list_elem_of_In. cbn. tauto.
  - apply list_elem_of_In. cbn. tauto.
Defined.

(** * Routes and walks *)

Lemma lookup2_store2_same {V : Type} (m : gmap node (gmap node V))
    (u k : node) (x y : V) :
  lookup2 m u k = Some y -> lookup2 (store2 m u k x) u k = Some x.
Proof.
  intros Hy. rewrite lookup2_store2. rewrite decide_True; [done|].
  split; [done|]. split; [done|]. unfold lookup2 in Hy.
  by destruct (m !! u).
Qed.

Lemma lookup2_store2_other {V : Type} (m : gmap node (gmap node V))
    (u k : node) (x : V) (u' k' : node) :
  ~ (u' = u /\ k' = k) ->
  lookup2 (store2 m u k x) u' k' = lookup2 m u' k'.
Proof. intros Hne. rewrite lookup2_store2. rewrite decide_False; tauto. Qed.

Lemma take_offer_sound (edges : list (node * node * Z)) (verbose : bool)
    (st : round_state) (o : offer) :
  (o_via o < INF -> walk edges (o_u o) (o_dest o) (o_via o)) ->
  sound edges (st_dist st) -> sound edges (st_dist (take_offer verbose st o)).
Proof.
  intros Ho Hs. unfold take_offer.
  destruct (lookup2 (st_dist st) (o_u o) (o_dest o)) as [cur|] eqn:Hcur; [|done].
  destruct (o_via o <? cur); [|done]. cbn [st_dist]. intros u d c.
  intros [(-> & -> & ->)|[_ Hc]]%lookup2_store2_Some Hlt; [by apply Ho|].
  by apply Hs.
Qed.

Lemma fold_offers_sound (edges : list (node * node * Z)) (verbose : bool)
    (os : list offer) (st : round_state) :
  (forall o, o ∈ os ->
     o_via o < INF -> walk edges (o_u o) (o_dest o) (o_via o)) ->
  sound edges (st_dist st) ->
  sound edges (st_dist (fold_left (take_offer verbose) os st)).
Proof.
  revert st. induction os as [|o os IH]; intros st Hos Hs; [done|].
  cbn [fold_left]. apply IH.
  - intros o' Ho'. apply Hos. by right.
  - apply take_offer_sound; [|done]. apply Hos. by left.
Qed.

Lemma take_offer_linked (nb : neighbors_t) (verbose : bool)
    (old_dist : dist_t) (st : round_state) (o : offer) :
  below old_dist st -> hop_offer nb old_dist o -> linked nb st ->
  linked nb (take_offer verbose st o).
Proof.
  intros Hb (row & c & a & Hrow & Hin & Hne & Ha & Hvia) Hl. unfold take_offer.
  destruct (lookup2 (st_dist st) (o_u o) (o_dest o)) as [cur|] eqn:Hcur; [|done].
  destruct (Z.ltb_spec (o_via o) cur) as [Hlt|_]; [|done].
  destruct (Hb _ _ _ Ha) as (cn & Hcn & Hlen).
  intros u d v. cbn [st_dist st_next].
  intros [(-> & -> & [= ->])|[Hnt Hnext]]%lookup2_store2_Some Hud.
  - exists row, c, (o_via o), cn. split; [done|]. split; [done|].
    split; [by apply (lookup2_store2_same _ _ _ _ cur)|]. split; [|lia].
    rewrite lookup2_store2_other; [done|]. intros [Heq _]. by apply Hne.
  - destruct (Hl u d v Hnext Hud)
      as (row' & c' & cu & cv & Hrow' & Hin' & Hcu & Hcv & Hle).
    destruct (decide (v = o_u o /\ d = o_dest o)) as [[-> ->]|Hv].
    + exists row', c', cu, (o_via o). split; [done|]. split; [done|].
      split; [by rewrite lookup2_store2_other|].
      split; [by apply (lookup2_store2_same _ _ _ _ cur)|].
      rewrite Hcur in Hcv. injection Hcv as <-. lia.
    + exists row', c', cu, cv. split; [done|]. split; [done|].
      by rewrite !lookup2_store2_other.
Qed.

Lemma fold_offers_linked (nb : neighbors_t) (verbose : bool)
    (old_dist : dist_t) (os : list offer) (st : round_state) :
  (forall o, o ∈ os -> hop_offer nb old_dist o) ->
  below old_dist st -> linked nb st ->
  linked nb (fold_left (take_offer verbose) os st).
Proof.
  revert st. induction os as [|o os IH]; intros st Hos Hb Hl; [done|].
  cbn [fold_left]. apply IH.
  - intros o' Ho'. apply Hos. by right.
  - by apply take_offer_below.
  - apply (take_offer_linked nb verbose old_dist); [done| |done].
    apply Hos. by left.
Qed.

Section Walks.

Variables (nodes : list node) (edges : list (node * node * Z)).
Variables (nb : neighbors_t) (d0 : dist_t) (n0 : next_t).
Hypothesis Hinit : init_tables nodes edges = Ret (nb, d0, n0).
Hypothesis Hvalid :
  forall u v c, (u, v, c) ∈ edges -> u <> v /\ 0 <= c <= INF.

Lemma walk_nonneg (u d : node) (w : Z) : walk edges u d w -> 0 <= w.
Proof.
  induction 1 as [|u v d c w Hlink _ IH]; [lia|].
  destruct Hlink as [Hlink|Hlink]; apply Hvalid in Hlink; lia.
Qed.

Lemma walk_nodes (u d : node) (w : Z) :
  walk edges u d w -> u ∈ nodes -> d ∈ nodes.
Proof.
  induction 1 as [|u v d c w Hlink _ IH]; [done|]. intros _. apply IH.
  destruct Hlink as [Hlink|Hlink];
    by apply (init_tables_known _ _ _ _ _ Hinit) in Hlink as [? ?].
Qed.

(** The offers of a round without poisoned reverse. *)
Lemma offers_hop (old_dist : dist_t) (old_next : next_t) (o : offer) :
  wf_table nodes old_dist ->
  o ∈ offers nodes nb false old_dist old_next ->
  hop_offer nb old_dist o
  /\ (sound edges old_dist -> o_via o < INF ->
      walk edges (o_u o) (o_dest o) (o_via o)).
Proof.
  intros Hwf (row & c & d_uv & Hu & Hd & Hrow & Hv & _ & _ & Hvia)%offers_elem.
  destruct (init_tables_wf _ _ _ _ _ Hinit) as (Hnb & _ & _).
  destruct (Hnb _ Hu) as (row' & Hrow' & Hrows). rewrite Hrow in Hrow'.
  injection Hrow' as <-.
  destruct (Hwf (o_v o) (o_dest o) (Hrows _ _ Hv) Hd) as [a Ha].
  destruct (valid_rows nodes edges nb d0 n0 Hinit Hvalid _ _ _ _ Hrow Hv)
    as [Hne Hc].
  unfold candidate, advertised_cost in Hvia. rewrite Ha in Hvia. cbn in Hvia.
  split; [by exists row, c, a|].
  intros Hs Hlt. rewrite Hvia. apply (walk_link edges _ (o_v o)).
  - by apply (init_tables_row_link _ _ _ _ _ _ _ _ _ Hinit Hrow).
  - apply Hs; [done | lia].
Qed.

(** After every round without poisoned reverse the costs below [INF] are
    costs of walks, and every route costs at least the link to its next hop
    plus the cost the next hop holds. *)
Lemma tables_after_walks (k : nat) :
  exists st,
    tables_after k nodes nb false d0 n0 = Ret st
    /\ wf_state nodes st /\ self_routes nodes st /\ bounded st
    /\ sound edges (st_dist st) /\ linked nb st.
Proof.
  destruct (init_tables_wf _ _ _ _ _ Hinit) as (Hnb & Hd0 & Hn0).
  pose proof (init_tables_entries _ _ _ _ _ Hinit) as (Hrows & Hent).
  induction k as [|k (st & Hst & Hwf & Hself & Hbound & Hs & Hl)].
  - destruct (tables_after_good nodes edges nb d0 n0 Hinit Hvalid 0)
      as (st & Hst & Hwf & Hself & Hbound & _).
    exists st. split; [done|]. split; [done|]. split; [done|]. split; [done|].
    injection Hst as <-. cbn [st_dist st_next].
    assert (Hget : forall u d c, u ∈ nodes ->
              dict_get d (stores (incident u edges) []) = Some c ->
              (u, d, c) ∈ edges \/ (d, u, c) ∈ edges).
    { intros u d c Hu Hg.
      apply dict_get_Some in Hg; [|apply stores_NoDup, NoDup_nil_2].
      apply (init_tables_row_link _ _ _ _ _ u d c
               (stores (incident u edges) []) Hinit); [|exact Hg].
      by rewrite Hrows, decide_True. }
    split.
    + intros u d c Hc Hlt. destruct (Hent u d) as [Hd _]. rewrite Hd in Hc.
      destruct (decide (u ∈ nodes /\ d ∈ nodes)) as [[Hu Hdn]|]; [|done].
      injection Hc as <-. unfold init_entry in *.
      destruct (dict_get d _) as [c|] eqn:Hg.
      * replace c with (c + 0) by lia.
        apply (walk_link edges u d); [by apply Hget | constructor].
      * destruct (decide (d = u)) as [->|]; [constructor | lia].
    + intros u d v Hnext Hud. cbn [st_dist st_next] in *.
      destruct (Hent u d) as [Hd Hn]. rewrite Hn in Hnext.
      destruct (decide (u ∈ nodes /\ d ∈ nodes)) as [[Hu Hdn]|]; [|done].
      injection Hnext as Hnext. unfold init_entry in Hnext, Hd.
      destruct (dict_get d _) as [c|] eqn:Hg.
      * injection Hnext as <-.
        apply dict_get_Some in Hg; [|apply stores_NoDup, NoDup_nil_2].
        eexists _, c, c, 0. split; [by rewrite Hrows, decide_True|].
        split; [done|]. split; [done|]. split; [|lia].
        by destruct (proj2 Hself d Hdn).
      * destruct (decide (d = u)); [congruence | done].
  - destruct (tables_after_good nodes edges nb d0 n0 Hinit Hvalid (S k))
      as (st' & Hst' & Hwf' & Hself' & Hbound' & _).
    exists st'. split; [done|]. split; [done|]. split; [done|]. split; [done|].
    rewrite (tables_after_step nodes nb false d0 n0 Hnb Hd0 Hn0 k st Hst) in Hst'.
    injection Hst' as <-.
    split.
    + apply fold_offers_sound; [|done]. intros o Ho.
      by apply (offers_hop _ _ _ (proj1 Hwf) Ho).
    + apply (fold_offers_linked nb false (st_dist st)); [| |done].
      * intros o Ho. by apply (offers_hop _ _ _ (proj1 Hwf) Ho).
      * apply (below_refl (RoundState (st_dist st) (st_next st) false [])).
Qed.

(** The tables a run returns, with or without poisoned reverse, are those
    of some round without it. *)
Lemma run_tables (pr verbose : bool) (r : run) :
  distance_vector_run 51 nodes edges pr verbose = Ret r ->
  exists rf st,
    distance_vector_run 51 nodes edges false verbose = Ret rf
    /\ tables_after (run_iteration rf) nodes nb false d0 n0 = Ret st
    /\ run_dist r = st_dist st /\ run_next r = st_next st
    /\ run_dist rf = run_dist r /\ run_next rf = run_next r
    /\ run_exit rf = run_exit r.
Proof.
  intros Hrun.
  destruct (init_tables_wf _ _ _ _ _ Hinit) as (Hnb & Hd0 & Hn0).
  destruct (run_poison nodes edges nb d0 n0 verbose Hinit Hvalid)
    as (rt & rf & Hrt & Hrf & Hd & Hn & _ & Hex).
  destruct (dv_loop_spec nodes nb false d0 n0 Hnb Hd0 Hn0 verbose 51 0
              (RoundState d0 n0 false []) [] eq_refl)
    as (r' & st & Hr' & _ & Hafter & Hrd & Hrn & _); [lia..|].
  cbn [st_dist st_next] in Hr'. rewrite Hrf in Hr'. injection Hr' as <-.
  unfold distance_vector_run in *. rewrite Hinit in *. cbn [bind] in *.
  exists rf, st. split; [done|]. split; [done|].
  destruct pr.
  - rewrite Hrt in Hrun. injection Hrun as <-.
    rewrite Hd, Hn, Hex. done.
  - rewrite Hrf in Hrun. by injection Hrun as <-.
Qed.

End Walks.
